(** * Predictive states with one-hot embeddings: the [predstate] notebook

    A shallow embedding of the estimation pipeline of [src/predstate.ipynb]:
    sliding windows over a categorical sequence, one-hot feature matrices,
    joint and marginal counts, the conditional table obtained by division
    by the marginal counts and by matrix inversion, the least-squares
    characterisation of the same table, the [SVDRegressor] class with its
    rank bottleneck, and k-fold cross-validation.

    numpy's [float64] arrays are idealised as arrays of exact numbers; an
    array is its shape together with its indexing function.  Counts,
    tables and regression coefficients are rational ([Q], compared with
    [==]), and the definitions on them can be evaluated.  Singular values
    and singular vectors are irrational in general, so that the results
    which rest on an exact decomposition are stated on arrays of real
    numbers ([RealArrays]); the results on [SVDRegressor.fit] need the
    shapes of the factors only and stay on rational arrays.  The one place
    where [float64] leaves exact arithmetic without raising, the division
    by a zero count, is modelled with infinities and nan
    ([morphs_float64]).

    Library routines that the notebook only calls ([scipy.linalg.inv],
    [scipy.linalg.svd], [LinearRegression.fit]) are arguments of the
    definitions that use them, and each theorem states the contract it
    needs of them. *)

From Stdlib Require Import List Arith ZArith Reals Qreals QArith Qabs Lia Lra Psatz Bool.
Import ListNotations.

(** ** Exceptions and fallible computations *)

Inductive exn : Type :=
| ValueError          (* numpy: operand shapes do not agree *)
| LinAlgError         (* scipy.linalg: singular matrix *)
| InvalidWindowError  (* Windower: sequence shorter than one window *)
| UnknownSymbolError. (* one-hot transform: sub-word outside the alphabet *)

Inductive result (A : Type) : Type :=
| Ok (a : A)
| Raise (e : exn).

Arguments Ok {A} a.
Arguments Raise {A} e.

Definition bind {A B : Type} (r : result A) (k : A -> result B) : result B :=
  match r with
  | Ok a => k a
  | Raise e => Raise e
  end.

Notation "x <- r ;; k" := (bind r (fun x => k))
  (at level 61, r at next level, right associativity).

Definition result_map {A B : Type} (f : A -> B) (r : result A) : result B :=
  a <- r ;; Ok (f a).

(** ** Finite sums of rationals *)

Fixpoint qsum (n : nat) (f : nat -> Q) : Q :=
  match n with
  | O => 0
  | S m => qsum m f + f m
  end.

(** Kronecker delta, the entries of an indicator row. *)
Definition delta (i j : nat) : Q := if Nat.eqb i j then 1 else 0.

(** ** Arrays *)

(** A one-dimensional array: its length and its indexing function. *)
Record vector : Type := mkVec { vlen : nat; vget : nat -> Q }.

(** A two-dimensional array: its shape and its indexing function. *)
Record matrix : Type := mkMat { nrows : nat; ncols : nat; entry : nat -> nat -> Q }.

Definition of_rows (r c : nat) (l : list (list Q)) : matrix :=
  mkMat r c (fun i j => nth j (nth i l []) 0).

Definition of_list (l : list Q) : vector :=
  mkVec (length l) (fun i => nth i l 0).

Definition to_rows (M : matrix) : list (list Q) :=
  map (fun i => map (fun j => Qred (entry M i j)) (seq 0 (ncols M))) (seq 0 (nrows M)).

Definition to_list (v : vector) : list Q :=
  map (fun i => Qred (vget v i)) (seq 0 (vlen v)).

(** Equality of arrays: same shape, equal entries inside the shape. *)
Definition mx_eq (A B : matrix) : Prop :=
  nrows A = nrows B /\ ncols A = ncols B /\
  forall i j, (i < nrows A)%nat -> (j < ncols A)%nat -> entry A i j == entry B i j.

Definition forall_lt (n : nat) (p : nat -> bool) : bool :=
  forallb p (seq 0 n).

Definition mx_eqb (A B : matrix) : bool :=
  Nat.eqb (nrows A) (nrows B) && Nat.eqb (ncols A) (ncols B) &&
  forall_lt (nrows A) (fun i =>
    forall_lt (ncols A) (fun j => Qeq_bool (entry A i j) (entry B i j))).

(** [np.allclose]-style comparison with an absolute tolerance. *)
Definition within_tol (eps : Q) (A B : matrix) : Prop :=
  nrows A = nrows B /\ ncols A = ncols B /\
  forall i j, (i < nrows A)%nat -> (j < ncols A)%nat ->
    Qabs (entry A i j - entry B i j) <= eps.

Definition zeros (r c : nat) : matrix := mkMat r c (fun _ _ => 0).

Definition eye (n : nat) : matrix := mkMat n n delta.

(** [M.T] *)
Definition transpose (M : matrix) : matrix :=
  mkMat (ncols M) (nrows M) (fun i j => entry M j i).

(** [A @ B]: numpy raises [ValueError] when the inner dimensions differ. *)
Definition matmul (A B : matrix) : result matrix :=
  if Nat.eqb (ncols A) (nrows B)
  then Ok (mkMat (nrows A) (ncols B)
             (fun i j => qsum (ncols A) (fun l => entry A i l * entry B l j)))
  else Raise ValueError.

(** [M.sum(axis=1)]: the vector of row sums. *)
Definition sum_axis1 (M : matrix) : vector :=
  mkVec (nrows M) (fun i => qsum (ncols M) (fun j => entry M i j)).

(** [v**(-1)], elementwise, on non-zero entries.  On a zero entry numpy
    yields [inf] with a warning; [Q] has no such value ([/ 0 == 0]), so
    the statements about this operation assume non-zero entries, and the
    zero entries are the matter of [fvpow_neg1] and [morphs_float64]
    below. *)
Definition vpow_neg1 (v : vector) : vector :=
  mkVec (vlen v) (fun i => / vget v i).

(** [np.diag(v)] for a one-dimensional [v]. *)
Definition diag (v : vector) : matrix :=
  mkMat (vlen v) (vlen v) (fun i j => if Nat.eqb i j then vget v i else 0).

(** The number of elements selected by the Python slice [[:k]] on an axis
    of length [n]: a negative [k] counts from the end. *)
Definition slice_stop (n : nat) (k : Z) : nat :=
  if (k <? 0)%Z then Z.to_nat (Z.max 0 (Z.of_nat n + k))
  else Nat.min (Z.to_nat k) n.

(** [s[:k]] *)
Definition vec_upto (k : Z) (v : vector) : vector :=
  mkVec (slice_stop (vlen v) k) (vget v).

(** [M[:k]] *)
Definition rows_upto (k : Z) (M : matrix) : matrix :=
  mkMat (slice_stop (nrows M) k) (ncols M) (entry M).

(** [M[:, :k]] *)
Definition cols_upto (k : Z) (M : matrix) : matrix :=
  mkMat (nrows M) (slice_stop (ncols M) k) (entry M).

(** [M[idx]] for a list of row indices (fancy indexing on axis 0). *)
Definition take_rows (idx : list nat) (M : matrix) : matrix :=
  mkMat (length idx) (ncols M) (fun i j => entry M (nth i idx O) j).

(** ** Decidable checks on arrays *)

Definition exists_lt (n : nat) (p : nat -> bool) : bool :=
  existsb p (seq 0 n).

(** Row [t] of [M] is the indicator vector of column [j]. *)
Definition indicator_row (M : matrix) (t j : nat) : Prop :=
  (j < ncols M)%nat /\
  forall j', (j' < ncols M)%nat -> entry M t j' == delta j j'.

(** Every row of [M] is one-hot. *)
Definition one_hot (M : matrix) : Prop :=
  forall t, (t < nrows M)%nat -> exists j, indicator_row M t j.

Definition one_hotb (M : matrix) : bool :=
  forall_lt (nrows M) (fun t =>
    exists_lt (ncols M) (fun j =>
      forall_lt (ncols M) (fun j' => Qeq_bool (entry M t j') (delta j j')))).

(** Every column of [M] is hit by some row: no word has a zero count. *)
Definition every_word_seen (M : matrix) : Prop :=
  forall j, (j < ncols M)%nat -> exists t, (t < nrows M)%nat /\ entry M t j == 1.

Definition every_word_seenb (M : matrix) : bool :=
  forall_lt (ncols M) (fun j =>
    exists_lt (nrows M) (fun t => Qeq_bool (entry M t j) 1)).

(** The number of windows whose word is the one of column [j]. *)
Definition marginal_count (M : matrix) (j : nat) : Q :=
  qsum (nrows M) (fun t => entry M t j).

(** ** Windower *)

Definition symbol : Type := nat.
Definition word : Type := list symbol.

(** [np.arange(a, b)] *)
Definition arange (a b : nat) : list nat := seq a (b - a).

(** The [take] argument of [OneHotRKHS]: the positions of a window that
    one factor of the product space reads. *)
Definition take (idx : list nat) (w : list symbol) : word :=
  map (fun i => nth i w O) idx.

(** [past_onehot = OneHotRKHS(take = np.arange(L+1))] *)
Definition Past (L : nat) (w : list symbol) : word :=
  take (arange 0 (L + 1)) w.

(** [fut_onehot = OneHotRKHS(take = np.arange(L+1, 2*L+1))] *)
Definition Future (L : nat) (w : list symbol) : word :=
  take (arange (L + 1) (2 * L + 1)) w.

Definition window_at (X : list symbol) (width t : nat) : list symbol :=
  firstn width (skipn t X).

(** Modelled from the spec: the sliding window of [ConvolutionalRKHS]
    (library [ruckus], not part of the sources), configured in the notebook
    with [window_shape = (2*L+1,)].  Section 4.1 of the specification:
    unit stride, no padding, [N - 2L] windows at offsets [0 .. N-2L-1],
    and [InvalidWindowError] when [N <= 2L]. *)
Definition Windower (X : list symbol) (L : nat) : result (list (list symbol)) :=
  let N := length X in
  if (N <=? 2 * L)%nat then Raise InvalidWindowError
  else Ok (map (window_at X (2 * L + 1)) (seq 0 (N - 2 * L))).

(** ** One-hot encoder *)

Definition word_eqb (a b : word) : bool :=
  if list_eq_dec Nat.eq_dec a b then true else false.

Fixpoint index_of (w : word) (alphabet : list word) : option nat :=
  match alphabet with
  | [] => None
  | a :: rest =>
      if word_eqb w a then Some O
      else match index_of w rest with
           | Some i => Some (S i)
           | None => None
           end
  end.

Fixpoint fit_from (seen : list word) (ws : list word) : list word :=
  match ws with
  | [] => seen
  | w :: rest =>
      match index_of w seen with
      | Some _ => fit_from seen rest
      | None => fit_from (seen ++ [w]) rest
      end
  end.

(** Modelled from the spec: [OneHotRKHS.fit] (library [ruckus], not part of
    the sources).  Section 4.2: the distinct sub-words in first-seen order,
    frozen as the alphabet. *)
Definition OneHot_fit (ws : list word) : list word := fit_from [] ws.

(** Modelled from the spec: [OneHotRKHS.transform] (library [ruckus], not
    part of the sources).  Sections 3 and 4.2: row [t] is the indicator of
    the alphabet index of the [t]-th sub-word; a sub-word outside the
    alphabet raises [UnknownSymbolError]. *)
Definition OneHot_transform (alphabet : list word) (ws : list word) : result matrix :=
  if forallb (fun w => match index_of w alphabet with Some _ => true | None => false end) ws
  then Ok (mkMat (length ws) (length alphabet)
             (fun t j => match index_of (nth t ws []) alphabet with
                         | Some i => delta i j
                         | None => 0
                         end))
  else Raise UnknownSymbolError.

(** [conv_net.fit(X)] followed by
    [past_vecs = past_onehot.transform(past_onehot.X_fit_)] and
    [fut_vecs = fut_onehot.transform(fut_onehot.X_fit_)]: both encoders are
    fitted on, and then applied to, the sub-words of the same windows. *)
Definition feature_matrices (X : list symbol) (L : nat) : result (matrix * matrix) :=
  ws <- Windower X L ;;
  let pasts := map (Past L) ws in
  let futures := map (Future L) ws in
  past_vecs <- OneHot_transform (OneHot_fit pasts) pasts ;;
  fut_vecs <- OneHot_transform (OneHot_fit futures) futures ;;
  Ok (past_vecs, fut_vecs).

(** ** Counting with one-hot vectors *)

(** [joint_counts = past_vecs.T @ fut_vecs] *)
Definition joint_counts (past_vecs fut_vecs : matrix) : result matrix :=
  matmul (transpose past_vecs) fut_vecs.

(** [p_counts = joint_counts.sum(axis=1)]
    [morphs = np.diag(p_counts**(-1)) @ joint_counts] *)
Definition morphs (past_vecs fut_vecs : matrix) : result matrix :=
  jc <- joint_counts past_vecs fut_vecs ;;
  let p_counts := sum_axis1 jc in
  matmul (diag (vpow_neg1 p_counts)) jc.

(** *** The division route in floating point

    A [float64] value as far as a division by zero is concerned: an exact
    rational, a signed infinity, or nan.  Rounding, overflow and the sign
    of zero are not modelled; the counts are sums of products of zeros and
    ones, so that a zero count is [+0.0]. *)
Inductive float64 : Type :=
| Finite (q : Q)
| Inf (negative : bool)
| NaN.

Definition Qnegative (q : Q) : bool := (Qnum q <? 0)%Z.

Definition fadd (x y : float64) : float64 :=
  match x, y with
  | NaN, _ | _, NaN => NaN
  | Finite p, Finite q => Finite (p + q)
  | Inf a, Inf b => if Bool.eqb a b then Inf a else NaN
  | Inf a, Finite _ | Finite _, Inf a => Inf a
  end.

Definition fmul (x y : float64) : float64 :=
  match x, y with
  | NaN, _ | _, NaN => NaN
  | Finite p, Finite q => Finite (p * q)
  | Inf a, Inf b => Inf (xorb a b)
  | Inf a, Finite q | Finite q, Inf a =>
      if Qeq_bool q 0 then NaN else Inf (xorb a (Qnegative q))
  end.

(** [x ** (-1)]: numpy evaluates [0.0 ** (-1)] to [inf] with a
    RuntimeWarning, and raises nothing. *)
Definition fpow_neg1 (x : float64) : float64 :=
  match x with
  | Finite q => if Qeq_bool q 0 then Inf false else Finite (/ q)
  | Inf _ => Finite 0
  | NaN => NaN
  end.

Fixpoint fsum (n : nat) (f : nat -> float64) : float64 :=
  match n with
  | O => Finite 0
  | S m => fadd (fsum m f) (f m)
  end.

Record fvector : Type := mkFVec { fvlen : nat; fvget : nat -> float64 }.

Record fmatrix : Type :=
  mkFMat { fnrows : nat; fncols : nat; fentry : nat -> nat -> float64 }.

(** An array of exact values as an array of floats. *)
Definition of_exact (M : matrix) : fmatrix :=
  mkFMat (nrows M) (ncols M) (fun i j => Finite (entry M i j)).

(** [v**(-1)], elementwise, on an array of floats (on an array of integers
    numpy refuses a negative power whatever the entries, so that the
    notebook's cell can only run on floats). *)
Definition fvpow_neg1 (v : vector) : fvector :=
  mkFVec (vlen v) (fun i => fpow_neg1 (Finite (vget v i))).

(** [np.diag(v)] *)
Definition fdiag (v : fvector) : fmatrix :=
  mkFMat (fvlen v) (fvlen v)
    (fun i j => if Nat.eqb i j then fvget v i else Finite 0).

(** [A @ B] *)
Definition fmatmul (A B : fmatrix) : result fmatrix :=
  if Nat.eqb (fncols A) (fnrows B)
  then Ok (mkFMat (fnrows A) (fncols B)
             (fun i j => fsum (fncols A)
                           (fun l => fmul (fentry A i l) (fentry B l j))))
  else Raise ValueError.

(** [p_counts = joint_counts.sum(axis=1)]
    [morphs = np.diag(p_counts**(-1)) @ joint_counts]
    with the values that [float64] gives to a division by zero. *)
Definition morphs_float64 (past_vecs fut_vecs : matrix) : result fmatrix :=
  jc <- joint_counts past_vecs fut_vecs ;;
  let p_counts := sum_axis1 jc in
  fmatmul (fdiag (fvpow_neg1 p_counts)) (of_exact jc).

Definition fto_rows (M : fmatrix) : list (list float64) :=
  map (fun i =>
         map (fun j => match fentry M i j with
                       | Finite q => Finite (Qred q)
                       | x => x
                       end)
             (seq 0 (fncols M)))
      (seq 0 (fnrows M)).

(** The value of [past_vecs.T @ past_vecs] (the product of a matrix with
    its own transpose is always well-shaped). *)
Definition gram (M : matrix) : matrix :=
  mkMat (ncols M) (ncols M)
    (fun i j => qsum (nrows M) (fun l => entry M l i * entry M l j)).

(** The number of windows with past word [i] and future word [j]: the
    entries of [past_vecs.T @ fut_vecs]. *)
Definition jcount (P F : matrix) (i j : nat) : Q :=
  qsum (nrows P) (fun t => entry P t i * entry F t j).

(** The table of conditional frequencies: joint count over marginal count. *)
Definition conditional_frequency (P F : matrix) : matrix :=
  mkMat (ncols P) (ncols F)
    (fun i j => jcount P F i j / marginal_count P i).

(** [N] is a two-sided inverse of [M]. *)
Definition is_inverse (M N : matrix) : Prop :=
  nrows N = nrows M /\ ncols N = nrows M /\
  forall i j, (i < nrows M)%nat -> (j < nrows M)%nat ->
    qsum (nrows M) (fun l => entry N i l * entry M l j) == delta i j /\
    qsum (nrows M) (fun l => entry M i l * entry N l j) == delta i j.

Definition is_inverseb (M N : matrix) : bool :=
  Nat.eqb (nrows N) (nrows M) && Nat.eqb (ncols N) (nrows M) &&
  forall_lt (nrows M) (fun i => forall_lt (nrows M) (fun j =>
    Qeq_bool (qsum (nrows M) (fun l => entry N i l * entry M l j)) (delta i j) &&
    Qeq_bool (qsum (nrows M) (fun l => entry M i l * entry N l j)) (delta i j))).

(** The contract of [scipy.linalg.inv] at a square argument [M]: it returns
    the inverse of [M], or raises [LinAlgError] when [M] has none. *)
Definition inv_contract (inv : matrix -> result matrix) (M : matrix) : Prop :=
  match inv M with
  | Ok N => is_inverse M N
  | Raise e => e = LinAlgError /\ forall N, ~ is_inverse M N
  end.

(** [past_squared = past_vecs.T @ past_vecs]
    [new_morphs = inv(past_squared) @ joint_counts] *)
Definition new_morphs (inv : matrix -> result matrix)
    (past_vecs fut_vecs : matrix) : result matrix :=
  jc <- joint_counts past_vecs fut_vecs ;;
  past_squared <- matmul (transpose past_vecs) past_vecs ;;
  ips <- inv past_squared ;;
  matmul ips jc.

(** ** The regression route *)

(** The squared residual [|| Y - X @ A ||^2] of a coefficient matrix [A]. *)
Definition sq_loss (X Y A : matrix) : Q :=
  qsum (nrows Y) (fun t =>
    qsum (ncols Y) (fun j =>
      (entry Y t j - qsum (ncols X) (fun l => entry X t l * entry A l j)) ^ 2)).

(** [A] solves [argmin_A || Y - X @ A ||^2], the problem that
    [LinearRegression(fit_intercept=False)] is specified to solve. *)
Definition is_least_squares (X Y A : matrix) : Prop :=
  nrows A = ncols X /\ ncols A = ncols Y /\
  forall B, nrows B = ncols X -> ncols B = ncols Y ->
    sq_loss X Y A <= sq_loss X Y B.

(** On one-hot past features the loss splits into a part that does not
    depend on the coefficients and a quadratic in the coefficients whose
    weights are the marginal and joint counts. *)
Definition loss_const (F : matrix) : Q :=
  qsum (nrows F) (fun t => qsum (ncols F) (fun j => entry F t j ^ 2)).

Definition loss_quad (P F B : matrix) : Q :=
  qsum (ncols P) (fun l => qsum (ncols F) (fun j =>
    marginal_count P l * entry B l j ^ 2 - 2 * jcount P F l j * entry B l j)).

(** The contract of [LinearRegression(fit_intercept=False).fit(X, Y)]:
    it succeeds, and the transpose of its [coef_] solves the least-squares
    problem. *)
Definition lstsq_contract (LinearRegression_fit : matrix -> matrix -> result matrix)
    (X Y : matrix) : Prop :=
  exists coef_, LinearRegression_fit X Y = Ok coef_ /\
                is_least_squares X Y (transpose coef_).

(** Modelled from the spec: [ProductRKHS.conditional] (library [ruckus],
    not part of the sources), called in the notebook as
    [prod_space.conditional([0],[1],regressor=regressor)] and followed by
    [regressor.coef_.T].  Section 4.3: the predictor block is the regression
    input, the response block the target, and the work is delegated to
    [regressor.fit]. *)
Definition conditional (LinearRegression_fit : matrix -> matrix -> result matrix)
    (past_vecs fut_vecs : matrix) : result matrix :=
  coef_ <- LinearRegression_fit past_vecs fut_vecs ;;
  Ok (transpose coef_).

(** ** Singular value decomposition and the rank bottleneck *)

Definition orthonormal_cols (U : matrix) : Prop :=
  forall a b, (a < ncols U)%nat -> (b < ncols U)%nat ->
    qsum (nrows U) (fun i => entry U i a * entry U i b) == delta a b.

Definition orthonormal_rows (V : matrix) : Prop :=
  forall a b, (a < nrows V)%nat -> (b < nrows V)%nat ->
    qsum (ncols V) (fun j => entry V a j * entry V b j) == delta a b.

(** The shapes of [U, s, VT = scipy.linalg.svd(C)] (full matrices): [U] is
    rows x rows, [VT] is cols x cols, and [s] holds [min(rows, cols)]
    values.  This is all that [SVDRegressor.fit] needs of the routine in
    order to run. *)
Definition svd_shapes (C U : matrix) (s : vector) (VT : matrix) : Prop :=
  nrows U = nrows C /\ ncols U = nrows C /\
  nrows VT = ncols C /\ ncols VT = ncols C /\
  vlen s = Nat.min (nrows C) (ncols C).

(** The factors multiply back to [C]: [C = U[:, :K] @ diag(s) @ VT[:K]]
    with [K = min(rows, cols)]. *)
Definition svd_reconstructs (C U : matrix) (s : vector) (VT : matrix) : Prop :=
  forall i j, (i < nrows C)%nat -> (j < ncols C)%nat ->
    entry C i j ==
    qsum (vlen s) (fun l => entry U i l * vget s l * entry VT l j).

(** The full contract of [scipy.linalg.svd] on rational arrays: [U] and
    [VT] are square with orthonormal columns and rows, [s] holds the
    [min(rows, cols)] singular values, non-negative and in non-increasing
    order, and [C = U[:, :K] @ diag(s) @ VT[:K]].  Singular values and
    vectors are irrational in general, so that only special matrices have
    such factors with rational entries: the predicate describes the
    concrete instances below, the results on [fit] assume [svd_shapes]
    only, and the results that rest on orthonormality are stated on real
    arrays ([RealArrays.is_svd]). *)
Record is_svd (C U : matrix) (s : vector) (VT : matrix) : Prop := mk_is_svd {
  svd_U_rows : nrows U = nrows C;
  svd_U_cols : ncols U = nrows C;
  svd_VT_rows : nrows VT = ncols C;
  svd_VT_cols : ncols VT = ncols C;
  svd_s_len : vlen s = Nat.min (nrows C) (ncols C);
  svd_U_orth : orthonormal_cols U;
  svd_VT_orth : orthonormal_rows VT;
  svd_s_nonneg : forall l, (l < vlen s)%nat -> 0 <= vget s l;
  svd_s_sorted : forall l l', (l <= l')%nat -> (l' < vlen s)%nat ->
                   vget s l' <= vget s l;
  svd_recon : forall i j, (i < nrows C)%nat -> (j < ncols C)%nat ->
                entry C i j ==
                qsum (vlen s) (fun l => entry U i l * vget s l * entry VT l j)
}.

Definition svd_reconstructsb (C U : matrix) (s : vector) (VT : matrix) : bool :=
  forall_lt (nrows C) (fun i => forall_lt (ncols C) (fun j =>
    Qeq_bool (entry C i j)
      (qsum (vlen s) (fun l => entry U i l * vget s l * entry VT l j)))).

Definition orthonormal_colsb (U : matrix) : bool :=
  forall_lt (ncols U) (fun a => forall_lt (ncols U) (fun b =>
    Qeq_bool (qsum (nrows U) (fun i => entry U i a * entry U i b)) (delta a b))).

Definition orthonormal_rowsb (V : matrix) : bool :=
  forall_lt (nrows V) (fun a => forall_lt (nrows V) (fun b =>
    Qeq_bool (qsum (ncols V) (fun j => entry V a j * entry V b j)) (delta a b))).

Definition is_svdb (C U : matrix) (s : vector) (VT : matrix) : bool :=
  Nat.eqb (nrows U) (nrows C) && Nat.eqb (ncols U) (nrows C) &&
  Nat.eqb (nrows VT) (ncols C) && Nat.eqb (ncols VT) (ncols C) &&
  Nat.eqb (vlen s) (Nat.min (nrows C) (ncols C)) &&
  orthonormal_colsb U && orthonormal_rowsb VT &&
  forall_lt (vlen s) (fun l => Qle_bool 0 (vget s l)) &&
  forall_lt (vlen s) (fun l' => forall_lt (S l') (fun l =>
    Qle_bool (vget s l') (vget s l))) &&
  forall_lt (nrows C) (fun i => forall_lt (ncols C) (fun j =>
    Qeq_bool (entry C i j)
      (qsum (vlen s) (fun l => entry U i l * vget s l * entry VT l j)))).

(** [U[:,:self.n_components] @ np.diag(s[:self.n_components])
      @ (VT[:self.n_components])] *)
Definition bottleneck (U : matrix) (s : vector) (VT : matrix)
    (n_components : Z) : result matrix :=
  Us <- matmul (cols_upto n_components U) (diag (vec_upto n_components s)) ;;
  matmul Us (rows_upto n_components VT).

(** The sum of the [k] leading rank-one terms of a decomposition. *)
Definition rank_k_sum (U : matrix) (s : vector) (VT : matrix) (k : nat) : matrix :=
  mkMat (nrows U) (ncols VT)
    (fun i j => qsum k (fun l => entry U i l * vget s l * entry VT l j)).

(** [M] has rank at most [k]: it factors through [k] dimensions. *)
Definition low_rank (M : matrix) (k : nat) : Prop :=
  exists X Y : matrix,
    forall i j, (i < nrows M)%nat -> (j < ncols M)%nat ->
      entry M i j == qsum k (fun m => entry X i m * entry Y m j).

(** Indices with one position left out, for sums that set a row apart. *)
Definition skip (p l : nat) : nat := if (l <? p)%nat then l else S l.

Definition unskip (p l : nat) : nat := if (l <? p)%nat then l else Nat.pred l.

(** A fitted [SVDRegressor]: the attributes that [fit] sets. *)
Record SVDRegressor : Type := mkSVDRegressor {
  n_components : Z;
  regressor_coef_ : matrix;
  bottleneck_ : matrix
}.

Definition svd_result : Type := (matrix * vector * matrix)%type.

(** [SVDRegressor.fit]. *)
Definition SVDRegressor_fit
    (LinearRegression_fit : matrix -> matrix -> result matrix)
    (svd : matrix -> result svd_result)
    (k : Z) (X y : matrix) : result SVDRegressor :=
  coef_ <- LinearRegression_fit X y ;;
  usv <- svd (transpose coef_) ;;
  let '(U, s, VT) := usv in
  b <- bottleneck U s VT k ;;
  Ok (mkSVDRegressor k coef_ b).

(** [SVDRegressor.predict]. *)
Definition SVDRegressor_predict (self : SVDRegressor) (X : matrix) : result matrix :=
  matmul X (bottleneck_ self).

(** ** Real arrays *)

(** Singular values and singular vectors are irrational in general: the
    conditional table [[3/4, 1/4], [1/4, 3/4]] has the singular vectors
    [(1, 1) / sqrt 2] and [(1, -1) / sqrt 2], and the table [[1/2, 1/2]]
    the singular value [sqrt 2 / 2].  The decomposition and the product of
    its slices are therefore modelled on arrays of real numbers as well,
    with the operations of the rational arrays; every real matrix has a
    decomposition that meets [is_svd]. *)
Module RealArrays.
Local Open Scope R_scope.

Fixpoint rsum (n : nat) (f : nat -> R) : R :=
  match n with
  | O => 0
  | S m => rsum m f + f m
  end.

Definition delta (i j : nat) : R := if Nat.eqb i j then 1 else 0.

Record vector : Type := mkVec { vlen : nat; vget : nat -> R }.

Record matrix : Type := mkMat { nrows : nat; ncols : nat; entry : nat -> nat -> R }.

Definition of_rows (r c : nat) (l : list (list R)) : matrix :=
  mkMat r c (fun i j => nth j (nth i l []) 0).

Definition of_list (l : list R) : vector :=
  mkVec (length l) (fun i => nth i l 0).

Definition mx_eq (A B : matrix) : Prop :=
  nrows A = nrows B /\ ncols A = ncols B /\
  forall i j, (i < nrows A)%nat -> (j < ncols A)%nat -> entry A i j = entry B i j.

(** [np.allclose]-style comparison with an absolute tolerance. *)
Definition within_tol (eps : R) (A B : matrix) : Prop :=
  nrows A = nrows B /\ ncols A = ncols B /\
  forall i j, (i < nrows A)%nat -> (j < ncols A)%nat ->
    Rabs (entry A i j - entry B i j) <= eps.

(** [A @ B]: numpy raises [ValueError] when the inner dimensions differ. *)
Definition matmul (A B : matrix) : result matrix :=
  if Nat.eqb (ncols A) (nrows B)
  then Ok (mkMat (nrows A) (ncols B)
             (fun i j => rsum (ncols A) (fun l => entry A i l * entry B l j)))
  else Raise ValueError.

(** [np.diag(v)] for a one-dimensional [v]. *)
Definition diag (v : vector) : matrix :=
  mkMat (vlen v) (vlen v) (fun i j => if Nat.eqb i j then vget v i else 0).

(** [s[:k]] *)
Definition vec_upto (k : Z) (v : vector) : vector :=
  mkVec (slice_stop (vlen v) k) (vget v).

(** [M[:k]] *)
Definition rows_upto (k : Z) (M : matrix) : matrix :=
  mkMat (slice_stop (nrows M) k) (ncols M) (entry M).

(** [M[:, :k]] *)
Definition cols_upto (k : Z) (M : matrix) : matrix :=
  mkMat (nrows M) (slice_stop (ncols M) k) (entry M).

(** [U[:,:self.n_components] @ np.diag(s[:self.n_components])
      @ (VT[:self.n_components])] *)
Definition bottleneck (U : matrix) (s : vector) (VT : matrix)
    (n_components : Z) : result matrix :=
  Us <- matmul (cols_upto n_components U) (diag (vec_upto n_components s)) ;;
  matmul Us (rows_upto n_components VT).

Definition orthonormal_cols (U : matrix) : Prop :=
  forall a b, (a < ncols U)%nat -> (b < ncols U)%nat ->
    rsum (nrows U) (fun i => entry U i a * entry U i b) = delta a b.

Definition orthonormal_rows (V : matrix) : Prop :=
  forall a b, (a < nrows V)%nat -> (b < nrows V)%nat ->
    rsum (ncols V) (fun j => entry V a j * entry V b j) = delta a b.

(** The contract of [U, s, VT = scipy.linalg.svd(C)] (full matrices): [U]
    and [VT] are square with orthonormal columns and rows, [s] holds the
    [min(rows, cols)] singular values, non-negative and in non-increasing
    order, and [C = U[:, :K] @ diag(s) @ VT[:K]]. *)
Record is_svd (C U : matrix) (s : vector) (VT : matrix) : Prop := mk_is_svd {
  svd_U_rows : nrows U = nrows C;
  svd_U_cols : ncols U = nrows C;
  svd_VT_rows : nrows VT = ncols C;
  svd_VT_cols : ncols VT = ncols C;
  svd_s_len : vlen s = Nat.min (nrows C) (ncols C);
  svd_U_orth : orthonormal_cols U;
  svd_VT_orth : orthonormal_rows VT;
  svd_s_nonneg : forall l, (l < vlen s)%nat -> 0 <= vget s l;
  svd_s_sorted : forall l l', (l <= l')%nat -> (l' < vlen s)%nat ->
                   vget s l' <= vget s l;
  svd_recon : forall i j, (i < nrows C)%nat -> (j < ncols C)%nat ->
                entry C i j =
                rsum (vlen s) (fun l => entry U i l * vget s l * entry VT l j)
}.

(** [M] has rank at most [k]: it factors through [k] dimensions. *)
Definition low_rank (M : matrix) (k : nat) : Prop :=
  exists X Y : matrix,
    forall i j, (i < nrows M)%nat -> (j < ncols M)%nat ->
      entry M i j = rsum k (fun m => entry X i m * entry Y m j).

(** The squared Frobenius distance between two arrays of the shape of [A]. *)
Definition sq_dist (A B : matrix) : R :=
  rsum (nrows A) (fun i =>
    rsum (ncols A) (fun j => (entry A i j - entry B i j) ^ 2)).

(** The sum of the squares of the singular values from position [k] on. *)
Definition tail_energy (s : vector) (k : nat) : R :=
  rsum (vlen s - k) (fun l => vget s (k + l) ^ 2).

(** The singular values with all but the [k] leading ones set to zero. *)
Definition leading (k : nat) (s : vector) : vector :=
  mkVec (vlen s) (fun l => if (l <? k)%nat then vget s l else 0).

(** The symmetric table [[3/4, 1/4], [1/4, 3/4]]: its singular values are
    1 and 1/2, its singular vectors [(1, 1) / sqrt 2] and
    [(1, -1) / sqrt 2]. *)
Definition half_sqrt2 : R := sqrt 2 / 2.

Definition symmetric_C : matrix :=
  of_rows 2 2 [[3 / 4; 1 / 4]; [1 / 4; 3 / 4]].

Definition symmetric_U : matrix :=
  of_rows 2 2 [[half_sqrt2; half_sqrt2]; [half_sqrt2; - half_sqrt2]].

Definition symmetric_s : vector := of_list [1; 1 / 2].

Definition symmetric_VT : matrix :=
  of_rows 2 2 [[half_sqrt2; half_sqrt2]; [half_sqrt2; - half_sqrt2]].

(** Its truncation at rank 1. *)
Definition uniform_C : matrix :=
  of_rows 2 2 [[1 / 2; 1 / 2]; [1 / 2; 1 / 2]].

(** The table [[1/2, 1/2]] of a single past word, with singular value
    [sqrt 2 / 2]. *)
Definition coin_C : matrix := of_rows 1 2 [[1 / 2; 1 / 2]].

Definition coin_U : matrix := of_rows 1 1 [[1]].

Definition coin_s : vector := of_list [half_sqrt2].

Definition coin_VT : matrix :=
  of_rows 2 2 [[half_sqrt2; half_sqrt2]; [- half_sqrt2; half_sqrt2]].

End RealArrays.

(** A rational array as a real array. *)
Definition to_real (M : matrix) : RealArrays.matrix :=
  RealArrays.mkMat (nrows M) (ncols M) (fun i j => Q2R (entry M i j)).

(** The squared residual [|| Y - X @ A ||^2] of real coefficients [A] on
    rational data. *)
Definition real_sq_loss (X Y : matrix) (A : RealArrays.matrix) : R :=
  RealArrays.rsum (nrows Y) (fun t =>
    RealArrays.rsum (ncols Y) (fun j =>
      (Q2R (entry Y t j)
       - RealArrays.rsum (ncols X)
           (fun l => Q2R (entry X t l) * RealArrays.entry A l j)) ^ 2)%R).

(** ** Cross-validation *)

Fixpoint traverse {A B : Type} (f : A -> result B) (l : list A) : result (list B) :=
  match l with
  | [] => Ok []
  | a :: rest =>
      b <- f a ;;
      bs <- traverse f rest ;;
      Ok (b :: bs)
  end.

Definition inject_nat (n : nat) : Q := inject_Z (Z.of_nat n).

Definition list_sum_Q (l : list Q) : Q := fold_right Qplus 0 l.

Definition mean (l : list Q) : Q := list_sum_Q l / inject_nat (length l).

(** The population variance ([ddof = 0]); [np.std] is its square root. *)
Definition variance (l : list Q) : Q :=
  mean (map (fun x => (x - mean l) ^ 2) l).

(** Mean squared error between two arrays of the shape of [Y]. *)
Definition mse (Y P : matrix) : Q :=
  qsum (nrows Y) (fun t =>
    qsum (ncols Y) (fun j => (entry Y t j - entry P t j) ^ 2))
  / inject_nat (nrows Y * ncols Y).

(** Modelled from the spec: the unshuffled k-fold split that
    [GridSearchCV(cv = F)] (library scikit-learn, not part of the sources)
    performs on [n] rows.  Section 4.6: standard k-fold splitting by row
    index; the first [n mod F] folds hold one row more. *)
Definition fold_size (n F i : nat) : nat :=
  n / F + (if (i <? n mod F)%nat then 1 else 0).

Fixpoint fold_start (n F i : nat) : nat :=
  match i with
  | O => O
  | S i' => fold_start n F i' + fold_size n F i'
  end.

Definition held_out (n F i : nat) : list nat :=
  seq (fold_start n F i) (fold_size n F i).

Definition training (n F i : nat) : list nat :=
  filter (fun t => negb (existsb (Nat.eqb t) (held_out n F i))) (seq 0 n).

(** Modelled from the spec: the loss of one fold (the scoring of
    [ConditionalMapWrapper], library [ruckus], not part of the sources).
    Section 4.6: fit the estimator and the rank-[k] bottleneck on the
    training rows; the loss is the mean squared error between the held-out
    future rows and held-out past rows times the bottleneck. *)
Definition fold_loss
    (LinearRegression_fit : matrix -> matrix -> result matrix)
    (svd : matrix -> result svd_result)
    (PhiP PhiF : matrix) (F : nat) (k : Z) (i : nat) : result Q :=
  let tr := training (nrows PhiP) F i in
  let ho := held_out (nrows PhiP) F i in
  fitted <- SVDRegressor_fit LinearRegression_fit svd k
              (take_rows tr PhiP) (take_rows tr PhiF) ;;
  pred <- SVDRegressor_predict fitted (take_rows ho PhiP) ;;
  Ok (mse (take_rows ho PhiF) pred).

(** The standard deviation ([np.std], [ddof = 0]): the square root of the
    population variance.  It is irrational in general, hence a real
    number. *)
Definition std (l : list Q) : R := sqrt (Q2R (variance l)).

(** Modelled from the spec: one row of the CVResult table.  Section 3:
    for each candidate rank, the mean and the standard deviation of the
    held-out loss across the folds. *)
Record CVResult : Type := mkCVResult {
  cv_rank : Z;
  mean_loss : Q;
  std_loss : R
}.

(** The losses of the [F] folds for one candidate rank. *)
Definition fold_losses
    (LinearRegression_fit : matrix -> matrix -> result matrix)
    (svd : matrix -> result svd_result)
    (PhiP PhiF : matrix) (F : nat) (k : Z) : result (list Q) :=
  traverse (fold_loss LinearRegression_fit svd PhiP PhiF F k) (seq 0 F).

(** Modelled from the spec: [GridSearchCV(..., cv = F).fit] over the grid
    of candidate ranks.  Section 4.6: for each rank, the losses of the [F]
    folds are aggregated into their mean and standard deviation; section
    7: the failure of a fold aborts the run.  A k-fold split needs at
    least two folds and at least one row per fold; any other fold count is
    refused (scikit-learn raises [ValueError]). *)
Definition GridSearchCV
    (LinearRegression_fit : matrix -> matrix -> result matrix)
    (svd : matrix -> result svd_result)
    (PhiP PhiF : matrix) (F : nat) (components_grid : list Z)
    : result (list CVResult) :=
  if ((F <? 2)%nat || (nrows PhiP <? F)%nat)%bool then Raise ValueError
  else
    traverse (fun k =>
                losses <- fold_losses LinearRegression_fit svd PhiP PhiF F k ;;
                Ok (mkCVResult k (mean losses) (std losses)))
             components_grid.

(** ** Small instances *)

(** Four windows over two past words and two future words. *)
Definition example_P : matrix :=
  of_rows 4 2 [[1; 0]; [1; 0]; [0; 1]; [1; 0]].

Definition example_F : matrix :=
  of_rows 4 2 [[1; 0]; [0; 1]; [0; 1]; [1; 0]].

(** Two windows, and an alphabet whose second past word never occurs. *)
Definition unseen_P : matrix := of_rows 2 2 [[1; 0]; [1; 0]].

Definition unseen_F : matrix := of_rows 2 1 [[1]; [1]].

(** An inversion routine that is exact on diagonal matrices with a
    non-zero diagonal, and one that always reports a singular matrix. *)
Definition diagonal_inv (M : matrix) : result matrix :=
  Ok (mkMat (nrows M) (nrows M) (fun i j => delta i j / entry M i i)).

Definition failing_inv (M : matrix) : result matrix := Raise LinAlgError.

(** A regression routine that returns the conditional frequencies. *)
Definition frequency_fit (X Y : matrix) : result matrix :=
  Ok (transpose (conditional_frequency X Y)).

(** Two windows with distinct past words and a single future column: the
    coefficient matrix is the 2 x 1 column [(1, 0)], with singular value 1. *)
Definition column_X : matrix := eye 2.

Definition column_y : matrix := of_rows 2 1 [[1]; [0]].

Definition column_svd (C : matrix) : result svd_result :=
  Ok (eye 2, of_list [1], eye 1).

(** One window, one past word, one future word: the coefficient matrix is
    the 1 x 1 matrix [(1)]. *)
Definition unit_X : matrix := eye 1.

Definition unit_svd (C : matrix) : result svd_result :=
  Ok (eye 1, of_list [1], eye 1).

(** A 2 x 2 matrix with singular values 10 and 5 between two rotations. *)
Definition rotated_U : matrix :=
  of_rows 2 2 [[3 # 5; -4 # 5]; [4 # 5; 3 # 5]].

Definition rotated_s : vector := of_list [10; 5].

Definition rotated_VT : matrix :=
  of_rows 2 2 [[4 # 5; 3 # 5]; [-3 # 5; 4 # 5]].

Definition rotated_C : matrix :=
  of_rows 2 2 [[36 # 5; 2 # 5]; [23 # 5; 36 # 5]].

(** Four windows for a run with two folds: each fold trains on two windows
    that show both past words. *)
Definition cv_P : matrix := of_rows 4 2 [[1; 0]; [0; 1]; [1; 0]; [0; 1]].

Definition cv_F : matrix := of_rows 4 2 [[1; 0]; [0; 1]; [0; 1]; [1; 0]].

(** Eight windows whose conditional table is [[3/4, 1/4], [1/4, 3/4]]. *)
Definition symmetric_P : matrix :=
  of_rows 8 2 [[1; 0]; [1; 0]; [1; 0]; [1; 0]; [0; 1]; [0; 1]; [0; 1]; [0; 1]].

Definition symmetric_F : matrix :=
  of_rows 8 2 [[1; 0]; [1; 0]; [1; 0]; [0; 1]; [1; 0]; [0; 1]; [0; 1]; [0; 1]].

(** A factorisation routine for square matrices,
    [C = I @ diag(1, ..., 1) @ C]: its factors have the shapes of a full
    SVD and multiply back to [C]; they are an SVD when [C] is
    orthogonal. *)
Definition orthogonal_svd (C : matrix) : result svd_result :=
  Ok (eye (nrows C), mkVec (nrows C) (fun _ => 1), C).


(** ** Counting windows *)

(** Row [t] of [M] marks column [j]. *)
Definition hot (M : matrix) (t j : nat) : bool := Qeq_bool (entry M t j) 1.

(** The number of rows below [n] that satisfy [p]. *)
Definition count_rows (n : nat) (p : nat -> bool) : nat :=
  length (filter p (seq 0 n)).


(** The change of the prediction for sample [t] and target [j] when the
    coefficients [A] are replaced by [B]. *)
Definition shift (X A B : matrix) (t j : nat) : Q :=
  qsum (ncols X) (fun l => entry X t l * (entry B l j - entry A l j)).

(** Features that are not one-hot: three samples, two features, one
    target, and the inverse of their Gram matrix [[2, 1], [1, 2]]. *)
Definition dense_X : matrix := of_rows 3 2 [[1; 1]; [0; 1]; [1; 0]].

Definition dense_Y : matrix := of_rows 3 1 [[1]; [2]; [3]].

Definition dense_inv (M : matrix) : result matrix :=
  Ok (of_rows 2 2 [[2 # 3; -1 # 3]; [-1 # 3; 2 # 3]]).

(** * Properties *)

(** ** Finite sums *)

Section Sums.
Local Open Scope Q_scope.

Lemma qsum_ext (n : nat) (f g : nat -> Q) :
  (forall i, (i < n)%nat -> f i == g i) -> qsum n f == qsum n g.
Proof.
  induction n as [|n IH]; intros H; simpl.
  - reflexivity.
  - rewrite IH by (intros; apply H; lia).
    rewrite (H n) by lia. reflexivity.
Qed.

Lemma qsum_zero (n : nat) (f : nat -> Q) :
  (forall i, (i < n)%nat -> f i == 0) -> qsum n f == 0.
Proof.
  induction n as [|n IH]; intros H; simpl.
  - reflexivity.
  - rewrite IH by (intros; apply H; lia).
    rewrite (H n) by lia. lra.
Qed.

Lemma qsum_plus (n : nat) (f g : nat -> Q) :
  qsum n (fun i => f i + g i) == qsum n f + qsum n g.
Proof.
  induction n as [|n IH]; simpl.
  - lra.
  - rewrite IH. lra.
Qed.

Lemma qsum_minus (n : nat) (f g : nat -> Q) :
  qsum n (fun i => f i - g i) == qsum n f - qsum n g.
Proof.
  induction n as [|n IH]; simpl.
  - lra.
  - rewrite IH. lra.
Qed.

Lemma qsum_scal_l (n : nat) (c : Q) (f : nat -> Q) :
  qsum n (fun i => c * f i) == c * qsum n f.
Proof.
  induction n as [|n IH]; simpl.
  - lra.
  - rewrite IH. ring.
Qed.

Lemma qsum_scal_r (n : nat) (c : Q) (f : nat -> Q) :
  qsum n (fun i => f i * c) == qsum n f * c.
Proof.
  induction n as [|n IH]; simpl.
  - lra.
  - rewrite IH. ring.
Qed.

Lemma qsum_swap (n m : nat) (f : nat -> nat -> Q) :
  qsum n (fun i => qsum m (fun j => f i j)) ==
  qsum m (fun j => qsum n (fun i => f i j)).
Proof.
  induction n as [|n IH]; simpl.
  - symmetry. apply qsum_zero. intros; reflexivity.
  - rewrite IH. rewrite <- qsum_plus. reflexivity.
Qed.

Lemma qsum_nonneg (n : nat) (f : nat -> Q) :
  (forall i, (i < n)%nat -> 0 <= f i) -> 0 <= qsum n f.
Proof.
  induction n as [|n IH]; intros H; simpl.
  - lra.
  - assert (0 <= qsum n f) by (apply IH; intros; apply H; lia).
    assert (0 <= f n) by (apply H; lia). lra.
Qed.

Lemma qsum_le (n : nat) (f g : nat -> Q) :
  (forall i, (i < n)%nat -> f i <= g i) -> qsum n f <= qsum n g.
Proof.
  induction n as [|n IH]; intros H; simpl.
  - lra.
  - assert (qsum n f <= qsum n g) by (apply IH; intros; apply H; lia).
    assert (f n <= g n) by (apply H; lia). lra.
Qed.

Lemma qsum_term_le (n : nat) (f : nat -> Q) (i : nat) :
  (forall l, (l < n)%nat -> 0 <= f l) -> (i < n)%nat -> f i <= qsum n f.
Proof.
  induction n as [|n IH]; intros H Hi; simpl.
  - lia.
  - assert (0 <= qsum n f) by (apply qsum_nonneg; intros; apply H; lia).
    assert (0 <= f n) by (apply H; lia).
    destruct (Nat.eq_dec i n) as [->|Hne].
    + lra.
    + assert (f i <= qsum n f) by (apply IH; [intros; apply H|]; lia). lra.
Qed.

Lemma qsum_nonneg_zero (n : nat) (f : nat -> Q) :
  (forall i, (i < n)%nat -> 0 <= f i) -> qsum n f <= 0 ->
  forall i, (i < n)%nat -> f i == 0.
Proof.
  intros H Hs i Hi.
  pose proof (qsum_term_le n f i H Hi).
  pose proof (H i Hi). lra.
Qed.

Lemma delta_refl (i : nat) : delta i i = 1.
Proof. unfold delta. now rewrite Nat.eqb_refl. Qed.

Lemma delta_neq (i j : nat) : i <> j -> delta i j = 0.
Proof. unfold delta. intros H. apply Nat.eqb_neq in H. now rewrite H. Qed.

Lemma delta_sym (i j : nat) : delta i j = delta j i.
Proof. unfold delta. now rewrite Nat.eqb_sym. Qed.

Lemma qsum_delta_l (n j : nat) (f : nat -> Q) :
  (j < n)%nat -> qsum n (fun i => delta j i * f i) == f j.
Proof.
  induction n as [|n IH]; intros Hj; simpl.
  - lia.
  - destruct (Nat.eq_dec j n) as [->|Hne].
    + rewrite delta_refl.
      rewrite qsum_zero.
      * lra.
      * intros i Hi. rewrite delta_neq by lia. lra.
    + rewrite IH by lia. rewrite delta_neq by lia. lra.
Qed.

Lemma qsum_delta_r (n j : nat) (f : nat -> Q) :
  (j < n)%nat -> qsum n (fun i => f i * delta j i) == f j.
Proof.
  intros Hj. rewrite <- (qsum_delta_l n j f Hj).
  apply qsum_ext. intros; ring.
Qed.

Lemma qsum_delta_out (n j : nat) (f : nat -> Q) :
  (n <= j)%nat -> qsum n (fun i => delta j i * f i) == 0.
Proof.
  intros Hj. apply qsum_zero. intros i Hi.
  rewrite delta_neq by lia. lra.
Qed.

Lemma qsum_const (n : nat) (c : Q) :
  qsum n (fun _ => c) == inject_nat n * c.
Proof.
  induction n as [|n IH].
  - unfold inject_nat. change (inject_Z (Z.of_nat 0)) with 0. simpl. ring.
  - simpl qsum. rewrite IH. unfold inject_nat.
    rewrite Nat2Z.inj_succ. unfold Z.succ. rewrite inject_Z_plus.
    change (inject_Z 1) with 1. ring.
Qed.

Lemma qsum_split (k n : nat) (f : nat -> Q) :
  (k <= n)%nat ->
  qsum n f == qsum k f + qsum (n - k) (fun i => f (k + i)%nat).
Proof.
  intros Hk. induction n as [|n IH].
  - assert (k = 0)%nat by lia. subst. simpl. lra.
  - destruct (Nat.eq_dec k (S n)) as [->|Hne].
    + rewrite Nat.sub_diag. simpl. lra.
    + replace (S n - k)%nat with (S (n - k)) by lia.
      simpl. rewrite IH by lia.
      replace (k + (n - k))%nat with n by lia. lra.
Qed.

Lemma qsum_mul (n m : nat) (f g : nat -> Q) :
  qsum n f * qsum m g == qsum n (fun i => qsum m (fun j => f i * g j)).
Proof.
  rewrite <- qsum_scal_r. apply qsum_ext. intros i _.
  rewrite qsum_scal_l. reflexivity.
Qed.

Lemma sq_nonneg (z : Q) : 0 <= z ^ 2.
Proof.
  assert (E : z ^ 2 == z * z) by ring. rewrite E.
  destruct (Qlt_le_dec z 0) as [Hn|Hp].
  - setoid_replace (z * z) with ((- z) * (- z)) by ring.
    apply Qmult_le_0_compat; lra.
  - apply Qmult_le_0_compat; lra.
Qed.

Lemma sq_zero (z : Q) : z ^ 2 <= 0 -> z == 0.
Proof.
  intros H. assert (E : z ^ 2 == z * z) by ring. rewrite E in H.
  destruct (Qlt_le_dec z 0) as [Hn|Hp].
  - assert (0 < (- z) * (- z)) by (apply Qmult_lt_0_compat; lra).
    setoid_replace (z * z) with ((- z) * (- z)) in H by ring. lra.
  - destruct (Qlt_le_dec 0 z) as [Hpos|Hz]; [|lra].
    assert (0 < z * z) by (apply Qmult_lt_0_compat; lra). lra.
Qed.

Lemma scaled_sq_nonneg (c x y : Q) : 1 <= c -> 0 <= c * (x - y) ^ 2.
Proof. intros. apply Qmult_le_0_compat; [lra|apply sq_nonneg]. Qed.

Lemma scaled_sq_zero (c x y : Q) : 1 <= c -> c * (x - y) ^ 2 <= 0 -> x == y.
Proof.
  intros Hc H. pose proof (sq_nonneg (x - y)) as Hs.
  assert (Hz : (x - y) ^ 2 <= 0).
  { destruct (Qlt_le_dec 0 ((x - y) ^ 2)) as [Hpos|Hle]; [|exact Hle].
    assert (0 < c * (x - y) ^ 2) by (apply Qmult_lt_0_compat; lra). lra. }
  apply sq_zero in Hz. lra.
Qed.

End Sums.

(** ** Windows *)

Lemma skipn_nth_cons {A : Type} (d : A) (l : list A) (a : nat) :
  (a < length l)%nat -> skipn a l = nth a l d :: skipn (S a) l.
Proof.
  revert a. induction l as [|x l IH]; intros a Ha.
  - simpl in Ha. lia.
  - destruct a as [|a]; [reflexivity|].
    simpl in Ha. change (skipn a l = nth a l d :: skipn (S a) l).
    apply IH. lia.
Qed.

Lemma take_seq (w : list symbol) (n a : nat) :
  (a + n <= length w)%nat ->
  take (seq a n) w = firstn n (skipn a w).
Proof.
  unfold take. revert a. induction n as [|n IH]; intros a Ha.
  - reflexivity.
  - rewrite (@skipn_nth_cons symbol O w a) by lia.
    cbn [seq map firstn]. rewrite IH by lia. reflexivity.
Qed.

Lemma window_at_length (X : list symbol) (width t : nat) :
  (t + width <= length X)%nat -> length (window_at X width t) = width.
Proof.
  intros H. unfold window_at.
  rewrite length_firstn, length_skipn. lia.
Qed.

Lemma window_at_nth (X : list symbol) (width t i : nat) :
  (i < width)%nat -> nth i (window_at X width t) O = nth (t + i) X O.
Proof.
  intros Hi. unfold window_at.
  rewrite nth_firstn.
  apply Nat.ltb_lt in Hi. rewrite Hi.
  apply nth_skipn.
Qed.

Lemma Past_firstn (L : nat) (w : list symbol) :
  length w = (2 * L + 1)%nat -> Past L w = firstn (L + 1) w.
Proof.
  intros Hw. unfold Past, arange.
  rewrite Nat.sub_0_r, take_seq by lia. reflexivity.
Qed.

Lemma Future_skipn (L : nat) (w : list symbol) :
  length w = (2 * L + 1)%nat -> Future L w = skipn (L + 1) w.
Proof.
  intros Hw. unfold Future, arange.
  replace (2 * L + 1 - (L + 1))%nat with L by lia.
  rewrite take_seq by lia.
  apply firstn_all2. rewrite length_skipn. lia.
Qed.

(** C2.  A sequence of length [N > 2L] with [L >= 1] yields exactly
    [N - 2L] windows; the window at offset [t] holds the [2L+1] symbols
    [X[t], ..., X[t+2L]] (unit stride, no padding), and it splits into a
    past of its first [L+1] symbols and a future of its last [L] symbols. *)
Theorem Windower_windows (X : list symbol) (L : nat) :
  (1 <= L)%nat -> (2 * L < length X)%nat ->
  exists ws,
    Windower X L = Ok ws /\
    length ws = (length X - 2 * L)%nat /\
    forall t, (t < length X - 2 * L)%nat ->
      let w := nth t ws [] in
      length w = (2 * L + 1)%nat /\
      (forall i, (i < 2 * L + 1)%nat -> nth i w O = nth (t + i) X O) /\
      Past L w = firstn (L + 1) w /\ length (Past L w) = (L + 1)%nat /\
      Future L w = skipn (L + 1) w /\ length (Future L w) = L /\
      Past L w ++ Future L w = w.
Proof.
  intros HL HN. unfold Windower.
  destruct (Nat.leb_spec (length X) (2 * L)) as [Hle|_]; [lia|].
  eexists. split; [reflexivity|]. split.
  - rewrite length_map, length_seq. reflexivity.
  - intros t Ht.
    assert (Hnth : nth t (map (window_at X (2 * L + 1)) (seq 0 (length X - 2 * L))) []
                   = window_at X (2 * L + 1) t).
    { rewrite (nth_indep _ [] (window_at X (2 * L + 1) O))
        by (rewrite length_map, length_seq; lia).
      rewrite map_nth, seq_nth by lia. reflexivity. }
    rewrite Hnth.
    assert (Hlen : length (window_at X (2 * L + 1) t) = (2 * L + 1)%nat)
      by (apply window_at_length; lia).
    split; [exact Hlen|].
    split; [intros i Hi; now apply window_at_nth|].
    rewrite (Past_firstn L _ Hlen), (Future_skipn L _ Hlen).
    repeat split.
    + rewrite length_firstn. lia.
    + rewrite length_skipn. lia.
    + apply firstn_skipn.
Qed.

Lemma Windower_windows_witness :
  exists ws,
    Windower [0; 1; 1; 0; 1]%nat 1 = Ok ws /\
    length ws = 3%nat /\
    forall t, (t < 3)%nat ->
      let w := nth t ws [] in
      length w = 3%nat /\
      (forall i, (i < 3)%nat -> nth i w O = nth (t + i) [0; 1; 1; 0; 1]%nat O) /\
      Past 1 w = firstn 2 w /\ length (Past 1 w) = 2%nat /\
      Future 1 w = skipn 2 w /\ length (Future 1 w) = 1%nat /\
      Past 1 w ++ Future 1 w = w.
Proof.
  apply (Windower_windows [0; 1; 1; 0; 1]%nat 1); simpl; lia.
Defined.

(** C6.  A sequence of length [N <= 2L] (with [L >= 1]) is refused with
    [InvalidWindowError]: no window is produced. *)
Theorem Windower_too_short (X : list symbol) (L : nat) :
  (1 <= L)%nat -> (length X <= 2 * L)%nat ->
  Windower X L = Raise InvalidWindowError /\
  forall ws, Windower X L <> Ok ws.
Proof.
  intros HL HN. unfold Windower.
  destruct (Nat.leb_spec (length X) (2 * L)) as [_|Hlt]; [|lia].
  split; [reflexivity|]. intros ws H. discriminate H.
Qed.

Lemma Windower_too_short_witness :
  Windower [0; 1; 1; 0; 1]%nat 3 = Raise InvalidWindowError /\
  forall ws, Windower [0; 1; 1; 0; 1]%nat 3 <> Ok ws.
Proof.
  apply (Windower_too_short [0; 1; 1; 0; 1]%nat 3); simpl; lia.
Defined.

(** ** The one-hot encoder *)

Lemma word_eqb_eq (a b : word) : word_eqb a b = true <-> a = b.
Proof.
  unfold word_eqb. destruct (list_eq_dec Nat.eq_dec a b); split; congruence.
Qed.

Lemma index_of_Some (w : word) (alphabet : list word) (i : nat) :
  index_of w alphabet = Some i ->
  (i < length alphabet)%nat /\ nth i alphabet [] = w.
Proof.
  revert i. induction alphabet as [|a rest IH]; intros i H; simpl in H.
  - discriminate.
  - destruct (word_eqb w a) eqn:E.
    + injection H as <-. apply word_eqb_eq in E. subst. simpl. split; [lia|reflexivity].
    + destruct (index_of w rest) as [i'|]; [|discriminate].
      injection H as <-. destruct (IH i' eq_refl) as [Hlt Hn].
      simpl. split; [lia|exact Hn].
Qed.

Lemma index_of_None (w : word) (alphabet : list word) :
  index_of w alphabet = None <-> ~ In w alphabet.
Proof.
  induction alphabet as [|a rest IH]; simpl.
  - tauto.
  - destruct (word_eqb w a) eqn:E.
    + apply word_eqb_eq in E. subst. split; [discriminate|tauto].
    + assert (w <> a) by (intros ->; rewrite (proj2 (word_eqb_eq a a) eq_refl) in E; discriminate).
      destruct (index_of w rest) as [i'|].
      * split; [discriminate|]. intros Hn. exfalso. apply Hn. right.
        destruct (in_dec (list_eq_dec Nat.eq_dec) w rest) as [Hi|Hi]; [exact Hi|].
        apply IH in Hi. discriminate.
      * split; [|reflexivity]. intros _ [Ha|Hr]; [congruence|].
        now apply (proj1 IH eq_refl).
Qed.

Lemma index_of_In (w : word) (alphabet : list word) :
  In w alphabet -> exists i, index_of w alphabet = Some i.
Proof.
  intros Hin. destruct (index_of w alphabet) as [i|] eqn:E.
  - now exists i.
  - apply index_of_None in E. contradiction.
Qed.

Lemma fit_from_NoDup (ws seen : list word) :
  NoDup seen -> NoDup (fit_from seen ws).
Proof.
  revert seen. induction ws as [|w rest IH]; intros seen Hnd; simpl.
  - exact Hnd.
  - destruct (index_of w seen) eqn:E.
    + now apply IH.
    + apply IH. apply index_of_None in E.
      apply NoDup_app; [exact Hnd|repeat constructor; simpl; tauto|].
      intros x Hx [<-|[]]. contradiction.
Qed.

Lemma fit_from_In (ws seen : list word) (w : word) :
  In w (fit_from seen ws) <-> In w seen \/ In w ws.
Proof.
  revert seen. induction ws as [|v rest IH]; intros seen; simpl.
  - tauto.
  - destruct (index_of v seen) eqn:E.
    + rewrite IH. split; [tauto|].
      intros [H|[<-|H]]; try tauto.
      left. apply index_of_Some in E. destruct E as [Hlt <-].
      now apply nth_In.
    + rewrite IH, in_app_iff. simpl. tauto.
Qed.

Lemma OneHot_fit_NoDup (ws : list word) : NoDup (OneHot_fit ws).
Proof. apply fit_from_NoDup. constructor. Qed.

Lemma OneHot_fit_In (ws : list word) (w : word) :
  In w (OneHot_fit ws) <-> In w ws.
Proof. unfold OneHot_fit. rewrite fit_from_In. simpl. tauto. Qed.

Lemma OneHot_transform_Ok (alphabet ws : list word) :
  (forall w, In w ws -> In w alphabet) ->
  OneHot_transform alphabet ws =
  Ok (mkMat (length ws) (length alphabet)
        (fun t j => match index_of (nth t ws []) alphabet with
                    | Some i => delta i j
                    | None => 0
                    end)).
Proof.
  intros Hin. unfold OneHot_transform.
  replace (forallb _ ws) with true; [reflexivity|].
  symmetry. apply forallb_forall. intros w Hw.
  destruct (index_of_In w alphabet (Hin w Hw)) as [i ->]. reflexivity.
Qed.

(** C8.  For an encoder fitted on [fit_words] and sub-words [ws] drawn from
    its alphabet, [transform] returns a matrix with one row per sub-word
    and one column per alphabet entry; row [t] holds exactly [1] in the
    column whose alphabet entry is the [t]-th sub-word (the only such
    column) and exactly [0] elsewhere: an unnormalised indicator vector. *)
Theorem OneHot_transform_indicator (fit_words ws : list word) :
  (forall w, In w ws -> In w (OneHot_fit fit_words)) ->
  exists M,
    OneHot_transform (OneHot_fit fit_words) ws = Ok M /\
    nrows M = length ws /\
    ncols M = length (OneHot_fit fit_words) /\
    forall t, (t < length ws)%nat ->
      exists j, (j < ncols M)%nat /\
        (forall j', (j' < ncols M)%nat ->
           nth j' (OneHot_fit fit_words) [] = nth t ws [] <-> j' = j) /\
        (forall j', (j' < ncols M)%nat ->
           entry M t j' = if Nat.eqb j' j then 1 else 0).
Proof.
  intros Hin. rewrite (OneHot_transform_Ok _ _ Hin).
  eexists. split; [reflexivity|]. simpl. repeat split.
  intros t Ht.
  assert (Hw : In (nth t ws []) (OneHot_fit fit_words))
    by (apply Hin, nth_In, Ht).
  destruct (index_of_In _ _ Hw) as [j Hj].
  destruct (index_of_Some _ _ _ Hj) as [Hlt Hnth].
  exists j. split; [exact Hlt|]. split.
  - intros j' Hj'. split.
    + intros E. rewrite <- Hnth in E.
      now apply (proj1 (NoDup_nth _ []) (OneHot_fit_NoDup fit_words)).
    + intros ->. exact Hnth.
  - intros j' Hj'. rewrite Hj. unfold delta. now rewrite Nat.eqb_sym.
Qed.

Lemma OneHot_transform_indicator_witness :
  exists M,
    OneHot_transform (OneHot_fit [[0; 1]; [1; 1]; [0; 1]; [1; 0]]%nat)
                     [[1; 0]; [0; 1]]%nat = Ok M /\
    nrows M = 2%nat /\
    ncols M = 3%nat /\
    forall t, (t < 2)%nat ->
      exists j, (j < ncols M)%nat /\
        (forall j', (j' < ncols M)%nat ->
           nth j' (OneHot_fit [[0; 1]; [1; 1]; [0; 1]; [1; 0]]%nat) []
           = nth t [[1; 0]; [0; 1]]%nat [] <-> j' = j) /\
        (forall j', (j' < ncols M)%nat ->
           entry M t j' = if Nat.eqb j' j then 1 else 0).
Proof.
  apply (OneHot_transform_indicator
           [[0; 1]; [1; 1]; [0; 1]; [1; 0]]%nat [[1; 0]; [0; 1]]%nat).
  intros w [<-|[<-|[]]]; vm_compute; tauto.
Defined.

(** ** Counting with one-hot rows *)

Section OneHotCounting.
Local Open Scope Q_scope.

Lemma matmul_Ok (A B : matrix) :
  ncols A = nrows B ->
  matmul A B =
  Ok (mkMat (nrows A) (ncols B)
        (fun i j => qsum (ncols A) (fun l => entry A i l * entry B l j))).
Proof.
  intros H. unfold matmul. apply Nat.eqb_eq in H. now rewrite H.
Qed.

Lemma matmul_Raise (A B : matrix) :
  ncols A <> nrows B -> matmul A B = Raise ValueError.
Proof.
  intros H. unfold matmul. apply Nat.eqb_neq in H. now rewrite H.
Qed.

Lemma matmul_transpose_self (M : matrix) :
  matmul (transpose M) M = Ok (gram M).
Proof. rewrite matmul_Ok by reflexivity. reflexivity. Qed.

Lemma forall_lt_spec (n : nat) (p : nat -> bool) :
  forall_lt n p = true <-> forall i, (i < n)%nat -> p i = true.
Proof.
  unfold forall_lt. rewrite forallb_forall. split; intros H i Hi.
  - apply H. apply in_seq. lia.
  - apply H. apply in_seq in Hi. lia.
Qed.

Lemma exists_lt_spec (n : nat) (p : nat -> bool) :
  exists_lt n p = true <-> exists i, (i < n)%nat /\ p i = true.
Proof.
  unfold exists_lt. rewrite existsb_exists. split; intros [i [Hi Hp]]; exists i.
  - apply in_seq in Hi. split; [lia|exact Hp].
  - split; [apply in_seq; lia|exact Hp].
Qed.

Lemma one_hotb_spec (M : matrix) : one_hotb M = true -> one_hot M.
Proof.
  unfold one_hotb. rewrite forall_lt_spec. intros H t Ht.
  specialize (H t Ht). apply exists_lt_spec in H. destruct H as [j [Hj H]].
  exists j. split; [exact Hj|]. intros j' Hj'.
  rewrite forall_lt_spec in H. apply Qeq_bool_iff. now apply H.
Qed.

Lemma every_word_seenb_spec (M : matrix) :
  every_word_seenb M = true -> every_word_seen M.
Proof.
  unfold every_word_seenb. rewrite forall_lt_spec. intros H j Hj.
  specialize (H j Hj). apply exists_lt_spec in H. destruct H as [t [Ht H]].
  exists t. split; [exact Ht|]. now apply Qeq_bool_iff.
Qed.

Lemma mx_eqb_spec (A B : matrix) : mx_eqb A B = true -> mx_eq A B.
Proof.
  unfold mx_eqb. rewrite !andb_true_iff, !Nat.eqb_eq, forall_lt_spec.
  intros [[Hr Hc] H]. repeat split; try assumption.
  intros i j Hi Hj. specialize (H i Hi). rewrite forall_lt_spec in H.
  apply Qeq_bool_iff. now apply H.
Qed.

Lemma mx_eq_within_tol (eps : Q) (A B : matrix) :
  0 <= eps -> mx_eq A B -> within_tol eps A B.
Proof.
  intros He (Hr & Hc & H). repeat split; try assumption.
  intros i j Hi Hj. rewrite (H i j Hi Hj).
  setoid_replace (entry B i j - entry B i j) with 0 by ring.
  exact He.
Qed.

Lemma delta_01 (i j : nat) : 0 <= delta i j <= 1.
Proof. unfold delta. destruct (Nat.eqb i j); lra. Qed.

Lemma delta_mul (p i j : nat) :
  delta p i * delta p j == delta i j * delta p i.
Proof.
  unfold delta.
  destruct (Nat.eqb_spec p i), (Nat.eqb_spec p j), (Nat.eqb_spec i j);
    try lra; congruence.
Qed.

Variable P : matrix.
Hypothesis P_one_hot : one_hot P.

Lemma one_hot_entry_01 (t i : nat) :
  (t < nrows P)%nat -> (i < ncols P)%nat -> 0 <= entry P t i <= 1.
Proof.
  intros Ht Hi. destruct (P_one_hot t Ht) as [p [Hp H]].
  rewrite (H i Hi). apply delta_01.
Qed.

(** A one-hot row selects one term of a sum. *)
Lemma one_hot_select (t p : nat) (g : nat -> Q) :
  indicator_row P t p ->
  qsum (ncols P) (fun l => entry P t l * g l) == g p.
Proof.
  intros [Hp H]. rewrite <- (qsum_delta_l (ncols P) p g Hp).
  apply qsum_ext. intros l Hl. rewrite (H l Hl). reflexivity.
Qed.

Lemma one_hot_row_sum (t : nat) :
  (t < nrows P)%nat -> qsum (ncols P) (fun l => entry P t l) == 1.
Proof.
  intros Ht. destruct (P_one_hot t Ht) as [p Hp].
  rewrite <- (one_hot_select t p (fun _ => 1) Hp).
  apply qsum_ext. intros; ring.
Qed.

Lemma one_hot_product (t i j : nat) :
  (t < nrows P)%nat -> (i < ncols P)%nat -> (j < ncols P)%nat ->
  entry P t i * entry P t j == delta i j * entry P t i.
Proof.
  intros Ht Hi Hj. destruct (P_one_hot t Ht) as [p [Hp H]].
  rewrite (H i Hi), (H j Hj). apply delta_mul.
Qed.

(** [past_vecs.T @ past_vecs] is the diagonal matrix of the counts. *)
Lemma gram_diagonal (i j : nat) :
  (i < ncols P)%nat -> (j < ncols P)%nat ->
  entry (gram P) i j == delta i j * marginal_count P i.
Proof.
  intros Hi Hj. unfold gram, marginal_count. simpl.
  rewrite <- qsum_scal_l. apply qsum_ext. intros t Ht.
  now apply one_hot_product.
Qed.

Lemma marginal_count_nonneg (i : nat) :
  (i < ncols P)%nat -> 0 <= marginal_count P i.
Proof.
  intros Hi. apply qsum_nonneg. intros t Ht.
  now apply one_hot_entry_01.
Qed.

Lemma marginal_count_pos (i : nat) :
  every_word_seen P -> (i < ncols P)%nat -> 1 <= marginal_count P i.
Proof.
  intros Hseen Hi. destruct (Hseen i Hi) as [t [Ht H1]].
  rewrite <- H1. unfold marginal_count.
  apply (qsum_term_le (nrows P) (fun t => entry P t i)); [|exact Ht].
  intros l Hl. now apply one_hot_entry_01.
Qed.

Lemma marginal_count_zero_column (i : nat) :
  (i < ncols P)%nat -> marginal_count P i == 0 ->
  forall t, (t < nrows P)%nat -> entry P t i == 0.
Proof.
  intros Hi Hz. apply qsum_nonneg_zero.
  - intros t Ht. now apply one_hot_entry_01.
  - unfold marginal_count in Hz. rewrite Hz. lra.
Qed.

End OneHotCounting.

(** ** The conditional table by division by the marginal counts *)

Section Morphs.
Local Open Scope Q_scope.

Lemma diag_select (n i : nat) (c : Q) (g : nat -> Q) :
  (i < n)%nat ->
  qsum n (fun l => (if Nat.eqb i l then c else 0) * g l) == c * g i.
Proof.
  intros Hi. rewrite <- (qsum_delta_l n i (fun l => c * g l) Hi).
  apply qsum_ext. intros l _. unfold delta.
  destruct (Nat.eqb i l); ring.
Qed.

Lemma joint_counts_Ok (P F : matrix) :
  nrows P = nrows F ->
  joint_counts P F = Ok (mkMat (ncols P) (ncols F) (jcount P F)).
Proof.
  intros H. unfold joint_counts. rewrite matmul_Ok by exact H. reflexivity.
Qed.

Lemma morphs_value (P F : matrix) :
  nrows P = nrows F ->
  exists M, morphs P F = Ok M /\ nrows M = ncols P /\ ncols M = ncols F /\
    forall i j, (i < ncols P)%nat -> (j < ncols F)%nat ->
      entry M i j == / qsum (ncols F) (jcount P F i) * jcount P F i j.
Proof.
  intros H. unfold morphs. rewrite (joint_counts_Ok P F H).
  cbn [bind]. rewrite matmul_Ok by reflexivity.
  eexists. split; [reflexivity|]. cbn. repeat split.
  intros i j Hi Hj.
  exact (diag_select (ncols P) i (/ qsum (ncols F) (jcount P F i))
           (fun l => jcount P F l j) Hi).
Qed.

Lemma jcount_nonneg (P F : matrix) (i j : nat) :
  nrows P = nrows F -> one_hot P -> one_hot F ->
  (i < ncols P)%nat -> (j < ncols F)%nat -> 0 <= jcount P F i j.
Proof.
  intros H HP HF Hi Hj. apply qsum_nonneg. intros t Ht.
  pose proof (one_hot_entry_01 P HP t i Ht Hi).
  assert (Ht' : (t < nrows F)%nat) by lia.
  pose proof (one_hot_entry_01 F HF t j Ht' Hj). nra.
Qed.

(** Summing the joint counts of a past word over the future words gives
    its marginal count: every window has exactly one future word. *)
Lemma jcount_row_sum (P F : matrix) (i : nat) :
  nrows P = nrows F -> one_hot F ->
  qsum (ncols F) (jcount P F i) == marginal_count P i.
Proof.
  intros H HF. unfold jcount, marginal_count.
  rewrite qsum_swap. apply qsum_ext. intros t Ht.
  rewrite qsum_scal_l, (one_hot_row_sum F HF t) by lia. ring.
Qed.

(** C3.  With one-hot past and future feature matrices over the same
    windows, and every past word seen at least once, each row of the table
    [morphs] sums to 1 and all its entries lie in [[0, 1]]. *)
Theorem morphs_rows_are_distributions (P F : matrix) :
  nrows P = nrows F -> one_hot P -> one_hot F -> every_word_seen P ->
  exists M, morphs P F = Ok M /\
    nrows M = ncols P /\ ncols M = ncols F /\
    forall i, (i < nrows M)%nat ->
      qsum (ncols M) (entry M i) == 1 /\
      forall j, (j < ncols M)%nat -> 0 <= entry M i j <= 1.
Proof.
  intros H HP HF Hseen.
  destruct (morphs_value P F H) as (M & HM & Hr & Hc & He).
  exists M. split; [exact HM|]. split; [exact Hr|]. split; [exact Hc|].
  rewrite Hr, Hc. intros i Hi.
  pose proof (marginal_count_pos P HP i Hseen Hi) as Hpos.
  pose proof (jcount_row_sum P F i H HF) as Hsum.
  split.
  - rewrite (qsum_ext _ _ (fun j => / marginal_count P i * jcount P F i j)).
    + rewrite qsum_scal_l, Hsum. field. lra.
    + intros j Hj. rewrite (He i j Hi Hj), Hsum. reflexivity.
  - intros j Hj. rewrite (He i j Hi Hj), Hsum.
    pose proof (jcount_nonneg P F i j H HP HF Hi Hj) as H0.
    assert (Hle : jcount P F i j <= marginal_count P i).
    { rewrite <- Hsum.
      apply (qsum_term_le (ncols F) (jcount P F i)); [|exact Hj].
      intros l Hl. now apply jcount_nonneg. }
    assert (Hinv : 0 < / marginal_count P i) by (apply Qinv_lt_0_compat; lra).
    split.
    + nra.
    + assert (E : / marginal_count P i * marginal_count P i == 1) by (field; lra).
      nra.
Qed.

End Morphs.

(** ** The least-squares problem on one-hot features *)

Section LeastSquares.
Local Open Scope Q_scope.

Variables P F : matrix.
Hypothesis same_windows : nrows P = nrows F.
Hypothesis P_one_hot : one_hot P.

Lemma qsum_swap3 (a b c : nat) (g : nat -> nat -> nat -> Q) :
  qsum a (fun t => qsum b (fun j => qsum c (fun l => g t j l))) ==
  qsum c (fun l => qsum b (fun j => qsum a (fun t => g t j l))).
Proof.
  rewrite qsum_swap.
  rewrite (qsum_ext b _ (fun j => qsum c (fun l => qsum a (fun t => g t j l))))
    by (intros; apply qsum_swap).
  apply qsum_swap.
Qed.

Lemma residual_one_hot (B : matrix) (t j : nat) :
  (t < nrows P)%nat ->
  (entry F t j - qsum (ncols P) (fun l => entry P t l * entry B l j)) ^ 2 ==
  entry F t j ^ 2 +
  qsum (ncols P) (fun l =>
    entry P t l * entry B l j ^ 2 - 2 * (entry P t l * entry F t j) * entry B l j).
Proof.
  intros Ht. destruct (P_one_hot t Ht) as [p Hp].
  rewrite (one_hot_select P t p (fun l => entry B l j) Hp).
  rewrite (qsum_ext _ _ (fun l => entry P t l *
             (entry B l j ^ 2 - 2 * entry F t j * entry B l j)))
    by (intros; ring).
  rewrite (one_hot_select P t p
             (fun l => entry B l j ^ 2 - 2 * entry F t j * entry B l j) Hp).
  ring.
Qed.

Lemma sq_loss_expand (B : matrix) :
  sq_loss P F B == loss_const F + loss_quad P F B.
Proof.
  unfold sq_loss, loss_const, loss_quad.
  rewrite (qsum_ext (nrows F) _ (fun t =>
     qsum (ncols F) (fun j => entry F t j ^ 2) +
     qsum (ncols F) (fun j => qsum (ncols P) (fun l =>
       entry P t l * entry B l j ^ 2
       - 2 * (entry P t l * entry F t j) * entry B l j)))).
  - rewrite qsum_plus. apply Qplus_comp; [reflexivity|].
    rewrite qsum_swap3. apply qsum_ext. intros l Hl.
    apply qsum_ext. intros j Hj.
    unfold marginal_count, jcount. rewrite <- same_windows.
    rewrite <- qsum_scal_r.
    rewrite <- (qsum_scal_l (nrows P) 2), <- qsum_scal_r, <- qsum_minus.
    apply qsum_ext. intros; ring.
  - intros t Ht. rewrite <- qsum_plus. apply qsum_ext. intros j Hj.
    apply residual_one_hot. lia.
Qed.

(** Completing the square, past word by past word. *)
Lemma sq_loss_diff (B C : matrix) :
  (forall l j, (l < ncols P)%nat -> (j < ncols F)%nat ->
     marginal_count P l * entry C l j == jcount P F l j) ->
  sq_loss P F B - sq_loss P F C ==
  qsum (ncols P) (fun l => qsum (ncols F) (fun j =>
    marginal_count P l * (entry B l j - entry C l j) ^ 2)).
Proof.
  intros HC. rewrite !sq_loss_expand. unfold loss_quad.
  setoid_replace (loss_const F + qsum (ncols P) (fun l => qsum (ncols F) (fun j =>
      marginal_count P l * entry B l j ^ 2 - 2 * jcount P F l j * entry B l j))
    - (loss_const F + qsum (ncols P) (fun l => qsum (ncols F) (fun j =>
      marginal_count P l * entry C l j ^ 2 - 2 * jcount P F l j * entry C l j))))
   with (qsum (ncols P) (fun l => qsum (ncols F) (fun j =>
      marginal_count P l * entry B l j ^ 2 - 2 * jcount P F l j * entry B l j))
    - qsum (ncols P) (fun l => qsum (ncols F) (fun j =>
      marginal_count P l * entry C l j ^ 2 - 2 * jcount P F l j * entry C l j)))
   by ring.
  rewrite <- qsum_minus. apply qsum_ext. intros l Hl.
  rewrite <- qsum_minus. apply qsum_ext. intros j Hj.
  rewrite <- (HC l j Hl Hj). ring.
Qed.

Hypothesis P_seen : every_word_seen P.

Lemma conditional_frequency_normal (l j : nat) :
  (l < ncols P)%nat -> (j < ncols F)%nat ->
  marginal_count P l * entry (conditional_frequency P F) l j == jcount P F l j.
Proof.
  intros Hl Hj. simpl.
  pose proof (marginal_count_pos P P_one_hot l P_seen Hl).
  field. lra.
Qed.

(** The table of conditional frequencies solves the least-squares problem. *)
Lemma conditional_frequency_least_squares :
  is_least_squares P F (conditional_frequency P F).
Proof.
  split; [reflexivity|]. split; [reflexivity|].
  intros B _ _.
  pose proof (sq_loss_diff B _ conditional_frequency_normal) as Hd.
  assert (0 <= sq_loss P F B - sq_loss P F (conditional_frequency P F)).
  { rewrite Hd. apply qsum_nonneg. intros l Hl.
    apply qsum_nonneg. intros j Hj.
    apply scaled_sq_nonneg. now apply marginal_count_pos. }
  lra.
Qed.

(** ... and it is the only solution. *)
Lemma least_squares_unique (A : matrix) :
  is_least_squares P F A -> mx_eq A (conditional_frequency P F).
Proof.
  intros (Hr & Hc & Hmin).
  split; [exact Hr|]. split; [exact Hc|].
  rewrite Hr, Hc. intros l j Hl Hj.
  pose proof (sq_loss_diff A _ conditional_frequency_normal) as Hd.
  specialize (Hmin (conditional_frequency P F) eq_refl eq_refl).
  assert (Hz : qsum (ncols P) (fun l => qsum (ncols F) (fun j =>
            marginal_count P l *
            (entry A l j - entry (conditional_frequency P F) l j) ^ 2)) <= 0)
    by (rewrite <- Hd; lra).
  assert (Hin : forall l, (l < ncols P)%nat ->
            0 <= qsum (ncols F) (fun j => marginal_count P l *
              (entry A l j - entry (conditional_frequency P F) l j) ^ 2)).
  { intros l' Hl'. apply qsum_nonneg. intros j' Hj'.
    apply scaled_sq_nonneg. now apply marginal_count_pos. }
  pose proof (qsum_nonneg_zero _ _ Hin Hz l Hl) as Hrow. cbv beta in Hrow.
  assert (Hterm : marginal_count P l *
            (entry A l j - entry (conditional_frequency P F) l j) ^ 2 == 0).
  { apply (qsum_nonneg_zero (ncols F)
            (fun j => marginal_count P l *
               (entry A l j - entry (conditional_frequency P F) l j) ^ 2));
      [|rewrite Hrow; lra|exact Hj].
    intros j' Hj'.
    apply scaled_sq_nonneg. now apply marginal_count_pos. }
  apply (scaled_sq_zero (marginal_count P l)).
  - now apply marginal_count_pos.
  - rewrite Hterm. lra.
Qed.

End LeastSquares.

(** ** The conditional table by matrix inversion *)

Section ClosedForm.
Local Open Scope Q_scope.

Lemma is_inverseb_spec (M N : matrix) :
  is_inverseb M N = true -> is_inverse M N.
Proof.
  unfold is_inverseb. rewrite !andb_true_iff, !Nat.eqb_eq, forall_lt_spec.
  intros [[Hr Hc] H]. split; [exact Hr|]. split; [exact Hc|].
  intros i j Hi Hj. specialize (H i Hi). rewrite forall_lt_spec in H.
  specialize (H j Hj). apply andb_true_iff in H. destruct H as [H1 H2].
  split; now apply Qeq_bool_iff.
Qed.

Variables P F : matrix.
Hypothesis same_windows : nrows P = nrows F.
Hypothesis P_one_hot : one_hot P.

(** A past word that was never seen makes [past_squared] singular. *)
Lemma gram_singular (i : nat) :
  (i < ncols P)%nat -> marginal_count P i == 0 ->
  forall N, ~ is_inverse (gram P) N.
Proof.
  intros Hi Hz N (_ & _ & HN).
  destruct (HN i i Hi Hi) as [_ Hright].
  rewrite delta_refl in Hright.
  rewrite qsum_zero in Hright; [lra|].
  intros l Hl. change (nrows (gram P)) with (ncols P) in Hl.
  rewrite (gram_diagonal P P_one_hot i l Hi Hl), Hz. ring.
Qed.

Lemma new_morphs_singular (inv : matrix -> result matrix) (i : nat) :
  inv_contract inv (gram P) ->
  (i < ncols P)%nat -> marginal_count P i == 0 ->
  new_morphs inv P F = Raise LinAlgError.
Proof.
  intros Hinv Hi Hz. unfold new_morphs.
  rewrite (joint_counts_Ok P F same_windows), matmul_transpose_self.
  cbn [bind]. unfold inv_contract in Hinv.
  destruct (inv (gram P)) as [N|e].
  - exfalso. exact (gram_singular i Hi Hz N Hinv).
  - destruct Hinv as [-> _]. reflexivity.
Qed.

Hypothesis P_seen : every_word_seen P.

Lemma marginal_count_nonzero (i : nat) :
  (i < ncols P)%nat -> ~ marginal_count P i == 0.
Proof.
  intros Hi Hz. pose proof (marginal_count_pos P P_one_hot i P_seen Hi). lra.
Qed.

(** When every past word was seen, the diagonal matrix of the reciprocal
    counts inverts [past_squared]. *)
Lemma gram_inverse :
  is_inverse (gram P)
    (mkMat (ncols P) (ncols P) (fun i j => delta i j / marginal_count P i)).
Proof.
  split; [reflexivity|]. split; [reflexivity|].
  change (nrows (gram P)) with (ncols P). intros i j Hi Hj.
  pose proof (marginal_count_nonzero i Hi) as Hci.
  pose proof (marginal_count_nonzero j Hj) as Hcj.
  cbn [entry]. split.
  - rewrite (qsum_ext _ _ (fun l => delta i l *
               (/ marginal_count P i * entry (gram P) l j))).
    + rewrite (qsum_delta_l _ i _ Hi).
      rewrite (gram_diagonal P P_one_hot i j Hi Hj). field. exact Hci.
    + intros l Hl. unfold Qdiv. ring.
  - rewrite (qsum_ext _ _ (fun l => delta i l *
               (marginal_count P i * (delta l j / marginal_count P l)))).
    + rewrite (qsum_delta_l _ i _ Hi). field. exact Hci.
    + intros l Hl. rewrite (gram_diagonal P P_one_hot i l Hi Hl). ring.
Qed.

(** Any inverse of [past_squared] is that diagonal matrix. *)
Lemma gram_inverse_entries (N : matrix) (i j : nat) :
  is_inverse (gram P) N -> (i < ncols P)%nat -> (j < ncols P)%nat ->
  entry N i j == delta i j / marginal_count P j.
Proof.
  intros (_ & _ & HN) Hi Hj.
  destruct (HN i j Hi Hj) as [Hleft _].
  change (nrows (gram P)) with (ncols P) in Hleft.
  pose proof (marginal_count_nonzero j Hj) as Hcj.
  rewrite (qsum_ext _ _ (fun l => delta j l *
             (entry N i l * marginal_count P j))) in Hleft.
  - rewrite (qsum_delta_l _ j _ Hj) in Hleft.
    rewrite <- Hleft. field. exact Hcj.
  - intros l Hl. rewrite (gram_diagonal P P_one_hot l j Hl Hj).
    rewrite (delta_sym l j).
    unfold delta. destruct (Nat.eqb_spec j l) as [->|Hne]; ring.
Qed.

(** The closed-form route succeeds and returns the conditional frequencies. *)
Lemma new_morphs_value (inv : matrix -> result matrix) :
  inv_contract inv (gram P) ->
  exists M, new_morphs inv P F = Ok M /\ mx_eq M (conditional_frequency P F).
Proof.
  intros Hinv. unfold new_morphs.
  rewrite (joint_counts_Ok P F same_windows), matmul_transpose_self.
  cbn [bind]. unfold inv_contract in Hinv.
  destruct (inv (gram P)) as [N|e].
  - cbn [bind]. pose proof Hinv as (Hr & Hc & _).
    change (nrows (gram P)) with (ncols P) in Hr, Hc.
    rewrite matmul_Ok by exact Hc.
    eexists. split; [reflexivity|].
    split; [exact Hr|]. split; [reflexivity|].
    cbn [nrows ncols entry]. rewrite Hr, Hc. intros i j Hi Hj.
    change (entry (conditional_frequency P F) i j)
      with (jcount P F i j / marginal_count P i).
    rewrite (qsum_ext _ _ (fun l => delta i l *
               (/ marginal_count P l * jcount P F l j))).
    + rewrite (qsum_delta_l _ i _ Hi). unfold Qdiv. ring.
    + intros l Hl. rewrite (gram_inverse_entries N i l Hinv Hi Hl).
      unfold Qdiv. ring.
  - exfalso. destruct Hinv as [_ Hno]. exact (Hno _ gram_inverse).
Qed.

End ClosedForm.

(** ** Closed form against regression, and unseen past words *)

Section Routes.
Local Open Scope Q_scope.

Lemma morphs_rows_are_distributions_witness :
  exists M, morphs example_P example_F = Ok M /\
    nrows M = ncols example_P /\ ncols M = ncols example_F /\
    forall i, (i < nrows M)%nat ->
      qsum (ncols M) (entry M i) == 1 /\
      forall j, (j < ncols M)%nat -> 0 <= entry M i j <= 1.
Proof.
  apply (morphs_rows_are_distributions example_P example_F).
  - reflexivity.
  - apply one_hotb_spec. vm_compute. reflexivity.
  - apply one_hotb_spec. vm_compute. reflexivity.
  - apply every_word_seenb_spec. vm_compute. reflexivity.
Defined.

(** C1.  On one-hot past features in which every past word occurs, the
    closed-form route [inv(past_vecs.T @ past_vecs) @ joint_counts] and the
    no-intercept least-squares route return the same coefficient matrix:
    the entries agree exactly in rational arithmetic, hence within the
    tolerance [1e-8]. *)
Theorem closed_form_equals_regression
    (inv : matrix -> result matrix)
    (LinearRegression_fit : matrix -> matrix -> result matrix)
    (P F : matrix) :
  nrows P = nrows F -> one_hot P -> one_hot F -> every_word_seen P ->
  inv_contract inv (gram P) ->
  lstsq_contract LinearRegression_fit P F ->
  exists M A,
    new_morphs inv P F = Ok M /\
    conditional LinearRegression_fit P F = Ok A /\
    is_least_squares P F A /\
    mx_eq M A /\
    within_tol (1 # 100000000) M A.
Proof.
  intros Hn HP _ Hseen Hinv (coef_ & Hfit & Hls).
  destruct (new_morphs_value P F Hn HP Hseen inv Hinv) as (M & HM & HMC).
  exists M, (transpose coef_).
  split; [exact HM|].
  split; [unfold conditional; rewrite Hfit; reflexivity|].
  split; [exact Hls|].
  pose proof (least_squares_unique P F Hn HP Hseen _ Hls) as HA.
  assert (Heq : mx_eq M (transpose coef_)).
  { destruct HMC as (Hr & Hc & He). destruct HA as (Hr' & Hc' & He').
    split; [congruence|]. split; [congruence|].
    intros i j Hi Hj. rewrite (He i j Hi Hj).
    symmetry. apply He'; congruence. }
  split; [exact Heq|].
  apply mx_eq_within_tol; [|exact Heq].
  unfold Qle. simpl. lia.
Qed.

Lemma closed_form_equals_regression_witness :
  exists M A,
    new_morphs diagonal_inv example_P example_F = Ok M /\
    conditional frequency_fit example_P example_F = Ok A /\
    is_least_squares example_P example_F A /\
    mx_eq M A /\
    within_tol (1 # 100000000) M A.
Proof.
  assert (HP : one_hot example_P)
    by (apply one_hotb_spec; vm_compute; reflexivity).
  assert (HF : one_hot example_F)
    by (apply one_hotb_spec; vm_compute; reflexivity).
  assert (Hseen : every_word_seen example_P)
    by (apply every_word_seenb_spec; vm_compute; reflexivity).
  apply (closed_form_equals_regression diagonal_inv frequency_fit
           example_P example_F eq_refl HP HF Hseen).
  - unfold inv_contract, diagonal_inv.
    apply is_inverseb_spec. vm_compute. reflexivity.
  - eexists. split; [reflexivity|].
    exact (conditional_frequency_least_squares example_P example_F
             eq_refl HP Hseen).
Defined.

(** Features transformed by an encoder fitted on the same sub-words. *)
Lemma OneHot_transform_one_hot (alphabet ws : list word) (M : matrix) :
  OneHot_transform alphabet ws = Ok M -> one_hot M.
Proof.
  unfold OneHot_transform.
  destruct (forallb _ ws) eqn:Hall; [|discriminate].
  intros [= <-]. intros t Ht. cbn [nrows] in Ht. cbn [ncols entry].
  rewrite forallb_forall in Hall.
  specialize (Hall (nth t ws []) (nth_In _ _ Ht)).
  destruct (index_of (nth t ws []) alphabet) as [p|] eqn:E; [|discriminate].
  exists p. split.
  - cbn [ncols]. now apply index_of_Some in E.
  - cbn [ncols entry]. intros j' _. rewrite E. reflexivity.
Qed.

Lemma OneHot_fit_transform_seen (ws : list word) (M : matrix) :
  OneHot_transform (OneHot_fit ws) ws = Ok M -> every_word_seen M.
Proof.
  rewrite OneHot_transform_Ok by (intros w; apply OneHot_fit_In).
  intros [= <-]. intros j Hj. cbn [nrows ncols entry] in *.
  assert (Hin : In (nth j (OneHot_fit ws) []) ws)
    by (apply OneHot_fit_In, nth_In, Hj).
  destruct (In_nth _ _ [] Hin) as (t & Ht & Hnth).
  exists t. split; [exact Ht|].
  destruct (index_of_In _ _ (nth_In (OneHot_fit ws) [] Hj)) as [p Hp].
  unfold word, symbol in *. rewrite Hnth, Hp. destruct (index_of_Some _ _ _ Hp) as [Hlt Hn].
  apply (proj1 (NoDup_nth _ []) (OneHot_fit_NoDup ws)) in Hn; try assumption.
  subst p. rewrite delta_refl. reflexivity.
Qed.

Lemma fsum_NaN (n l : nat) (f : nat -> float64) :
  (l < n)%nat -> f l = NaN -> fsum n f = NaN.
Proof.
  intros Hl Hf. induction n as [|n IH]; [lia|]. cbn [fsum].
  destruct (Nat.eq_dec l n) as [->|Hne].
  - rewrite Hf. destruct (fsum n f); reflexivity.
  - rewrite IH by lia. reflexivity.
Qed.

Lemma fsum_Finite (n : nat) (f : nat -> float64) (g : nat -> Q) :
  (forall l, (l < n)%nat -> f l = Finite (g l)) ->
  fsum n f = Finite (qsum n g).
Proof.
  induction n as [|n IH]; intros H; cbn [fsum qsum].
  - reflexivity.
  - rewrite IH, (H n) by (intros; try apply H; lia). reflexivity.
Qed.

Lemma Qeq_bool_false (x y : Q) : ~ x == y -> Qeq_bool x y = false.
Proof.
  intros H. destruct (Qeq_bool x y) eqn:E; [|reflexivity].
  apply Qeq_bool_iff in E. contradiction.
Qed.

(** The shape of the division route, and its entries as sums of floats. *)
Lemma morphs_float64_unfold (P F : matrix) :
  nrows P = nrows F ->
  morphs_float64 P F =
  Ok (mkFMat (ncols P) (ncols F)
        (fun i j => fsum (ncols P) (fun l =>
           fmul (if Nat.eqb i l
                 then fpow_neg1 (Finite (qsum (ncols F) (jcount P F i)))
                 else Finite 0)
                (Finite (jcount P F l j))))).
Proof.
  intros Hn. unfold morphs_float64. rewrite (joint_counts_Ok P F Hn).
  cbn [bind]. unfold fmatmul.
  cbn [fncols fnrows fdiag fvpow_neg1 fvlen of_exact sum_axis1 vlen nrows].
  rewrite Nat.eqb_refl. reflexivity.
Qed.

(** A word with a zero count: its row of the table is nan. *)
Lemma morphs_float64_unseen (P F : matrix) (M : fmatrix) (i j : nat) :
  nrows P = nrows F -> one_hot P -> one_hot F ->
  morphs_float64 P F = Ok M ->
  (i < ncols P)%nat -> (j < ncols F)%nat -> marginal_count P i == 0 ->
  fentry M i j = NaN.
Proof.
  intros Hn HP HF HM Hi Hj Hz.
  rewrite (morphs_float64_unfold P F Hn) in HM. injection HM as <-.
  cbn [fentry].
  pose proof (jcount_row_sum P F i Hn HF) as Hsum.
  assert (Hj0 : jcount P F i j == 0).
  { apply (qsum_nonneg_zero (ncols F) (jcount P F i)); [| |exact Hj].
    - intros l Hl. now apply jcount_nonneg.
    - rewrite Hsum, Hz. apply Qle_refl. }
  apply (fsum_NaN (ncols P) i); [exact Hi|].
  rewrite Nat.eqb_refl. cbn [fpow_neg1].
  assert (E : Qeq_bool (qsum (ncols F) (jcount P F i)) 0 = true)
    by (apply Qeq_bool_iff; rewrite Hsum; exact Hz).
  rewrite E. cbn [fmul].
  assert (E' : Qeq_bool (jcount P F i j) 0 = true)
    by (apply Qeq_bool_iff; exact Hj0).
  rewrite E'. reflexivity.
Qed.

(** A word with a non-zero count: its row holds the conditional
    frequencies, whatever the counts of the other words. *)
Lemma morphs_float64_seen (P F : matrix) (M : fmatrix) (i j : nat) :
  nrows P = nrows F -> one_hot F ->
  morphs_float64 P F = Ok M ->
  (i < ncols P)%nat -> (j < ncols F)%nat -> ~ marginal_count P i == 0 ->
  exists q, fentry M i j = Finite q /\
            q == jcount P F i j / marginal_count P i.
Proof.
  intros Hn HF HM Hi Hj Hnz.
  rewrite (morphs_float64_unfold P F Hn) in HM. injection HM as <-.
  cbn [fentry].
  pose proof (jcount_row_sum P F i Hn HF) as Hsum.
  assert (E : Qeq_bool (qsum (ncols F) (jcount P F i)) 0 = false)
    by (apply Qeq_bool_false; rewrite Hsum; exact Hnz).
  eexists. split.
  - apply (fsum_Finite (ncols P) _
             (fun l => (if Nat.eqb i l
                        then / qsum (ncols F) (jcount P F i) else 0)
                       * jcount P F l j)).
    intros l Hl. destruct (Nat.eqb i l).
    + cbn [fpow_neg1]. rewrite E. reflexivity.
    + reflexivity.
  - rewrite (diag_select (ncols P) i (/ qsum (ncols F) (jcount P F i))
               (fun l => jcount P F l j) Hi).
    rewrite Hsum. unfold Qdiv. ring.
Qed.

(** When no count is zero, the division route in floating point and its
    rational idealisation [morphs] return the same table. *)
Lemma morphs_float64_exact (P F : matrix) :
  nrows P = nrows F -> one_hot P -> one_hot F -> every_word_seen P ->
  exists Mf M,
    morphs_float64 P F = Ok Mf /\ morphs P F = Ok M /\
    fnrows Mf = nrows M /\ fncols Mf = ncols M /\
    forall i j, (i < nrows M)%nat -> (j < ncols M)%nat ->
      exists q, fentry Mf i j = Finite q /\ q == entry M i j.
Proof.
  intros Hn HP HF Hseen.
  destruct (morphs_value P F Hn) as (M & HM & Hr & Hc & He).
  eexists. exists M. split; [exact (morphs_float64_unfold P F Hn)|].
  split; [exact HM|]. cbn [fnrows fncols].
  split; [congruence|]. split; [congruence|].
  rewrite Hr, Hc. intros i j Hi Hj.
  pose proof (marginal_count_pos P HP i Hseen Hi) as Hpos.
  destruct (morphs_float64_seen P F _ i j Hn HF
              (morphs_float64_unfold P F Hn) Hi Hj) as (q & Hq & Hqv).
  { intros Hz. rewrite Hz in Hpos. revert Hpos. unfold Qle. simpl. lia. }
  exists q. split; [exact Hq|].
  rewrite Hqv, (He i j Hi Hj), (jcount_row_sum P F i Hn HF).
  unfold Qdiv. ring.
Qed.

(** Against C7 as stated: two windows that show the first of two past
    words.  The second past word has count zero, and the division route
    raises no error: it returns a table whose second row is nan. *)
Lemma zero_marginal_division_returns_nan :
  nrows unseen_P = nrows unseen_F /\ one_hot unseen_P /\ one_hot unseen_F /\
  marginal_count unseen_P 1 == 0 /\
  (forall e, morphs_float64 unseen_P unseen_F <> Raise e) /\
  result_map fto_rows (morphs_float64 unseen_P unseen_F) =
  Ok [[Finite 1]; [NaN]].
Proof.
  split; [reflexivity|].
  split; [apply one_hotb_spec; vm_compute; reflexivity|].
  split; [apply one_hotb_spec; vm_compute; reflexivity|].
  split; [vm_compute; reflexivity|].
  split; [intros e H; discriminate H|].
  vm_compute. reflexivity.
Qed.

(** C7.  When some past word of the alphabet has marginal count zero:
    the inversion route [inv(past_squared) @ joint_counts] fails with the
    singular-matrix error of [inv] (scipy's [LinAlgError]) and produces no
    table; the division route [np.diag(p_counts**(-1)) @ joint_counts]
    raises nothing and returns a table whose row for that word is nan,
    the rows of the words that do occur holding their conditional
    frequencies.  The situation cannot arise when the past alphabet is
    fitted on the very sub-words that are counted: then every marginal
    count is at least 1 and the inversion route returns a table. *)
Theorem zero_marginal_closed_form
    (inv : matrix -> result matrix) (P F : matrix) (i : nat) :
  nrows P = nrows F -> one_hot P -> one_hot F ->
  inv_contract inv (gram P) ->
  (i < ncols P)%nat -> marginal_count P i == 0 ->
  new_morphs inv P F = Raise LinAlgError /\
  (forall M, new_morphs inv P F <> Ok M) /\
  (exists M, morphs_float64 P F = Ok M /\
     fnrows M = ncols P /\ fncols M = ncols F /\
     (forall j, (j < ncols F)%nat -> fentry M i j = NaN) /\
     (forall i' j, (i' < ncols P)%nat -> (j < ncols F)%nat ->
        ~ marginal_count P i' == 0 ->
        exists q, fentry M i' j = Finite q /\
                  q == jcount P F i' j / marginal_count P i')) /\
  forall (words : list word), exists Pw,
    OneHot_transform (OneHot_fit words) words = Ok Pw /\
    (forall j, (j < ncols Pw)%nat -> 1 <= marginal_count Pw j) /\
    forall inv' Fw, nrows Pw = nrows Fw -> inv_contract inv' (gram Pw) ->
      exists M, new_morphs inv' Pw Fw = Ok M.
Proof.
  intros Hn HP HF Hinv Hi Hz.
  pose proof (new_morphs_singular P F Hn HP inv i Hinv Hi Hz) as Hraise.
  split; [exact Hraise|]. split; [rewrite Hraise; discriminate|].
  split.
  { eexists. split; [exact (morphs_float64_unfold P F Hn)|].
    split; [reflexivity|]. split; [reflexivity|]. split.
    - intros j Hj.
      exact (morphs_float64_unseen P F _ i j Hn HP HF
               (morphs_float64_unfold P F Hn) Hi Hj Hz).
    - intros i' j Hi' Hj Hnz.
      exact (morphs_float64_seen P F _ i' j Hn HF
               (morphs_float64_unfold P F Hn) Hi' Hj Hnz). }
  intros words.
  destruct (OneHot_transform (OneHot_fit words) words) as [Pw|e] eqn:E.
  - exists Pw. split; [reflexivity|].
    pose proof (OneHot_transform_one_hot _ _ _ E) as HPw.
    pose proof (OneHot_fit_transform_seen _ _ E) as Hseen.
    split.
    + intros j Hj. now apply marginal_count_pos.
    + intros inv' Fw Hn' Hinv'.
      destruct (new_morphs_value Pw Fw Hn' HPw Hseen inv' Hinv') as (M & HM & _).
      now exists M.
  - rewrite OneHot_transform_Ok in E by (intros w; apply OneHot_fit_In).
    discriminate.
Qed.

Lemma zero_marginal_closed_form_witness :
  new_morphs failing_inv unseen_P unseen_F = Raise LinAlgError /\
  (forall M, new_morphs failing_inv unseen_P unseen_F <> Ok M) /\
  (exists M, morphs_float64 unseen_P unseen_F = Ok M /\
     fnrows M = ncols unseen_P /\ fncols M = ncols unseen_F /\
     (forall j, (j < ncols unseen_F)%nat -> fentry M 1 j = NaN) /\
     (forall i' j, (i' < ncols unseen_P)%nat -> (j < ncols unseen_F)%nat ->
        ~ marginal_count unseen_P i' == 0 ->
        exists q, fentry M i' j = Finite q /\
                  q == jcount unseen_P unseen_F i' j
                       / marginal_count unseen_P i')) /\
  forall (words : list word), exists Pw,
    OneHot_transform (OneHot_fit words) words = Ok Pw /\
    (forall j, (j < ncols Pw)%nat -> 1 <= marginal_count Pw j) /\
    forall inv' Fw, nrows Pw = nrows Fw -> inv_contract inv' (gram Pw) ->
      exists M, new_morphs inv' Pw Fw = Ok M.
Proof.
  assert (HP : one_hot unseen_P)
    by (apply one_hotb_spec; vm_compute; reflexivity).
  assert (HF : one_hot unseen_F)
    by (apply one_hotb_spec; vm_compute; reflexivity).
  assert (Hz : marginal_count unseen_P 1 == 0) by (vm_compute; reflexivity).
  apply (zero_marginal_closed_form failing_inv unseen_P unseen_F 1 eq_refl
           HP HF).
  - split; [reflexivity|].
    apply (gram_singular unseen_P HP 1); [simpl; lia|exact Hz].
  - simpl. lia.
  - exact Hz.
Defined.

End Routes.

(** ** The rank bottleneck *)

Section Bottleneck.
Local Open Scope Q_scope.

Lemma slice_stop_zero (n : nat) : slice_stop n 0 = O.
Proof. reflexivity. Qed.

Lemma slice_stop_inside (n : nat) (k : Z) :
  (0 <= k)%Z -> (Z.to_nat k <= n)%nat -> slice_stop n k = Z.to_nat k.
Proof.
  intros Hk Hle. unfold slice_stop.
  destruct (Z.ltb_spec k 0); lia.
Qed.

Lemma slice_stop_beyond (n : nat) (k : Z) :
  (Z.of_nat n <= k)%Z -> slice_stop n k = n.
Proof.
  intros Hle. unfold slice_stop.
  destruct (Z.ltb_spec k 0); lia.
Qed.

Lemma diag_select_r (n l : nat) (u s : nat -> Q) :
  (l < n)%nat ->
  qsum n (fun m => u m * (if Nat.eqb m l then s m else 0)) == u l * s l.
Proof.
  intros Hl. rewrite <- (qsum_delta_l n l (fun m => u m * s m) Hl).
  apply qsum_ext. intros m _. unfold delta. rewrite (Nat.eqb_sym l m).
  destruct (Nat.eqb m l); ring.
Qed.

(** The product of the three slices, when the shapes agree, is the sum of
    the leading rank-one terms. *)
Lemma bottleneck_Ok (U : matrix) (s : vector) (VT : matrix) (k : Z) :
  slice_stop (ncols U) k = slice_stop (vlen s) k ->
  slice_stop (nrows VT) k = slice_stop (vlen s) k ->
  exists B, bottleneck U s VT k = Ok B /\
            mx_eq B (rank_k_sum U s VT (slice_stop (vlen s) k)).
Proof.
  intros HU HV. unfold bottleneck.
  rewrite matmul_Ok by exact HU. cbn [bind].
  rewrite matmul_Ok by (symmetry; exact HV).
  eexists. split; [reflexivity|].
  split; [reflexivity|]. split; [reflexivity|].
  cbn [nrows ncols entry cols_upto rows_upto diag vec_upto vlen vget rank_k_sum].
  intros i j Hi Hj. rewrite HU. apply qsum_ext. intros l Hl.
  rewrite (diag_select_r _ l (entry U i) (vget s) Hl). reflexivity.
Qed.

Lemma bottleneck_Raise (U : matrix) (s : vector) (VT : matrix) (k : Z) :
  slice_stop (ncols U) k <> slice_stop (vlen s) k \/
  slice_stop (nrows VT) k <> slice_stop (vlen s) k ->
  bottleneck U s VT k = Raise ValueError.
Proof.
  intros H. unfold bottleneck.
  destruct (Nat.eq_dec (slice_stop (ncols U) k) (slice_stop (vlen s) k)) as [HU|HU].
  - rewrite matmul_Ok by exact HU. cbn [bind].
    apply matmul_Raise. cbn [nrows ncols rows_upto diag vec_upto vlen].
    destruct H as [H|H]; [contradiction|]. congruence.
  - rewrite matmul_Raise by exact HU. reflexivity.
Qed.

(** The only failure of the product is numpy's shape error. *)
Lemma bottleneck_Raise_inv (U : matrix) (s : vector) (VT : matrix) (k : Z) (e : exn) :
  bottleneck U s VT k = Raise e ->
  e = ValueError /\
  (slice_stop (ncols U) k <> slice_stop (vlen s) k \/
   slice_stop (nrows VT) k <> slice_stop (vlen s) k).
Proof.
  intros H.
  destruct (Nat.eq_dec (slice_stop (ncols U) k) (slice_stop (vlen s) k)) as [HU|HU];
  [destruct (Nat.eq_dec (slice_stop (nrows VT) k) (slice_stop (vlen s) k)) as [HV|HV]|].
  - destruct (bottleneck_Ok U s VT k HU HV) as (B & HB & _). congruence.
  - rewrite bottleneck_Raise in H by (right; exact HV).
    split; [congruence|right; exact HV].
  - rewrite bottleneck_Raise in H by (left; exact HU).
    split; [congruence|left; exact HU].
Qed.

Lemma svd_reconstructsb_spec (C U : matrix) (s : vector) (VT : matrix) :
  svd_reconstructsb C U s VT = true -> svd_reconstructs C U s VT.
Proof.
  unfold svd_reconstructsb. intros H i j Hi Hj.
  rewrite forall_lt_spec in H. specialize (H i Hi).
  rewrite forall_lt_spec in H. apply Qeq_bool_iff. now apply H.
Qed.

(** An exact decomposition has the shapes that [fit] relies on, and its
    factors multiply back to the matrix. *)
Lemma is_svd_shapes (C U : matrix) (s : vector) (VT : matrix) :
  is_svd C U s VT -> svd_shapes C U s VT /\ svd_reconstructs C U s VT.
Proof.
  intros [H1 H2 H3 H4 H5 _ _ _ _ H10].
  split; [repeat split; assumption|exact H10].
Qed.

Lemma is_svdb_spec (C U : matrix) (s : vector) (VT : matrix) :
  is_svdb C U s VT = true -> is_svd C U s VT.
Proof.
  unfold is_svdb. rewrite !andb_true_iff, !Nat.eqb_eq.
  intros [[[[[[[[[H1 H2] H3] H4] H5] H6] H7] H8] H9] H10].
  constructor; try assumption.
  - intros a b Ha Hb. unfold orthonormal_colsb in H6.
    rewrite forall_lt_spec in H6. specialize (H6 a Ha).
    rewrite forall_lt_spec in H6. apply Qeq_bool_iff. now apply H6.
  - intros a b Ha Hb. unfold orthonormal_rowsb in H7.
    rewrite forall_lt_spec in H7. specialize (H7 a Ha).
    rewrite forall_lt_spec in H7. apply Qeq_bool_iff. now apply H7.
  - intros l Hl. rewrite forall_lt_spec in H8.
    apply Qle_bool_iff. now apply H8.
  - intros l l' Hll Hl'. rewrite forall_lt_spec in H9. specialize (H9 l' Hl').
    rewrite forall_lt_spec in H9. apply Qle_bool_iff. apply H9. lia.
  - intros i j Hi Hj. rewrite forall_lt_spec in H10. specialize (H10 i Hi).
    rewrite forall_lt_spec in H10. apply Qeq_bool_iff. now apply H10.
Qed.

End Bottleneck.

(** ** [SVDRegressor.fit] and the rank parameter *)

Section RankParameter.
Local Open Scope Q_scope.

Variable LinearRegression_fit : matrix -> matrix -> result matrix.
Variable svd : matrix -> result svd_result.
Variables X y coef_ U VT : matrix.
Variable s : vector.
Hypothesis fit_Ok : LinearRegression_fit X y = Ok coef_.
Hypothesis svd_Ok : svd (transpose coef_) = Ok (U, s, VT).
Hypothesis svd_shaped : svd_shapes (transpose coef_) U s VT.

Lemma SVDRegressor_fit_unfold (k : Z) :
  SVDRegressor_fit LinearRegression_fit svd k X y =
  (b <- bottleneck U s VT k ;; Ok (mkSVDRegressor k coef_ b)).
Proof.
  unfold SVDRegressor_fit. rewrite fit_Ok. cbn [bind].
  rewrite svd_Ok. reflexivity.
Qed.

Lemma svd_slices_agree (k : Z) :
  ((0 <= k)%Z /\ (k <= Z.of_nat (Nat.min (ncols coef_) (nrows coef_)))%Z) \/
  ncols coef_ = nrows coef_ ->
  slice_stop (ncols U) k = slice_stop (vlen s) k /\
  slice_stop (nrows VT) k = slice_stop (vlen s) k.
Proof.
  destruct svd_shaped as (_ & HUc & HVr & _ & Hs).
  cbn [nrows ncols transpose] in *.
  rewrite HUc, HVr, Hs. unfold slice_stop.
  intros [[H0 HK]|Hsq]; destruct (Z.ltb_spec k 0); lia.
Qed.

Lemma svd_slices_differ (k : Z) :
  slice_stop (ncols U) k <> slice_stop (vlen s) k \/
  slice_stop (nrows VT) k <> slice_stop (vlen s) k ->
  ncols coef_ <> nrows coef_ /\
  ((k < 0)%Z \/ (Z.of_nat (Nat.min (ncols coef_) (nrows coef_)) < k)%Z).
Proof.
  intros Hd. split.
  - intros Hsq. destruct (svd_slices_agree k (or_intror Hsq)). tauto.
  - destruct (Z.ltb_spec k 0) as [Hn|Hp]; [left; exact Hn|]. right.
    destruct (Z.leb_spec k (Z.of_nat (Nat.min (ncols coef_) (nrows coef_))))
      as [Hle|Hgt]; [|exact Hgt].
    destruct (svd_slices_agree k (or_introl (conj Hp Hle))). tauto.
Qed.

(** The fitted bottleneck, whenever the shapes of the slices agree. *)
Lemma SVDRegressor_fit_Ok (k : Z) :
  ((0 <= k)%Z /\ (k <= Z.of_nat (Nat.min (ncols coef_) (nrows coef_)))%Z) \/
  ncols coef_ = nrows coef_ ->
  exists self,
    SVDRegressor_fit LinearRegression_fit svd k X y = Ok self /\
    n_components self = k /\ regressor_coef_ self = coef_ /\
    mx_eq (bottleneck_ self) (rank_k_sum U s VT (slice_stop (vlen s) k)).
Proof.
  intros Hk. destruct (svd_slices_agree k Hk) as [HU HV].
  destruct (bottleneck_Ok U s VT k HU HV) as (B & HB & HBeq).
  exists (mkSVDRegressor k coef_ B).
  rewrite SVDRegressor_fit_unfold, HB. cbn [bind].
  repeat split; try reflexivity; apply HBeq.
Qed.

Lemma rank_k_sum_shape (k : nat) :
  nrows (rank_k_sum U s VT k) = ncols coef_ /\
  ncols (rank_k_sum U s VT k) = nrows coef_.
Proof.
  destruct svd_shaped as (HUr & _ & _ & HVc & _).
  cbn [nrows ncols transpose rank_k_sum] in *. split; assumption.
Qed.

(** C5.  The rank is never validated.  Whenever the regression has
    returned and the decomposition has returned factors of the shapes of a
    full SVD: with [n_components = 0] the fit succeeds and stores the
    all-zeros matrix; the only failure is numpy's shape error in the
    product of the slices, raised after the regression and the
    decomposition have been computed, and only for a non-square coefficient
    matrix and a rank below zero or above [min(rows, cols)]. *)
Theorem SVDRegressor_fit_rank_errors (k : Z) :
  (k = 0%Z ->
     exists self,
       SVDRegressor_fit LinearRegression_fit svd k X y = Ok self /\
       mx_eq (bottleneck_ self) (zeros (ncols coef_) (nrows coef_))) /\
  (forall e,
     SVDRegressor_fit LinearRegression_fit svd k X y = Raise e ->
     e = ValueError /\
     ncols coef_ <> nrows coef_ /\
     ((k < 0)%Z \/ (Z.of_nat (Nat.min (ncols coef_) (nrows coef_)) < k)%Z)).
Proof.
  split.
  - intros ->.
    destruct (SVDRegressor_fit_Ok 0) as (self & Hself & _ & _ & HB);
      [left; lia|].
    exists self. split; [exact Hself|].
    rewrite slice_stop_zero in HB.
    destruct HB as (Hr & Hc & He).
    destruct (rank_k_sum_shape 0) as [Hr' Hc'].
    split; [cbn [nrows zeros]; congruence|].
    split; [cbn [ncols zeros]; congruence|].
    intros i j Hi Hj. rewrite (He i j Hi Hj). reflexivity.
  - intros e He. rewrite SVDRegressor_fit_unfold in He.
    destruct (bottleneck U s VT k) as [B|e'] eqn:HB; [discriminate|].
    cbn [bind] in He. injection He as <-.
    destruct (bottleneck_Raise_inv U s VT k e' HB) as [-> Hd].
    split; [reflexivity|]. now apply svd_slices_differ.
Qed.

Lemma svd_slices_beyond (k : Z) :
  (Z.of_nat (Nat.min (ncols coef_) (nrows coef_)) < k)%Z ->
  ncols coef_ <> nrows coef_ ->
  slice_stop (ncols U) k <> slice_stop (vlen s) k \/
  slice_stop (nrows VT) k <> slice_stop (vlen s) k.
Proof.
  destruct svd_shaped as (_ & HUc & HVr & _ & Hs).
  cbn [nrows ncols transpose] in *.
  rewrite HUc, HVr, Hs. unfold slice_stop.
  intros HK Hns. destruct (Z.ltb_spec k 0); lia.
Qed.

(** C10.  Let [k >= 0], and let the regression have returned and the
    decomposition have returned factors of the shapes of a full SVD.  If
    [k] is at most [min(rows, cols)] of the coefficient matrix, or that
    matrix is square, [fit] completes: with [k = 0] the stored bottleneck
    is the all-zeros matrix and [predict] returns all-zero predictions;
    with [k >= min(rows, cols)] the bottleneck is the full product
    [U[:, :K] @ diag(s) @ VT[:K]], which is the coefficient matrix whenever
    the factors multiply back to it.  If the coefficient matrix is not
    square and [k > min(rows, cols)], the slices do not agree in shape and
    [fit] raises numpy's [ValueError]. *)
Theorem SVDRegressor_fit_total_in_range (k : Z) :
  (0 <= k)%Z ->
  ((k <= Z.of_nat (Nat.min (ncols coef_) (nrows coef_)))%Z \/
   ncols coef_ = nrows coef_ ->
   exists self,
     SVDRegressor_fit LinearRegression_fit svd k X y = Ok self /\
     n_components self = k /\ regressor_coef_ self = coef_ /\
     nrows (bottleneck_ self) = ncols coef_ /\
     ncols (bottleneck_ self) = nrows coef_ /\
     (k = 0%Z ->
        mx_eq (bottleneck_ self) (zeros (ncols coef_) (nrows coef_)) /\
        forall X', ncols X' = ncols coef_ ->
          exists Yp, SVDRegressor_predict self X' = Ok Yp /\
                     mx_eq Yp (zeros (nrows X') (nrows coef_))) /\
     ((Z.of_nat (Nat.min (ncols coef_) (nrows coef_)) <= k)%Z ->
        mx_eq (bottleneck_ self) (rank_k_sum U s VT (vlen s)) /\
        (svd_reconstructs (transpose coef_) U s VT ->
         mx_eq (bottleneck_ self) (transpose coef_)))) /\
  ((Z.of_nat (Nat.min (ncols coef_) (nrows coef_)) < k)%Z ->
   ncols coef_ <> nrows coef_ ->
   SVDRegressor_fit LinearRegression_fit svd k X y = Raise ValueError).
Proof.
  intros H0. split.
  2:{ intros HK Hns. rewrite SVDRegressor_fit_unfold.
      rewrite bottleneck_Raise by (now apply svd_slices_beyond).
      reflexivity. }
  intros Hk.
  assert (Hk' : ((0 <= k)%Z /\
                 (k <= Z.of_nat (Nat.min (ncols coef_) (nrows coef_)))%Z) \/
                ncols coef_ = nrows coef_) by tauto.
  destruct (SVDRegressor_fit_Ok k Hk') as (self & Hself & Hn & Hc & HB).
  destruct (rank_k_sum_shape (slice_stop (vlen s) k)) as [Hr' Hc'].
  pose proof HB as (HBr & HBc & HBe).
  assert (Hrows : nrows (bottleneck_ self) = ncols coef_) by congruence.
  assert (Hcols : ncols (bottleneck_ self) = nrows coef_) by congruence.
  exists self. repeat (split; [assumption|]).
  assert (Hs : vlen s = Nat.min (ncols coef_) (nrows coef_))
    by (destruct svd_shaped as (_ & _ & _ & _ & Hs); exact Hs).
  split.
  - intros ->. rewrite slice_stop_zero in HBe.
    assert (Hzero : mx_eq (bottleneck_ self) (zeros (ncols coef_) (nrows coef_))).
    { split; [exact Hrows|]. split; [exact Hcols|].
      intros i j Hi Hj. rewrite (HBe i j Hi Hj). reflexivity. }
    split; [exact Hzero|].
    intros X' HX'. unfold SVDRegressor_predict.
    rewrite matmul_Ok by congruence.
    eexists. split; [reflexivity|].
    split; [reflexivity|]. split; [exact Hcols|].
    cbn [nrows ncols entry zeros]. intros i j Hi Hj.
    apply qsum_zero. intros l Hl.
    destruct Hzero as (_ & _ & Hz).
    rewrite (Hz l j) by lia. cbn [entry zeros]. ring.
  - intros HK.
    assert (Hfull : slice_stop (vlen s) k = vlen s)
      by (apply slice_stop_beyond; lia).
    rewrite Hfull in HB.
    split; [exact HB|].
    intros Hrecon.
    split; [exact Hrows|]. split; [exact Hcols|].
    intros i j Hi Hj. destruct HB as (_ & _ & He).
    rewrite (He i j Hi Hj). cbn [entry rank_k_sum].
    symmetry. apply Hrecon; cbn [nrows ncols transpose]; lia.
Qed.

End RankParameter.

Section RankInstances.
Local Open Scope Q_scope.

Lemma column_X_one_hot : one_hot column_X.
Proof. apply one_hotb_spec. vm_compute. reflexivity. Qed.

Lemma column_X_seen : every_word_seen column_X.
Proof. apply every_word_seenb_spec. vm_compute. reflexivity. Qed.

Lemma column_svd_valid :
  is_svd (transpose (transpose (conditional_frequency column_X column_y)))
         (eye 2) (of_list [1]) (eye 1).
Proof. apply is_svdb_spec. vm_compute. reflexivity. Qed.

Lemma unit_X_one_hot : one_hot unit_X.
Proof. apply one_hotb_spec. vm_compute. reflexivity. Qed.

Lemma unit_X_seen : every_word_seen unit_X.
Proof. apply every_word_seenb_spec. vm_compute. reflexivity. Qed.

Lemma unit_svd_valid :
  is_svd (transpose (transpose (conditional_frequency unit_X unit_X)))
         (eye 1) (of_list [1]) (eye 1).
Proof. apply is_svdb_spec. vm_compute. reflexivity. Qed.

(** Against C5 as stated: rank 0 on the 1 x 1 coefficient matrix.  The
    regression and the decomposition are valid, [fit] returns a fitted
    object whose bottleneck is the zero matrix, and no error is raised. *)
Lemma SVDRegressor_fit_rank_zero_succeeds :
  lstsq_contract frequency_fit unit_X unit_X /\
  is_svd (transpose (transpose (conditional_frequency unit_X unit_X)))
         (eye 1) (of_list [1]) (eye 1) /\
  (exists self,
     SVDRegressor_fit frequency_fit unit_svd 0 unit_X unit_X = Ok self /\
     mx_eq (bottleneck_ self) (zeros 1 1)) /\
  forall e, SVDRegressor_fit frequency_fit unit_svd 0 unit_X unit_X <> Raise e.
Proof.
  split.
  { eexists. split; [reflexivity|].
    exact (conditional_frequency_least_squares unit_X unit_X eq_refl
             unit_X_one_hot unit_X_seen). }
  split; [exact unit_svd_valid|].
  split.
  - eexists. split; [reflexivity|].
    apply mx_eqb_spec. vm_compute. reflexivity.
  - intros e H. discriminate H.
Qed.

Lemma SVDRegressor_fit_rank_errors_witness :
  (0%Z = 0%Z ->
     exists self,
       SVDRegressor_fit frequency_fit orthogonal_svd 0 example_P example_F
       = Ok self /\
       mx_eq (bottleneck_ self) (zeros 2 2)) /\
  (forall e,
     SVDRegressor_fit frequency_fit orthogonal_svd 0 example_P example_F
     = Raise e ->
     e = ValueError /\
     (2 <> 2)%nat /\
     ((0 < 0)%Z \/ (Z.of_nat (Nat.min 2 2) < 0)%Z)).
Proof.
  apply (SVDRegressor_fit_rank_errors frequency_fit orthogonal_svd
           example_P example_F
           (transpose (conditional_frequency example_P example_F))
           (eye 2)
           (transpose (transpose (conditional_frequency example_P example_F)))
           (mkVec 2 (fun _ => 1))).
  - reflexivity.
  - reflexivity.
  - repeat split.
Defined.

(** Against C10 as stated: rank 2 on the 2 x 1 coefficient matrix.  The
    regression and the decomposition are valid and the rank is
    non-negative, yet [fit] raises numpy's shape error, because
    [U[:, :2]] has two columns and [diag(s[:2])] a single row. *)
Lemma SVDRegressor_fit_not_total :
  lstsq_contract frequency_fit column_X column_y /\
  is_svd (transpose (transpose (conditional_frequency column_X column_y)))
         (eye 2) (of_list [1]) (eye 1) /\
  (0 <= 2)%Z /\
  SVDRegressor_fit frequency_fit column_svd 2 column_X column_y
  = Raise ValueError.
Proof.
  split.
  { eexists. split; [reflexivity|].
    exact (conditional_frequency_least_squares column_X column_y eq_refl
             column_X_one_hot column_X_seen). }
  split; [exact column_svd_valid|].
  split; [lia|]. reflexivity.
Qed.

Lemma SVDRegressor_fit_total_in_range_witness :
  svd_reconstructs
    (transpose (transpose (conditional_frequency column_X column_y)))
    (eye 2) (of_list [1]) (eye 1) /\
  ((1 <= Z.of_nat (Nat.min 2 1))%Z \/ 2%nat = 1%nat ->
   exists self,
     SVDRegressor_fit frequency_fit column_svd 1 column_X column_y = Ok self /\
     n_components self = 1%Z /\
     regressor_coef_ self = transpose (conditional_frequency column_X column_y) /\
     nrows (bottleneck_ self) = 2%nat /\
     ncols (bottleneck_ self) = 1%nat /\
     (1%Z = 0%Z ->
        mx_eq (bottleneck_ self) (zeros 2 1) /\
        forall X', ncols X' = 2%nat ->
          exists Yp, SVDRegressor_predict self X' = Ok Yp /\
                     mx_eq Yp (zeros (nrows X') 1)) /\
     ((Z.of_nat (Nat.min 2 1) <= 1)%Z ->
        mx_eq (bottleneck_ self) (rank_k_sum (eye 2) (of_list [1]) (eye 1) 1) /\
        (svd_reconstructs
           (transpose (transpose (conditional_frequency column_X column_y)))
           (eye 2) (of_list [1]) (eye 1) ->
         mx_eq (bottleneck_ self)
               (transpose (transpose (conditional_frequency column_X column_y)))))) /\
  ((Z.of_nat (Nat.min 2 1) < 1)%Z ->
   2%nat <> 1%nat ->
   SVDRegressor_fit frequency_fit column_svd 1 column_X column_y
   = Raise ValueError).
Proof.
  split; [apply svd_reconstructsb_spec; vm_compute; reflexivity|].
  apply (SVDRegressor_fit_total_in_range frequency_fit column_svd
           column_X column_y
           (transpose (conditional_frequency column_X column_y))
           (eye 2) (eye 1) (of_list [1])).
  - reflexivity.
  - reflexivity.
  - repeat split.
  - lia.
Defined.

End RankInstances.

(** ** Finite sums of reals *)

Section RealSums.
Import RealArrays.
Local Open Scope R_scope.

Lemma rsum_ext (n : nat) (f g : nat -> R) :
  (forall i, (i < n)%nat -> f i = g i) -> rsum n f = rsum n g.
Proof.
  induction n as [|n IH]; intros H; cbn [rsum].
  - reflexivity.
  - rewrite IH, (H n) by (intros; try apply H; lia). reflexivity.
Qed.

Lemma rsum_zero (n : nat) (f : nat -> R) :
  (forall i, (i < n)%nat -> f i = 0) -> rsum n f = 0.
Proof.
  induction n as [|n IH]; intros H; cbn [rsum].
  - reflexivity.
  - rewrite IH, (H n) by (intros; try apply H; lia). lra.
Qed.

Lemma rsum_plus (n : nat) (f g : nat -> R) :
  rsum n (fun i => f i + g i) = rsum n f + rsum n g.
Proof.
  induction n as [|n IH]; cbn [rsum]; [|rewrite IH]; lra.
Qed.

Lemma rsum_minus (n : nat) (f g : nat -> R) :
  rsum n (fun i => f i - g i) = rsum n f - rsum n g.
Proof.
  induction n as [|n IH]; cbn [rsum]; [|rewrite IH]; lra.
Qed.

Lemma rsum_scal_l (n : nat) (c : R) (f : nat -> R) :
  rsum n (fun i => c * f i) = c * rsum n f.
Proof.
  induction n as [|n IH]; cbn [rsum]; [|rewrite IH]; lra.
Qed.

Lemma rsum_scal_r (n : nat) (c : R) (f : nat -> R) :
  rsum n (fun i => f i * c) = rsum n f * c.
Proof.
  induction n as [|n IH]; cbn [rsum]; [|rewrite IH]; lra.
Qed.

Lemma rsum_swap (n m : nat) (f : nat -> nat -> R) :
  rsum n (fun i => rsum m (fun j => f i j)) =
  rsum m (fun j => rsum n (fun i => f i j)).
Proof.
  induction n as [|n IH]; cbn [rsum].
  - symmetry. apply rsum_zero. reflexivity.
  - rewrite IH, <- rsum_plus. reflexivity.
Qed.

Lemma rsum_nonneg (n : nat) (f : nat -> R) :
  (forall i, (i < n)%nat -> 0 <= f i) -> 0 <= rsum n f.
Proof.
  induction n as [|n IH]; intros H; cbn [rsum].
  - lra.
  - assert (0 <= rsum n f) by (apply IH; intros; apply H; lia).
    assert (0 <= f n) by (apply H; lia). lra.
Qed.

Lemma rsum_le (n : nat) (f g : nat -> R) :
  (forall i, (i < n)%nat -> f i <= g i) -> rsum n f <= rsum n g.
Proof.
  induction n as [|n IH]; intros H; cbn [rsum].
  - lra.
  - assert (rsum n f <= rsum n g) by (apply IH; intros; apply H; lia).
    assert (f n <= g n) by (apply H; lia). lra.
Qed.

Lemma real_delta_refl (i : nat) : delta i i = 1.
Proof. unfold delta. rewrite Nat.eqb_refl. reflexivity. Qed.

Lemma real_delta_sym (i j : nat) : delta i j = delta j i.
Proof. unfold delta. rewrite Nat.eqb_sym. reflexivity. Qed.

Lemma real_delta_shift (k l p : nat) : delta (k + l) (k + p) = delta l p.
Proof.
  unfold delta.
  destruct (Nat.eqb_spec (k + l) (k + p)), (Nat.eqb_spec l p);
    try reflexivity; lia.
Qed.

Lemma rsum_delta_r (n j : nat) (f : nat -> R) :
  (j < n)%nat -> rsum n (fun i => f i * delta j i) = f j.
Proof.
  induction n as [|n IH]; intros Hj; [lia|]. cbn [rsum].
  destruct (Nat.eq_dec j n) as [->|Hne].
  - rewrite real_delta_refl, rsum_zero; [lra|].
    intros i Hi. unfold delta.
    destruct (Nat.eqb_spec n i); [lia|lra].
  - rewrite IH by lia. unfold delta.
    destruct (Nat.eqb_spec j n); [contradiction|lra].
Qed.

Lemma rsum_split (k n : nat) (f : nat -> R) :
  (k <= n)%nat ->
  rsum n f = rsum k f + rsum (n - k) (fun i => f (k + i)%nat).
Proof.
  intros Hk. induction n as [|n IH].
  - replace k with O by lia. cbn [rsum Nat.sub]. lra.
  - destruct (Nat.eq_dec k (S n)) as [->|Hne].
    + rewrite Nat.sub_diag. cbn [rsum]. lra.
    + replace (S n - k)%nat with (S (n - k)) by lia. cbn [rsum].
      rewrite IH by lia. replace (k + (n - k))%nat with n by lia. lra.
Qed.

Lemma rsum_mul (n m : nat) (f g : nat -> R) :
  rsum n f * rsum m g = rsum n (fun i => rsum m (fun j => f i * g j)).
Proof.
  rewrite <- rsum_scal_r. apply rsum_ext. intros i _.
  rewrite rsum_scal_l. reflexivity.
Qed.

Lemma rsum_skip (n p : nat) (f : nat -> R) :
  (p <= n)%nat ->
  rsum (S n) f = rsum n (fun l => f (skip p l)) + f p.
Proof.
  intros Hp. induction n as [|n IH].
  - assert (p = 0)%nat by lia. subst. cbn [rsum]. lra.
  - destruct (Nat.eq_dec p (S n)) as [->|Hne].
    + change (rsum (S (S n)) f) with (rsum (S n) f + f (S n)).
      f_equal. apply rsum_ext. intros l Hl. unfold skip.
      destruct (Nat.ltb_spec l (S n)); [reflexivity|lia].
    + change (rsum (S (S n)) f) with (rsum (S n) f + f (S n)).
      rewrite IH by lia.
      change (rsum (S n) (fun l => f (skip p l)))
        with (rsum n (fun l => f (skip p l)) + f (skip p n)).
      assert (Hs : skip p n = S n)
        by (unfold skip; destruct (Nat.ltb_spec n p); [lia|reflexivity]).
      rewrite Hs. lra.
Qed.

Lemma rsum_swap3 (a b c : nat) (g : nat -> nat -> nat -> R) :
  rsum a (fun t => rsum b (fun j => rsum c (fun l => g t j l))) =
  rsum c (fun l => rsum b (fun j => rsum a (fun t => g t j l))).
Proof.
  rewrite rsum_swap.
  rewrite (rsum_ext b _ (fun j => rsum c (fun l => rsum a (fun t => g t j l))))
    by (intros; apply rsum_swap).
  apply rsum_swap.
Qed.

End RealSums.

(** ** More vectors than dimensions *)

Section Dependence.
Import RealArrays.
Local Open Scope R_scope.

Lemma unskip_skip (p l : nat) : unskip p (skip p l) = l.
Proof.
  unfold unskip, skip.
  destruct (Nat.ltb_spec l p) as [H|H].
  - destruct (Nat.ltb_spec l p); [reflexivity|lia].
  - destruct (Nat.ltb_spec (S l) p); [lia|reflexivity].
Qed.

Lemma skip_neq (p l : nat) : skip p l <> p.
Proof. unfold skip. destruct (Nat.ltb_spec l p); lia. Qed.

Lemma skip_bound (p l n : nat) : (l < n)%nat -> (skip p l < S n)%nat.
Proof. unfold skip. destruct (Nat.ltb_spec l p); lia. Qed.

Lemma bounded_zero_dec (n : nat) (f : nat -> R) :
  (forall l, (l < n)%nat -> f l = 0) \/
  (exists p, (p < n)%nat /\ f p <> 0).
Proof.
  induction n as [|n [IH|[p [Hp Hf]]]].
  - left. intros l Hl. lia.
  - destruct (Req_dec (f n) 0) as [Hz|Hnz].
    + left. intros l Hl. destruct (Nat.eq_dec l n) as [->|Hne];
        [exact Hz|apply IH; lia].
    + right. exists n. split; [lia|exact Hnz].
  - right. exists p. split; [lia|exact Hf].
Qed.

(** Any [k+1] vectors with [k] coordinates satisfy a non-trivial linear
    relation. *)
Lemma linear_dependence (k : nat) (g : nat -> nat -> R) :
  exists lam : nat -> R,
    (exists l, (l <= k)%nat /\ lam l <> 0) /\
    forall m, (m < k)%nat -> rsum (S k) (fun l => lam l * g l m) = 0.
Proof.
  revert g. induction k as [|k IH]; intros g.
  - exists (fun _ => 1). split.
    + exists O. split; [lia|]. lra.
    + intros m Hm. lia.
  - destruct (bounded_zero_dec (S (S k)) (fun l => g l k)) as [Hcol|[p [Hp Hpk]]].
    + destruct (IH g) as (lam & (l0 & Hl0 & Hnz) & Hrel).
      exists (fun l => if (l <=? k)%nat then lam l else 0). split.
      * exists l0. split; [lia|].
        destruct (Nat.leb_spec l0 k); [exact Hnz|lia].
      * intros m Hm.
        change (rsum (S (S k)) (fun l => (if (l <=? k)%nat then lam l else 0) * g l m))
          with (rsum (S k) (fun l => (if (l <=? k)%nat then lam l else 0) * g l m)
                + (if (S k <=? k)%nat then lam (S k) else 0) * g (S k) m).
        destruct (Nat.leb_spec (S k) k) as [Hbad|_]; [lia|].
        destruct (Nat.eq_dec m k) as [->|Hne].
        -- rewrite rsum_zero; [ring|].
           intros l Hl. rewrite (Hcol l) by lia. ring.
        -- rewrite (rsum_ext _ _ (fun l => lam l * g l m)).
           ++ rewrite (Hrel m) by lia. ring.
           ++ intros l Hl. destruct (Nat.leb_spec l k); [reflexivity|lia].
    + set (g' := fun l m => g (skip p l) m - g (skip p l) k / g p k * g p m).
      destruct (IH g') as (mu & (l0 & Hl0 & Hnz) & Hrel).
      set (c := rsum (S k) (fun l => mu l * g (skip p l) k)).
      exists (fun l => if Nat.eqb l p then - c / g p k else mu (unskip p l)).
      split.
      * exists (skip p l0). split.
        -- pose proof (skip_bound p l0 (S k)). lia.
        -- pose proof (skip_neq p l0) as Hne. apply Nat.eqb_neq in Hne.
           rewrite Hne, unskip_skip. exact Hnz.
      * intros m Hm.
        rewrite (rsum_skip (S k) p) by lia.
        rewrite Nat.eqb_refl.
        rewrite (rsum_ext _ _ (fun l => mu l * g (skip p l) m)).
        2:{ intros l Hl. pose proof (skip_neq p l) as Hne.
            apply Nat.eqb_neq in Hne. rewrite Hne, unskip_skip. reflexivity. }
        assert (Hcomb : rsum (S k) (fun l => mu l * g' l m) =
                        rsum (S k) (fun l => mu l * g (skip p l) m)
                        + - c / g p k * g p m).
        { unfold g', c.
          rewrite (rsum_ext _ _ (fun l => mu l * g (skip p l) m
                     - mu l * g (skip p l) k * (/ g p k * g p m))).
          - rewrite rsum_minus, rsum_scal_r. field. exact Hpk.
          - intros l Hl. field. exact Hpk. }
        rewrite <- Hcomb.
        destruct (Nat.eq_dec m k) as [->|Hne].
        -- apply rsum_zero. intros l Hl. unfold g'. field. exact Hpk.
        -- apply Hrel. lia.
Qed.

End Dependence.

(** ** The product of the slices on real arrays *)

Section RealBottleneck.
Import RealArrays.
Local Open Scope R_scope.

Lemma real_matmul_Ok (A B : matrix) :
  ncols A = nrows B ->
  matmul A B =
  Ok (mkMat (nrows A) (ncols B)
        (fun i j => rsum (ncols A) (fun l => entry A i l * entry B l j))).
Proof. intros H. unfold matmul. rewrite H, Nat.eqb_refl. reflexivity. Qed.

Lemma real_mx_eq_within_tol (eps : R) (A B : matrix) :
  0 <= eps -> mx_eq A B -> within_tol eps A B.
Proof.
  intros Heps (Hr & Hc & He).
  split; [exact Hr|]. split; [exact Hc|].
  intros i j Hi Hj. rewrite (He i j Hi Hj).
  replace (entry B i j - entry B i j) with 0 by ring.
  rewrite Rabs_R0. exact Heps.
Qed.

Lemma real_diag_select_r (n l : nat) (u s : nat -> R) :
  (l < n)%nat ->
  rsum n (fun m => u m * (if Nat.eqb m l then s m else 0)) = u l * s l.
Proof.
  intros Hl. rewrite <- (rsum_delta_r n l (fun m => u m * s m) Hl).
  apply rsum_ext. intros m _. unfold delta. rewrite (Nat.eqb_sym l m).
  destruct (Nat.eqb m l); ring.
Qed.

(** The product of the three slices, when the shapes agree, is the sum of
    the leading rank-one terms. *)
Lemma real_bottleneck_Ok (U : matrix) (s : vector) (VT : matrix) (k : Z) :
  slice_stop (ncols U) k = slice_stop (vlen s) k ->
  slice_stop (nrows VT) k = slice_stop (vlen s) k ->
  exists B, bottleneck U s VT k = Ok B /\
    nrows B = nrows U /\ ncols B = ncols VT /\
    forall i j, (i < nrows U)%nat -> (j < ncols VT)%nat ->
      entry B i j =
      rsum (slice_stop (vlen s) k)
        (fun l => entry U i l * vget s l * entry VT l j).
Proof.
  intros HU HV. unfold bottleneck.
  rewrite real_matmul_Ok by exact HU. cbn [bind].
  rewrite real_matmul_Ok by (symmetry; exact HV).
  eexists. split; [reflexivity|].
  split; [reflexivity|]. split; [reflexivity|].
  cbn [nrows ncols entry cols_upto rows_upto diag vec_upto vlen vget].
  intros i j Hi Hj. rewrite HU. apply rsum_ext. intros l Hl.
  rewrite (real_diag_select_r _ l (entry U i) (vget s) Hl). reflexivity.
Qed.

End RealBottleneck.

(** ** Truncating a matrix of low rank *)

Section Truncation.
Import RealArrays.
Local Open Scope R_scope.

Variables M U VT : matrix.
Variable s : vector.
Hypothesis M_svd : is_svd M U s VT.

Lemma svd_dims :
  nrows U = nrows M /\ ncols U = nrows M /\
  nrows VT = ncols M /\ ncols VT = ncols M /\
  (vlen s <= nrows M)%nat /\ (vlen s <= ncols M)%nat.
Proof.
  destruct M_svd as [H1 H2 H3 H4 H5 _ _ _ _ _].
  repeat split; try assumption; lia.
Qed.

(** Projecting row [i] of [M] on the [l]-th right singular vector. *)
Lemma svd_project (i l : nat) :
  (i < nrows M)%nat -> (l < vlen s)%nat ->
  rsum (ncols M) (fun j => entry M i j * entry VT l j) =
  entry U i l * vget s l.
Proof.
  intros Hi Hl.
  destruct svd_dims as (_ & _ & HVr & HVc & _ & Hsc).
  rewrite (rsum_ext _ _ (fun j => rsum (vlen s) (fun l' =>
             entry U i l' * vget s l' * (entry VT l' j * entry VT l j)))).
  - rewrite rsum_swap.
    rewrite (rsum_ext _ _ (fun l' => entry U i l' * vget s l' * delta l l')).
    + apply (rsum_delta_r (vlen s) l (fun l' => entry U i l' * vget s l') Hl).
    + intros l' Hl'. rewrite rsum_scal_l.
      rewrite <- HVc.
      rewrite (svd_VT_orth _ _ _ _ M_svd l' l) by lia.
      rewrite (real_delta_sym l' l). reflexivity.
  - intros j Hj.
    rewrite (svd_recon _ _ _ _ M_svd i j Hi Hj).
    rewrite <- rsum_scal_r. apply rsum_ext. intros; ring.
Qed.

(** A matrix of rank at most [k] has at most [k] non-zero singular
    values. *)
Lemma svd_tail_zero (k l0 : nat) :
  low_rank M k -> (k <= l0)%nat -> (l0 < vlen s)%nat -> vget s l0 = 0.
Proof.
  intros (X & Y & HXY) Hk Hl0.
  destruct (Req_dec (vget s l0) 0) as [Hz|Hnz]; [exact Hz|exfalso].
  destruct svd_dims as (HUr & HUc & HVr & HVc & Hsr & Hsc).
  assert (Hpos : forall l, (l <= k)%nat -> 0 < vget s l).
  { intros l Hl.
    pose proof (svd_s_nonneg _ _ _ _ M_svd l0 Hl0).
    pose proof (svd_s_sorted _ _ _ _ M_svd l l0 ltac:(lia) Hl0).
    lra. }
  set (g := fun l m =>
              rsum (ncols M) (fun j => entry Y m j * entry VT l j) / vget s l).
  assert (HUg : forall i l, (i < nrows M)%nat -> (l <= k)%nat ->
            entry U i l = rsum k (fun m => entry X i m * g l m)).
  { intros i l Hi Hl. pose proof (Hpos l Hl) as Hsl.
    assert (E : entry U i l * vget s l =
                rsum k (fun m => entry X i m *
                  rsum (ncols M) (fun j => entry Y m j * entry VT l j))).
    { rewrite <- (svd_project i l Hi) by lia.
      rewrite (rsum_ext (ncols M) _ (fun j => rsum k (fun m =>
                 entry X i m * (entry Y m j * entry VT l j)))).
      - rewrite rsum_swap. apply rsum_ext. intros m Hm.
        rewrite rsum_scal_l. reflexivity.
      - intros j Hj. rewrite (HXY i j Hi Hj).
        rewrite <- rsum_scal_r. apply rsum_ext. intros; ring. }
    unfold g.
    rewrite (rsum_ext k _ (fun m => (entry X i m *
               rsum (ncols M) (fun j => entry Y m j * entry VT l j))
               * / vget s l)).
    - rewrite rsum_scal_r, <- E. field. lra.
    - intros m Hm. unfold Rdiv. ring. }
  destruct (linear_dependence k g) as (lam & (l1 & Hl1 & Hnz1) & Hrel).
  assert (Hcomb : forall i, (i < nrows M)%nat ->
            rsum (S k) (fun l => lam l * entry U i l) = 0).
  { intros i Hi.
    rewrite (rsum_ext (S k) _ (fun l => rsum k (fun m =>
               entry X i m * (lam l * g l m)))).
    - rewrite rsum_swap. apply rsum_zero. intros m Hm.
      rewrite rsum_scal_l, (Hrel m Hm). ring.
    - intros l Hl. rewrite (HUg i l Hi) by lia.
      rewrite <- rsum_scal_l. apply rsum_ext. intros; ring. }
  apply Hnz1.
  rewrite <- (rsum_delta_r (S k) l1 lam) by lia.
  rewrite (rsum_ext (S k) _ (fun l => rsum (nrows M) (fun i =>
             entry U i l1 * (lam l * entry U i l)))).
  - rewrite rsum_swap. apply rsum_zero. intros i Hi.
    rewrite rsum_scal_l, (Hcomb i Hi). ring.
  - intros l Hl.
    rewrite <- (svd_U_orth _ _ _ _ M_svd l1 l) by lia.
    rewrite HUr, <- rsum_scal_l. apply rsum_ext. intros; ring.
Qed.

Lemma svd_slices_inside (k : nat) :
  (k <= vlen s)%nat ->
  slice_stop (ncols U) (Z.of_nat k) = slice_stop (vlen s) (Z.of_nat k) /\
  slice_stop (nrows VT) (Z.of_nat k) = slice_stop (vlen s) (Z.of_nat k) /\
  slice_stop (vlen s) (Z.of_nat k) = k.
Proof.
  intros Hk. destruct svd_dims as (_ & HUc & HVr & _ & Hsr & Hsc).
  rewrite !slice_stop_inside by lia. lia.
Qed.

(** The rank-[k] truncation is the sum of the [k] leading terms. *)
Lemma bottleneck_truncates (k : nat) :
  (k <= vlen s)%nat ->
  exists B, bottleneck U s VT (Z.of_nat k) = Ok B /\
    nrows B = nrows M /\ ncols B = ncols M /\
    forall i j, (i < nrows M)%nat -> (j < ncols M)%nat ->
      entry B i j =
      rsum k (fun l => entry U i l * vget s l * entry VT l j).
Proof.
  intros Hk. destruct (svd_slices_inside k Hk) as (HU & HV & Hkk).
  destruct (real_bottleneck_Ok U s VT _ HU HV) as (B & HB & Hr & Hc & He).
  destruct svd_dims as (HUr & _ & _ & HVc & _).
  exists B. split; [exact HB|].
  split; [congruence|]. split; [congruence|].
  intros i j Hi Hj. rewrite (He i j) by congruence.
  rewrite Hkk. reflexivity.
Qed.

(** Truncating a matrix of rank at most [k] at rank [k] returns it. *)
Lemma bottleneck_of_low_rank (k : nat) :
  low_rank M k -> (k <= vlen s)%nat ->
  exists B, bottleneck U s VT (Z.of_nat k) = Ok B /\ mx_eq B M.
Proof.
  intros Hlow Hk.
  destruct (bottleneck_truncates k Hk) as (B & HB & Hr & Hc & He).
  exists B. split; [exact HB|].
  split; [exact Hr|]. split; [exact Hc|].
  rewrite Hr, Hc. intros i j Hi Hj.
  rewrite (He i j Hi Hj), (svd_recon _ _ _ _ M_svd i j Hi Hj).
  rewrite (rsum_split k (vlen s)) by exact Hk.
  rewrite (rsum_zero (vlen s - k)).
  - ring.
  - intros l Hl. rewrite (svd_tail_zero k (k + l) Hlow) by lia. ring.
Qed.

End Truncation.

Section RealInstances.
Import RealArrays.
Local Open Scope R_scope.

Lemma half_sqrt2_sq : half_sqrt2 * half_sqrt2 = 1 / 2.
Proof.
  unfold half_sqrt2. pose proof (sqrt_sqrt 2 ltac:(lra)). nra.
Qed.

Lemma half_sqrt2_pos : 0 < half_sqrt2.
Proof.
  unfold half_sqrt2. pose proof (sqrt_lt_R0 2 ltac:(lra)). lra.
Qed.

(** The symmetric table has a decomposition, with irrational factors. *)
Lemma symmetric_svd : is_svd symmetric_C symmetric_U symmetric_s symmetric_VT.
Proof.
  pose proof half_sqrt2_sq as Hh.
  constructor; try reflexivity.
  - intros [|[|a]] [|[|b]] Ha Hb; cbn in Ha, Hb; try lia;
      cbn -[half_sqrt2]; nra.
  - intros [|[|a]] [|[|b]] Ha Hb; cbn in Ha, Hb; try lia;
      cbn -[half_sqrt2]; nra.
  - intros [|[|l]] Hl; cbn in Hl; try lia; cbn; lra.
  - intros [|[|l]] [|[|l']] Hll Hl'; cbn in Hl'; try lia; cbn; lra.
  - intros [|[|i]] [|[|j]] Hi Hj; cbn in Hi, Hj; try lia;
      cbn -[half_sqrt2]; nra.
Qed.

(** So has the table of a single past word, with an irrational singular
    value. *)
Lemma coin_svd : is_svd coin_C coin_U coin_s coin_VT.
Proof.
  pose proof half_sqrt2_sq as Hh. pose proof half_sqrt2_pos as Hp.
  constructor; try reflexivity.
  - intros [|a] [|b] Ha Hb; cbn in Ha, Hb; try lia; cbn; lra.
  - intros [|[|a]] [|[|b]] Ha Hb; cbn in Ha, Hb; try lia;
      cbn -[half_sqrt2]; nra.
  - intros [|l] Hl; cbn in Hl; try lia. cbn -[half_sqrt2]. lra.
  - intros [|l] [|l'] Hll Hl'; cbn in Hl'; try lia. cbn -[half_sqrt2]. lra.
  - intros [|i] [|[|j]] Hi Hj; cbn in Hi, Hj; try lia;
      cbn -[half_sqrt2]; nra.
Qed.

(** Truncating the table of a single past word at its only rank returns
    it. *)
Example coin_truncation_example :
  exists B, bottleneck coin_U coin_s coin_VT 1 = Ok B /\ mx_eq B coin_C.
Proof.
  pose proof half_sqrt2_sq as Hh.
  eexists. split; [reflexivity|].
  split; [reflexivity|]. split; [reflexivity|].
  intros [|i] [|[|j]] Hi Hj; cbn in Hi, Hj; try lia;
    cbn -[half_sqrt2]; change (Pos.to_nat 1) with 1%nat;
    cbn -[half_sqrt2]; nra.
Qed.

End RealInstances.

Section TruncationTheorem.
Import RealArrays.
Local Open Scope R_scope.

(** C4.  On real arrays, for every matrix [C] with decomposition
    [U, s, VT] and every [0 < k <= min(rows, cols)], the truncation of [C]
    at rank [k] is the product [U[:, :k] @ diag(s[:k]) @ VT[:k]], the sum
    of the [k] leading terms of the decomposition.  Truncation is
    idempotent: decomposing the result again and truncating it at rank [k]
    returns the same matrix, as does truncating any matrix of rank at most
    [k]; and at [k = min(rows, cols)] the truncation returns [C] itself.
    The equalities are exact, hence within every tolerance. *)
Theorem bottleneck_truncation
    (C U : RealArrays.matrix) (s : RealArrays.vector) (VT : RealArrays.matrix)
    (k : nat) :
  RealArrays.is_svd C U s VT ->
  (0 < k)%nat -> (k <= Nat.min (nrows C) (ncols C))%nat ->
  exists B,
    RealArrays.bottleneck U s VT (Z.of_nat k) = Ok B /\
    nrows B = nrows C /\ ncols B = ncols C /\
    (forall i j, (i < nrows C)%nat -> (j < ncols C)%nat ->
       entry B i j =
       rsum k (fun l => entry U i l * vget s l * entry VT l j)) /\
    (forall U' s' VT', RealArrays.is_svd B U' s' VT' ->
       exists B', RealArrays.bottleneck U' s' VT' (Z.of_nat k) = Ok B' /\
                  RealArrays.mx_eq B' B /\
                  forall eps, 0 <= eps -> RealArrays.within_tol eps B' B) /\
    (forall M U' s' VT',
       RealArrays.low_rank M k -> (k <= Nat.min (nrows M) (ncols M))%nat ->
       RealArrays.is_svd M U' s' VT' ->
       exists B', RealArrays.bottleneck U' s' VT' (Z.of_nat k) = Ok B' /\
                  RealArrays.mx_eq B' M /\
                  forall eps, 0 <= eps -> RealArrays.within_tol eps B' M) /\
    (k = Nat.min (nrows C) (ncols C) ->
       RealArrays.mx_eq B C /\
       forall eps, 0 <= eps -> RealArrays.within_tol eps B C).
Proof.
  intros Hsvd H0 Hk.
  assert (Hs : vlen s = Nat.min (nrows C) (ncols C))
    by (destruct Hsvd; assumption).
  destruct (bottleneck_truncates C U VT s Hsvd k ltac:(lia))
    as (B & HB & Hr & Hc & He).
  assert (Hgen : forall M U' s' VT',
            low_rank M k -> (k <= Nat.min (nrows M) (ncols M))%nat ->
            is_svd M U' s' VT' ->
            exists B', bottleneck U' s' VT' (Z.of_nat k) = Ok B' /\
                       mx_eq B' M /\
                       forall eps, 0 <= eps -> within_tol eps B' M).
  { intros M U' s' VT' Hlow HkM HM.
    assert (Hs' : vlen s' = Nat.min (nrows M) (ncols M))
      by (destruct HM; assumption).
    destruct (bottleneck_of_low_rank M U' VT' s' HM k Hlow ltac:(lia))
      as (B' & HB' & Heq).
    exists B'. split; [exact HB'|]. split; [exact Heq|].
    intros eps Heps. now apply real_mx_eq_within_tol. }
  assert (Hlow : low_rank B k).
  { exists (mkMat (nrows U) k (fun i m => entry U i m * vget s m)), VT.
    intros i j Hi Hj. cbn [entry]. apply He; congruence. }
  exists B. split; [exact HB|]. split; [exact Hr|]. split; [exact Hc|].
  split; [exact He|].
  split; [intros U' s' VT' HB'; apply (Hgen B U' s' VT' Hlow);
          [rewrite Hr, Hc; exact Hk|exact HB']|].
  split; [exact Hgen|].
  intros ->.
  assert (Heq : mx_eq B C).
  { split; [exact Hr|]. split; [exact Hc|].
    rewrite Hr, Hc. intros i j Hi Hj.
    rewrite (He i j Hi Hj), (svd_recon _ _ _ _ Hsvd i j Hi Hj), Hs.
    reflexivity. }
  split; [exact Heq|].
  intros eps Heps. now apply real_mx_eq_within_tol.
Qed.

Lemma bottleneck_truncation_witness :
  exists B,
    RealArrays.bottleneck symmetric_U symmetric_s symmetric_VT 1 = Ok B /\
    nrows B = 2%nat /\ ncols B = 2%nat /\
    (forall i j, (i < 2)%nat -> (j < 2)%nat ->
       entry B i j =
       rsum 1 (fun l => entry symmetric_U i l * vget symmetric_s l
                        * entry symmetric_VT l j)) /\
    (forall U' s' VT', RealArrays.is_svd B U' s' VT' ->
       exists B', RealArrays.bottleneck U' s' VT' 1 = Ok B' /\
                  RealArrays.mx_eq B' B /\
                  forall eps, 0 <= eps -> RealArrays.within_tol eps B' B) /\
    (forall M U' s' VT',
       RealArrays.low_rank M 1 -> (1 <= Nat.min (nrows M) (ncols M))%nat ->
       RealArrays.is_svd M U' s' VT' ->
       exists B', RealArrays.bottleneck U' s' VT' 1 = Ok B' /\
                  RealArrays.mx_eq B' M /\
                  forall eps, 0 <= eps -> RealArrays.within_tol eps B' M) /\
    (1%nat = 2%nat ->
       RealArrays.mx_eq B symmetric_C /\
       forall eps, 0 <= eps -> RealArrays.within_tol eps B symmetric_C).
Proof.
  apply (bottleneck_truncation symmetric_C symmetric_U symmetric_s
           symmetric_VT 1).
  - exact symmetric_svd.
  - lia.
  - simpl. lia.
Defined.

End TruncationTheorem.


(** ** k-fold splitting *)

Section KFold.

Variables n F : nat.
Hypothesis F_pos : (1 <= F)%nat.

Lemma fold_start_closed (i : nat) :
  fold_start n F i = (i * (n / F) + Nat.min i (n mod F))%nat.
Proof.
  induction i as [|i IH].
  - reflexivity.
  - cbn [fold_start]. rewrite IH. unfold fold_size.
    destruct (Nat.ltb_spec i (n mod F)); lia.
Qed.

Lemma fold_start_all : fold_start n F F = n.
Proof.
  rewrite fold_start_closed.
  pose proof (Nat.mod_upper_bound n F ltac:(lia)).
  pose proof (Nat.div_mod_eq n F). lia.
Qed.

Lemma fold_start_mono (i j : nat) :
  (i <= j)%nat -> (fold_start n F i <= fold_start n F j)%nat.
Proof.
  induction 1 as [|j Hle IH].
  - lia.
  - cbn [fold_start]. lia.
Qed.

Lemma held_out_spec (i t : nat) :
  In t (held_out n F i) <->
  (fold_start n F i <= t < fold_start n F (S i))%nat.
Proof.
  unfold held_out. rewrite in_seq. cbn [fold_start]. lia.
Qed.



Lemma held_out_in_range (i t : nat) :
  (i < F)%nat -> In t (held_out n F i) -> (t < n)%nat.
Proof.
  intros Hi Hin. apply held_out_spec in Hin.
  pose proof (fold_start_mono (S i) F ltac:(lia)).
  rewrite fold_start_all in *. lia.
Qed.


End KFold.

(** ** Losses over the folds *)

Section CrossValidation.
Local Open Scope Q_scope.





(** A run is refused unless [2 <= F <= rows]. *)
Lemma GridSearchCV_fold_count
    (LinearRegression_fit : matrix -> matrix -> result matrix)
    (svd : matrix -> result svd_result)
    (PhiP PhiF : matrix) (F : nat) (components_grid : list Z) :
  (F < 2)%nat \/ (nrows PhiP < F)%nat ->
  GridSearchCV LinearRegression_fit svd PhiP PhiF F components_grid
  = Raise ValueError.
Proof.
  intros H. unfold GridSearchCV.
  destruct (Nat.ltb_spec F 2); [reflexivity|].
  destruct (Nat.ltb_spec (nrows PhiP) F); [reflexivity|lia].
Qed.



(** The losses of the two folds of the run on [cv_P] and [cv_F], for the
    ranks 0, 1 and 2, and their means. *)
Example fold_losses_example :
  map (fun k => result_map (map Qred)
                  (fold_losses frequency_fit orthogonal_svd cv_P cv_F 2 k))
      [0%Z; 1%Z; 2%Z] =
  [Ok [1 # 2; 1 # 2]; Ok [3 # 4; 3 # 4]; Ok [1; 1]] /\
  map (fun k => result_map (fun l => Qred (mean l))
                  (fold_losses frequency_fit orthogonal_svd cv_P cv_F 2 k))
      [0%Z; 1%Z; 2%Z] =
  [Ok (1 # 2); Ok (3 # 4); Ok 1].
Proof. split; vm_compute; reflexivity. Qed.

(** Equal losses have standard deviation 0; the losses 0 and 1 have
    standard deviation 1/2. *)
Example std_example :
  std [3 # 4; 3 # 4] = 0%R /\ std [0; 1] = (1 / 2)%R.
Proof.
  split; unfold std.
  - rewrite (Qeq_eqR _ 0) by (vm_compute; reflexivity).
    unfold Q2R. simpl. rewrite Rmult_0_l. apply sqrt_0.
  - rewrite (Qeq_eqR _ (1 # 4)) by (vm_compute; reflexivity).
    apply sqrt_lem_1; unfold Q2R; simpl; lra.
Qed.

Example GridSearchCV_fold_count_example :
  GridSearchCV frequency_fit orthogonal_svd cv_P cv_F 1 [1%Z]
  = Raise ValueError /\
  GridSearchCV frequency_fit orthogonal_svd cv_P cv_F 5 [1%Z]
  = Raise ValueError.
Proof. split; reflexivity. Qed.

End CrossValidation.

(** ** The notebook's pipeline *)

Section Pipeline.
Local Open Scope Q_scope.

Lemma OneHot_fit_transform_shape (ws : list word) :
  exists M, OneHot_transform (OneHot_fit ws) ws = Ok M /\
    nrows M = length ws /\ ncols M = length (OneHot_fit ws) /\
    one_hot M /\ every_word_seen M.
Proof.
  pose proof (OneHot_transform_Ok (OneHot_fit ws) ws
                (fun w => proj2 (OneHot_fit_In ws w))) as E.
  eexists. split; [exact E|].
  split; [reflexivity|]. split; [reflexivity|].
  split.
  - exact (OneHot_transform_one_hot _ _ _ E).
  - exact (OneHot_fit_transform_seen _ _ E).
Qed.

(** The feature matrices of a long enough sequence meet the assumptions of
    the counting theorems: one row per window, one-hot rows, and no past
    word with a zero count. *)
Lemma feature_matrices_spec (X : list symbol) (L : nat) :
  (2 * L < length X)%nat ->
  exists P F, feature_matrices X L = Ok (P, F) /\
    nrows P = (length X - 2 * L)%nat /\ nrows P = nrows F /\
    one_hot P /\ one_hot F /\ every_word_seen P.
Proof.
  intros HN. unfold feature_matrices, Windower.
  destruct (Nat.leb_spec (length X) (2 * L)) as [Hle|_]; [lia|].
  cbn [bind].
  set (ws := map (window_at X (2 * L + 1)) (seq 0 (length X - 2 * L))).
  destruct (OneHot_fit_transform_shape (map (Past L) ws))
    as (P & HP & HPr & _ & HPoh & HPseen).
  destruct (OneHot_fit_transform_shape (map (Future L) ws))
    as (F & HF & HFr & _ & HFoh & _).
  rewrite HP. cbn [bind]. rewrite HF. cbn [bind].
  exists P, F. split; [reflexivity|].
  rewrite HPr, HFr, !length_map. unfold ws.
  rewrite length_map, length_seq. repeat split; assumption.
Qed.

(** Truncating [rotated_C] at rank 1, decomposing the result and
    truncating it again returns the same matrix. *)
Lemma rotated_truncation_twice :
  exists B,
    bottleneck rotated_U rotated_s rotated_VT 1 = Ok B /\
    is_svd B rotated_U (of_list [10; 0]) rotated_VT /\
    exists B', bottleneck rotated_U (of_list [10; 0]) rotated_VT 1 = Ok B' /\
               mx_eq B' B.
Proof.
  eexists. split; [reflexivity|]. split.
  - apply is_svdb_spec. vm_compute. reflexivity.
  - eexists. split; [reflexivity|].
    apply mx_eqb_spec. vm_compute. reflexivity.
Qed.

End Pipeline.

(** ** The model on concrete inputs *)

Section Instances.
Local Open Scope Q_scope.

Example Windower_example :
  Windower [0; 1; 1; 0; 1; 1; 0]%nat 1 =
  Ok [[0; 1; 1]; [1; 1; 0]; [1; 0; 1]; [0; 1; 1]; [1; 1; 0]]%nat.
Proof. reflexivity. Qed.

Example Past_Future_example :
  Past 2 [0; 1; 1; 0; 1]%nat = [0; 1; 1]%nat /\
  Future 2 [0; 1; 1; 0; 1]%nat = [0; 1]%nat.
Proof. split; reflexivity. Qed.

Example OneHot_fit_example :
  OneHot_fit [[0; 1]; [1; 1]; [0; 1]; [1; 0]]%nat =
  [[0; 1]; [1; 1]; [1; 0]]%nat.
Proof. reflexivity. Qed.

Example OneHot_transform_example :
  result_map to_rows
    (OneHot_transform [[0; 1]; [1; 1]; [1; 0]]%nat
                      [[0; 1]; [1; 1]; [0; 1]; [1; 0]]%nat) =
  Ok [[1; 0; 0]; [0; 1; 0]; [1; 0; 0]; [0; 0; 1]].
Proof. vm_compute. reflexivity. Qed.

Example OneHot_transform_unknown :
  OneHot_transform [[0; 1]; [1; 1]]%nat [[0; 1]; [1; 0]]%nat =
  Raise UnknownSymbolError.
Proof. reflexivity. Qed.

Example feature_matrices_example :
  result_map (fun PF => (to_rows (fst PF), to_rows (snd PF)))
    (feature_matrices [0; 1; 1; 0; 1; 1; 1]%nat 1) =
  Ok ([[1; 0; 0]; [0; 1; 0]; [0; 0; 1]; [1; 0; 0]; [0; 1; 0]],
      [[1; 0]; [0; 1]; [1; 0]; [1; 0]; [1; 0]]).
Proof. vm_compute. reflexivity. Qed.

Example joint_counts_example :
  result_map to_rows (joint_counts example_P example_F) = Ok [[2; 1]; [0; 1]].
Proof. vm_compute. reflexivity. Qed.

Example morphs_example :
  result_map to_rows (morphs example_P example_F) =
  Ok [[2 # 3; 1 # 3]; [0; 1]].
Proof. vm_compute. reflexivity. Qed.

Example new_morphs_example :
  result_map to_rows (new_morphs diagonal_inv example_P example_F) =
  Ok [[2 # 3; 1 # 3]; [0; 1]].
Proof. vm_compute. reflexivity. Qed.

Example joint_counts_shape_error :
  joint_counts example_P unseen_F = Raise ValueError.
Proof. reflexivity. Qed.

Example bottleneck_examples :
  result_map to_rows (bottleneck rotated_U rotated_s rotated_VT 0) =
    Ok [[0; 0]; [0; 0]] /\
  result_map to_rows (bottleneck rotated_U rotated_s rotated_VT 1) =
    Ok [[24 # 5; 18 # 5]; [32 # 5; 24 # 5]] /\
  result_map to_rows (bottleneck rotated_U rotated_s rotated_VT 2) =
    Ok (to_rows rotated_C) /\
  result_map to_rows (bottleneck rotated_U rotated_s rotated_VT 7) =
    Ok (to_rows rotated_C) /\
  result_map to_rows (bottleneck rotated_U rotated_s rotated_VT (-1)) =
    Ok [[24 # 5; 18 # 5]; [32 # 5; 24 # 5]].
Proof. repeat split; vm_compute; reflexivity. Qed.

Example bottleneck_shape_error :
  bottleneck (eye 2) (of_list [1]) (eye 1) 2 = Raise ValueError /\
  bottleneck (eye 1) (of_list [1]) (eye 2) 2 = Raise ValueError.
Proof. split; reflexivity. Qed.

Example kfold_example :
  map (held_out 10 3) [0; 1; 2]%nat =
    [[0; 1; 2; 3]; [4; 5; 6]; [7; 8; 9]]%nat /\
  training 10 3 1 = [0; 1; 2; 3; 7; 8; 9]%nat.
Proof. split; reflexivity. Qed.

End Instances.

(** * Further properties of the notebook's code *)

(** ** Joint and marginal counts *)

Section Counts.
Local Open Scope Q_scope.

Lemma count_rows_S (n : nat) (p : nat -> bool) :
  count_rows (S n) p = (count_rows n p + (if p n then 1 else 0))%nat.
Proof.
  unfold count_rows. rewrite seq_S, filter_app, length_app.
  cbn [Nat.add filter]. destruct (p n); reflexivity.
Qed.

Lemma qsum_indicator (n : nat) (p : nat -> bool) :
  qsum n (fun t => if p t then 1 else 0) == inject_nat (count_rows n p).
Proof.
  induction n as [|n IH].
  - reflexivity.
  - cbn [qsum]. rewrite IH, count_rows_S. unfold inject_nat.
    rewrite Nat2Z.inj_add, inject_Z_plus.
    destruct (p n); simpl; ring.
Qed.

Lemma one_hot_entry_hot (M : matrix) (t j : nat) :
  one_hot M -> (t < nrows M)%nat -> (j < ncols M)%nat ->
  entry M t j == (if hot M t j then 1 else 0).
Proof.
  intros HM Ht Hj. destruct (HM t Ht) as [p [Hp H]].
  unfold hot. destruct (Qeq_bool (entry M t j) 1) eqn:E.
  - now apply Qeq_bool_iff.
  - rewrite (H j Hj). unfold delta.
    destruct (Nat.eqb_spec p j) as [->|Hne]; [|reflexivity].
    exfalso. rewrite (H j Hj), delta_refl in E.
    discriminate E.
Qed.

Lemma jcount_count (P F : matrix) (i j : nat) :
  nrows P = nrows F -> one_hot P -> one_hot F ->
  (i < ncols P)%nat -> (j < ncols F)%nat ->
  jcount P F i j ==
  inject_nat (count_rows (nrows P) (fun t => hot P t i && hot F t j)).
Proof.
  intros Hn HP HF Hi Hj. rewrite <- qsum_indicator.
  apply qsum_ext. intros t Ht.
  rewrite (one_hot_entry_hot P t i HP Ht Hi).
  rewrite (one_hot_entry_hot F t j HF) by lia.
  destruct (hot P t i), (hot F t j); simpl; ring.
Qed.

Lemma marginal_count_count (P : matrix) (i : nat) :
  one_hot P -> (i < ncols P)%nat ->
  marginal_count P i == inject_nat (count_rows (nrows P) (fun t => hot P t i)).
Proof.
  intros HP Hi. rewrite <- qsum_indicator.
  apply qsum_ext. intros t Ht. now apply one_hot_entry_hot.
Qed.

(** X1.  The entry [(i, j)] of [joint_counts] is the number of windows
    whose past row marks word [i] and whose future row marks word [j]. *)
Theorem joint_counts_count (P F : matrix) :
  nrows P = nrows F -> one_hot P -> one_hot F ->
  exists J, joint_counts P F = Ok J /\
    nrows J = ncols P /\ ncols J = ncols F /\
    forall i j, (i < ncols P)%nat -> (j < ncols F)%nat ->
      entry J i j ==
      inject_nat (count_rows (nrows P) (fun t => hot P t i && hot F t j)).
Proof.
  intros Hn HP HF. rewrite (joint_counts_Ok P F Hn).
  eexists. split; [reflexivity|]. split; [reflexivity|]. split; [reflexivity|].
  intros i j Hi Hj. cbn [entry]. now apply jcount_count.
Qed.

Lemma joint_counts_count_witness :
  exists J, joint_counts example_P example_F = Ok J /\
    nrows J = ncols example_P /\ ncols J = ncols example_F /\
    forall i j, (i < ncols example_P)%nat -> (j < ncols example_F)%nat ->
      entry J i j ==
      inject_nat (count_rows (nrows example_P)
                    (fun t => hot example_P t i && hot example_F t j)).
Proof.
  apply (joint_counts_count example_P example_F).
  - reflexivity.
  - apply one_hotb_spec. vm_compute. reflexivity.
  - apply one_hotb_spec. vm_compute. reflexivity.
Defined.

(** X2.  [p_counts = joint_counts.sum(axis=1)] holds, for each past word,
    the number of windows that show it, and the counts add up to the
    number of windows. *)
Theorem p_counts_marginal (P F : matrix) :
  nrows P = nrows F -> one_hot P -> one_hot F ->
  exists J, joint_counts P F = Ok J /\
    vlen (sum_axis1 J) = ncols P /\
    (forall i, (i < ncols P)%nat ->
       vget (sum_axis1 J) i ==
       inject_nat (count_rows (nrows P) (fun t => hot P t i))) /\
    qsum (ncols P) (vget (sum_axis1 J)) == inject_nat (nrows P).
Proof.
  intros Hn HP HF. rewrite (joint_counts_Ok P F Hn).
  eexists. split; [reflexivity|]. split; [reflexivity|].
  cbn [sum_axis1 vget nrows ncols entry].
  assert (Hrow : forall i, (i < ncols P)%nat ->
            qsum (ncols F) (fun j => jcount P F i j) == marginal_count P i).
  { intros i Hi. exact (jcount_row_sum P F i Hn HF). }
  split.
  - intros i Hi. rewrite (Hrow i Hi). now apply marginal_count_count.
  - rewrite (qsum_ext _ _ (marginal_count P)) by exact Hrow.
    unfold marginal_count. rewrite qsum_swap.
    rewrite (qsum_ext _ _ (fun _ => 1)).
    + rewrite qsum_const. ring.
    + intros t Ht. now apply one_hot_row_sum.
Qed.

Lemma p_counts_marginal_witness :
  exists J, joint_counts example_P example_F = Ok J /\
    vlen (sum_axis1 J) = ncols example_P /\
    (forall i, (i < ncols example_P)%nat ->
       vget (sum_axis1 J) i ==
       inject_nat (count_rows (nrows example_P) (fun t => hot example_P t i))) /\
    qsum (ncols example_P) (vget (sum_axis1 J)) == inject_nat (nrows example_P).
Proof.
  apply (p_counts_marginal example_P example_F).
  - reflexivity.
  - apply one_hotb_spec. vm_compute. reflexivity.
  - apply one_hotb_spec. vm_compute. reflexivity.
Defined.

(** X3.  [past_squared = past_vecs.T @ past_vecs] is the diagonal matrix
    of [p_counts]. *)
Theorem past_squared_diag_p_counts (P F : matrix) :
  nrows P = nrows F -> one_hot P -> one_hot F ->
  exists J past_squared,
    joint_counts P F = Ok J /\
    matmul (transpose P) P = Ok past_squared /\
    mx_eq past_squared (diag (sum_axis1 J)).
Proof.
  intros Hn HP HF. rewrite (joint_counts_Ok P F Hn), matmul_transpose_self.
  eexists. eexists. split; [reflexivity|]. split; [reflexivity|].
  split; [reflexivity|]. split; [reflexivity|].
  intros i j Hi Hj. cbn [nrows ncols gram] in Hi, Hj.
  rewrite (gram_diagonal P HP i j Hi Hj).
  cbn [diag entry sum_axis1 vget nrows ncols].
  unfold delta. destruct (Nat.eqb i j); [|ring].
  rewrite <- (jcount_row_sum P F i Hn HF), Qmult_1_l.
  apply qsum_ext. intros; reflexivity.
Qed.

Lemma past_squared_diag_p_counts_witness :
  exists J past_squared,
    joint_counts example_P example_F = Ok J /\
    matmul (transpose example_P) example_P = Ok past_squared /\
    mx_eq past_squared (diag (sum_axis1 J)).
Proof.
  apply (past_squared_diag_p_counts example_P example_F).
  - reflexivity.
  - apply one_hotb_spec. vm_compute. reflexivity.
  - apply one_hotb_spec. vm_compute. reflexivity.
Defined.

Lemma morphs_conditional_frequency (P F : matrix) :
  nrows P = nrows F -> one_hot F ->
  exists M, morphs P F = Ok M /\ mx_eq M (conditional_frequency P F).
Proof.
  intros Hn HF.
  destruct (morphs_value P F Hn) as (M & HM & Hr & Hc & He).
  exists M. split; [exact HM|].
  split; [exact Hr|]. split; [exact Hc|].
  rewrite Hr, Hc. intros i j Hi Hj.
  rewrite (He i j Hi Hj), (jcount_row_sum P F i Hn HF).
  cbn [conditional_frequency entry]. unfold Qdiv. ring.
Qed.

(** X4.  The table obtained by dividing by the marginal counts and the
    table obtained by inverting [past_squared] are the same matrix. *)
Theorem morphs_equals_new_morphs
    (inv : matrix -> result matrix) (P F : matrix) :
  nrows P = nrows F -> one_hot P -> one_hot F -> every_word_seen P ->
  inv_contract inv (gram P) ->
  exists M M',
    morphs P F = Ok M /\ new_morphs inv P F = Ok M' /\ mx_eq M M'.
Proof.
  intros Hn HP HF Hseen Hinv.
  destruct (morphs_conditional_frequency P F Hn HF) as (M & HM & Hr & Hc & He).
  destruct (new_morphs_value P F Hn HP Hseen inv Hinv)
    as (M' & HM' & Hr' & Hc' & He').
  exists M, M'. split; [exact HM|]. split; [exact HM'|].
  split; [congruence|]. split; [congruence|].
  intros i j Hi Hj. rewrite (He i j Hi Hj).
  symmetry. apply He'; congruence.
Qed.

Lemma morphs_equals_new_morphs_witness :
  exists M M',
    morphs example_P example_F = Ok M /\
    new_morphs diagonal_inv example_P example_F = Ok M' /\ mx_eq M M'.
Proof.
  apply (morphs_equals_new_morphs diagonal_inv example_P example_F).
  - reflexivity.
  - apply one_hotb_spec. vm_compute. reflexivity.
  - apply one_hotb_spec. vm_compute. reflexivity.
  - apply every_word_seenb_spec. vm_compute. reflexivity.
  - unfold inv_contract, diagonal_inv.
    apply is_inverseb_spec. vm_compute. reflexivity.
Defined.

End Counts.

(** ** The closed form on arbitrary features *)

Section NormalEquations.
Local Open Scope Q_scope.

Variables X Y : matrix.
Hypothesis same_rows : nrows X = nrows Y.

Lemma residual_shift (A B : matrix) (t j : nat) :
  entry Y t j - qsum (ncols X) (fun l => entry X t l * entry B l j) ==
  (entry Y t j - qsum (ncols X) (fun l => entry X t l * entry A l j))
  - shift X A B t j.
Proof.
  assert (E : shift X A B t j ==
              qsum (ncols X) (fun l => entry X t l * entry B l j)
              - qsum (ncols X) (fun l => entry X t l * entry A l j)).
  { unfold shift. rewrite <- qsum_minus. apply qsum_ext. intros; ring. }
  rewrite E. ring.
Qed.

Variable A : matrix.
Hypothesis normal_equations :
  forall a j, (a < ncols X)%nat -> (j < ncols Y)%nat ->
    qsum (ncols X) (fun b => entry (gram X) a b * entry A b j) ==
    jcount X Y a j.

(** The residual of [A] is orthogonal to the features. *)
Lemma residual_orthogonal (l j : nat) :
  (l < ncols X)%nat -> (j < ncols Y)%nat ->
  qsum (nrows X) (fun t => entry X t l *
    (entry Y t j - qsum (ncols X) (fun b => entry X t b * entry A b j))) == 0.
Proof.
  intros Hl Hj.
  rewrite (qsum_ext _ _ (fun t => entry X t l * entry Y t j
             - qsum (ncols X) (fun b => entry X t l * entry X t b * entry A b j))).
  - rewrite qsum_minus, qsum_swap.
    rewrite (qsum_ext (ncols X) _ (fun b => entry (gram X) l b * entry A b j)).
    + rewrite (normal_equations l j Hl Hj). unfold jcount. ring.
    + intros b Hb. cbn [gram entry]. rewrite <- qsum_scal_r. reflexivity.
  - intros t Ht.
    assert (E : qsum (ncols X) (fun b => entry X t l * entry X t b * entry A b j)
                == entry X t l *
                   qsum (ncols X) (fun b => entry X t b * entry A b j)).
    { rewrite <- qsum_scal_l. apply qsum_ext. intros; ring. }
    rewrite E. ring.
Qed.

(** Pythagoras: the loss of [B] is the loss of [A] plus the squared
    length of the shift from [A] to [B]. *)
Lemma sq_loss_pythagoras (B : matrix) :
  sq_loss X Y B ==
  sq_loss X Y A +
  qsum (nrows Y) (fun t => qsum (ncols Y) (fun j => shift X A B t j ^ 2)).
Proof.
  unfold sq_loss.
  set (r := fun t j => entry Y t j
              - qsum (ncols X) (fun l => entry X t l * entry A l j)).
  assert (Hcross : qsum (nrows Y) (fun t => qsum (ncols Y) (fun j =>
                     r t j * shift X A B t j)) == 0).
  { unfold shift.
    rewrite (qsum_ext (nrows Y) _ (fun t => qsum (ncols Y) (fun j =>
               qsum (ncols X) (fun l =>
                 (entry B l j - entry A l j) * (entry X t l * r t j))))).
    - rewrite qsum_swap3. apply qsum_zero. intros l Hl.
      apply qsum_zero. intros j Hj.
      rewrite qsum_scal_l, <- same_rows.
      unfold r. rewrite (residual_orthogonal l j Hl Hj). ring.
    - intros t Ht. apply qsum_ext. intros j Hj.
      rewrite <- qsum_scal_l. apply qsum_ext. intros; ring. }
  rewrite (qsum_ext (nrows Y) _ (fun t =>
             qsum (ncols Y) (fun j => r t j ^ 2)
             + (qsum (ncols Y) (fun j => shift X A B t j ^ 2)
                - 2 * qsum (ncols Y) (fun j => r t j * shift X A B t j)))).
  - rewrite qsum_plus, qsum_minus, qsum_scal_l, Hcross. unfold r. ring.
  - intros t Ht.
    rewrite <- qsum_scal_l, <- qsum_minus, <- qsum_plus.
    apply qsum_ext. intros j Hj.
    rewrite (residual_shift A B t j). fold (r t j). ring.
Qed.

Lemma normal_equations_minimise :
  nrows A = ncols X -> ncols A = ncols Y -> is_least_squares X Y A.
Proof.
  intros Hr Hc. split; [exact Hr|]. split; [exact Hc|].
  intros B _ _. rewrite (sq_loss_pythagoras B).
  assert (0 <= qsum (nrows Y) (fun t =>
                 qsum (ncols Y) (fun j => shift X A B t j ^ 2))).
  { apply qsum_nonneg. intros t Ht. apply qsum_nonneg. intros j Hj.
    apply sq_nonneg. }
  lra.
Qed.

(** With an invertible Gram matrix the minimiser is unique. *)
Lemma normal_equations_unique (N B : matrix) :
  is_inverse (gram X) N -> is_least_squares X Y B ->
  nrows A = ncols X -> ncols A = ncols Y -> mx_eq B A.
Proof.
  intros (_ & _ & HN) (HBr & HBc & HBmin) Hr Hc.
  split; [congruence|]. split; [congruence|].
  rewrite HBr, HBc. intros a j Ha Hj.
  pose proof (HBmin A Hr Hc) as Hle.
  rewrite (sq_loss_pythagoras B) in Hle.
  assert (Hz : qsum (nrows Y) (fun t =>
                 qsum (ncols Y) (fun j => shift X A B t j ^ 2)) <= 0) by lra.
  assert (Hshift : forall t, (t < nrows Y)%nat -> shift X A B t j == 0).
  { intros t Ht. apply sq_zero.
    assert (Hrow : qsum (ncols Y) (fun j => shift X A B t j ^ 2) == 0).
    { apply (qsum_nonneg_zero (nrows Y)
               (fun t => qsum (ncols Y) (fun j => shift X A B t j ^ 2)));
        [|exact Hz|exact Ht].
      intros t' Ht'. apply qsum_nonneg. intros j' Hj'. apply sq_nonneg. }
    assert (Hcell : shift X A B t j ^ 2 == 0).
    { apply (qsum_nonneg_zero (ncols Y) (fun j => shift X A B t j ^ 2));
        [|rewrite Hrow; lra|exact Hj].
      intros j' Hj'. apply sq_nonneg. }
    rewrite Hcell. lra. }
  assert (HG : forall b, (b < ncols X)%nat ->
            qsum (ncols X) (fun l =>
              entry (gram X) b l * (entry B l j - entry A l j)) == 0).
  { intros b Hb.
    rewrite (qsum_ext _ _ (fun l => qsum (nrows X) (fun t =>
               entry X t b * (entry X t l * (entry B l j - entry A l j))))).
    - rewrite qsum_swap. apply qsum_zero. intros t Ht.
      rewrite qsum_scal_l.
      change (qsum (ncols X) (fun l =>
                entry X t l * (entry B l j - entry A l j)))
        with (shift X A B t j).
      rewrite (Hshift t) by lia. ring.
    - intros l Hl. cbn [gram entry]. rewrite <- qsum_scal_r.
      apply qsum_ext. intros; ring. }
  assert (HD : entry B a j - entry A a j == 0).
  { rewrite <- (qsum_delta_l (ncols X) a
                  (fun l => entry B l j - entry A l j) Ha).
    rewrite (qsum_ext _ _ (fun l => qsum (ncols X) (fun b =>
               entry N a b * (entry (gram X) b l *
                 (entry B l j - entry A l j))))).
    - rewrite qsum_swap. apply qsum_zero. intros b Hb.
      rewrite qsum_scal_l, (HG b Hb). ring.
    - intros l Hl.
      destruct (HN a l Ha Hl) as [Hleft _].
      change (nrows (gram X)) with (ncols X) in Hleft.
      rewrite <- Hleft, <- qsum_scal_r. apply qsum_ext. intros; ring. }
  lra.
Qed.

End NormalEquations.

Section GeneralClosedForm.
Local Open Scope Q_scope.

(** X5.  For arbitrary feature matrices over the same samples (one-hot or
    not): whenever [inv] returns the inverse of [past_squared], the matrix
    [inv(past_squared) @ joint_counts] solves the least-squares problem
    [argmin_A || Y - X @ A ||^2], and every solution equals it. *)
Theorem new_morphs_solves_least_squares
    (inv : matrix -> result matrix) (X Y N : matrix) :
  nrows X = nrows Y ->
  inv (gram X) = Ok N -> is_inverse (gram X) N ->
  exists M, new_morphs inv X Y = Ok M /\
    is_least_squares X Y M /\
    forall B, is_least_squares X Y B -> mx_eq B M.
Proof.
  intros Hn Hinv HN. unfold new_morphs.
  rewrite (joint_counts_Ok X Y Hn), matmul_transpose_self.
  cbn [bind]. rewrite Hinv. cbn [bind].
  pose proof HN as (Hr & Hc & HNe).
  change (nrows (gram X)) with (ncols X) in Hr, Hc, HNe.
  rewrite matmul_Ok by exact Hc.
  eexists. split; [reflexivity|].
  cbn [nrows ncols]. rewrite Hc.
  set (M := mkMat (nrows N) (ncols Y)
              (fun i j => qsum (ncols X) (fun l =>
                 entry N i l * entry (mkMat (ncols X) (ncols Y) (jcount X Y)) l j))).
  assert (Hnormal : forall a j, (a < ncols X)%nat -> (j < ncols Y)%nat ->
            qsum (ncols X) (fun b => entry (gram X) a b * entry M b j) ==
            jcount X Y a j).
  { intros a j Ha Hj. unfold M. cbn [entry].
    rewrite (qsum_ext _ _ (fun b => qsum (ncols X) (fun c =>
               entry (gram X) a b * entry N b c * jcount X Y c j))).
    - rewrite qsum_swap.
      rewrite (qsum_ext _ _ (fun c => delta a c * jcount X Y c j)).
      + apply (qsum_delta_l (ncols X) a (fun c => jcount X Y c j) Ha).
      + intros c Hc'. destruct (HNe a c Ha Hc') as [_ Hright].
        rewrite <- Hright, <- qsum_scal_r. reflexivity.
    - intros b Hb. rewrite <- qsum_scal_l. apply qsum_ext. intros; ring. }
  split.
  - apply (normal_equations_minimise X Y Hn M Hnormal); [exact Hr|reflexivity].
  - intros B HB.
    apply (normal_equations_unique X Y Hn M Hnormal N B HN HB);
      [exact Hr|reflexivity].
Qed.

Lemma new_morphs_solves_least_squares_witness :
  exists M, new_morphs dense_inv dense_X dense_Y = Ok M /\
    is_least_squares dense_X dense_Y M /\
    forall B, is_least_squares dense_X dense_Y B -> mx_eq B M.
Proof.
  apply (new_morphs_solves_least_squares dense_inv dense_X dense_Y
           (of_rows 2 2 [[2 # 3; -1 # 3]; [-1 # 3; 2 # 3]])).
  - reflexivity.
  - reflexivity.
  - apply is_inverseb_spec. vm_compute. reflexivity.
Defined.

Example dense_new_morphs_example :
  result_map to_rows (new_morphs dense_inv dense_X dense_Y) =
  Ok [[5 # 3]; [2 # 3]].
Proof. vm_compute. reflexivity. Qed.

End GeneralClosedForm.

(** ** The error of a truncation *)

Section TruncationError.
Import RealArrays.
Local Open Scope R_scope.

Lemma tail_energy_nonneg (s : vector) (k : nat) : 0 <= tail_energy s k.
Proof.
  apply rsum_nonneg. intros l Hl. apply pow2_ge_0.
Qed.

Lemma tail_energy_mono (s : vector) (k k' : nat) :
  (k <= k')%nat -> tail_energy s k' <= tail_energy s k.
Proof.
  intros Hk. destruct (Nat.le_gt_cases k' (vlen s)) as [Hle|Hgt].
  - unfold tail_energy.
    rewrite (rsum_split (k' - k) (vlen s - k)) by lia.
    replace (vlen s - k - (k' - k))%nat with (vlen s - k')%nat by lia.
    rewrite (rsum_ext (vlen s - k') (fun i => vget s (k + (k' - k + i)) ^ 2)
               (fun l => vget s (k' + l) ^ 2))
      by (intros l Hl; replace (k + (k' - k + l))%nat with (k' + l)%nat by lia;
          reflexivity).
    assert (0 <= rsum (k' - k) (fun l => vget s (k + l) ^ 2))
      by (apply rsum_nonneg; intros; apply pow2_ge_0).
    lra.
  - unfold tail_energy at 1. replace (vlen s - k')%nat with O by lia.
    apply tail_energy_nonneg.
Qed.

Lemma tail_energy_zero (s : vector) :
  tail_energy s 0 = rsum (vlen s) (fun l => vget s l ^ 2).
Proof.
  unfold tail_energy. rewrite Nat.sub_0_r. reflexivity.
Qed.

Variables M U VT : matrix.
Variable s : vector.
Hypothesis M_svd : is_svd M U s VT.

(** The squared Frobenius norm of a combination of rank-one terms of the
    decomposition is the sum of the squares of its coefficients. *)
Lemma rank_terms_norm (a : nat -> R) (k m : nat) :
  (k + m <= vlen s)%nat ->
  rsum (nrows M) (fun i => rsum (ncols M) (fun j =>
    rsum m (fun l => a l * entry U i (k + l) * entry VT (k + l) j) ^ 2)) =
  rsum m (fun l => a l ^ 2).
Proof.
  intros Hm.
  destruct (svd_dims M U VT s M_svd) as (HUr & HUc & HVr & HVc & Hsr & Hsc).
  assert (Hrow : forall i, (i < nrows M)%nat ->
            rsum (ncols M) (fun j =>
              rsum m (fun l => a l * entry U i (k + l) * entry VT (k + l) j) ^ 2)
            = rsum m (fun l => a l ^ 2 * (entry U i (k + l) * entry U i (k + l)))).
  { intros i Hi.
    rewrite (rsum_ext (ncols M) _ (fun j => rsum m (fun l => rsum m (fun p =>
               (a l * entry U i (k + l)) * (a p * entry U i (k + p)) *
               (entry VT (k + l) j * entry VT (k + p) j))))).
    - rewrite rsum_swap. apply rsum_ext. intros l Hl.
      rewrite rsum_swap.
      rewrite (rsum_ext m _ (fun p =>
                 (a l * entry U i (k + l)) * (a p * entry U i (k + p))
                 * delta l p)).
      + rewrite (rsum_delta_r m l
                   (fun p => (a l * entry U i (k + l)) * (a p * entry U i (k + p)))
                   Hl).
        ring.
      + intros p Hp. rewrite rsum_scal_l, <- HVc.
        rewrite (svd_VT_orth _ _ _ _ M_svd (k + l)%nat (k + p)%nat) by lia.
        rewrite real_delta_shift. reflexivity.
    - intros j Hj.
      replace (rsum m (fun l => a l * entry U i (k + l) * entry VT (k + l) j) ^ 2)
        with (rsum m (fun l => a l * entry U i (k + l) * entry VT (k + l) j)
              * rsum m (fun l => a l * entry U i (k + l) * entry VT (k + l) j))
        by ring.
      rewrite rsum_mul.
      apply rsum_ext. intros l Hl. apply rsum_ext. intros p Hp. ring. }
  rewrite (rsum_ext (nrows M) _ _ Hrow).
  rewrite rsum_swap. apply rsum_ext. intros l Hl.
  rewrite rsum_scal_l, <- HUr.
  rewrite (svd_U_orth _ _ _ _ M_svd (k + l)%nat (k + l)%nat) by lia.
  rewrite real_delta_refl. ring.
Qed.

Lemma truncation_residual (B : matrix) (k : nat) :
  (k <= vlen s)%nat ->
  (forall i j, (i < nrows M)%nat -> (j < ncols M)%nat ->
     entry B i j = rsum k (fun l => entry U i l * vget s l * entry VT l j)) ->
  sq_dist M B = tail_energy s k.
Proof.
  intros Hk HB. unfold sq_dist, tail_energy.
  rewrite <- (rank_terms_norm (fun l => vget s (k + l)) k (vlen s - k)) by lia.
  apply rsum_ext. intros i Hi. apply rsum_ext. intros j Hj.
  assert (E : entry M i j - entry B i j =
              rsum (vlen s - k) (fun l =>
                vget s (k + l) * entry U i (k + l) * entry VT (k + l) j)).
  { rewrite (svd_recon _ _ _ _ M_svd i j Hi Hj), (HB i j Hi Hj).
    rewrite (rsum_split k (vlen s)) by exact Hk.
    rewrite (rsum_ext (vlen s - k)
               (fun i0 => entry U i (k + i0) * vget s (k + i0) * entry VT (k + i0) j)
               (fun l => vget s (k + l) * entry U i (k + l) * entry VT (k + l) j))
      by (intros; ring).
    ring. }
  rewrite E. reflexivity.
Qed.

(** The truncation keeps the factors and the [k] leading singular
    values. *)
Lemma truncation_svd (B : matrix) (k : nat) :
  nrows B = nrows M -> ncols B = ncols M ->
  (forall i j, (i < nrows M)%nat -> (j < ncols M)%nat ->
     entry B i j = rsum k (fun l => entry U i l * vget s l * entry VT l j)) ->
  (k <= vlen s)%nat ->
  is_svd B U (leading k s) VT.
Proof.
  intros Hr Hc HB Hk.
  destruct M_svd as [H1 H2 H3 H4 H5 H6 H7 H8 H9 H10].
  constructor; cbn [leading vlen vget]; try assumption; try congruence.
  - intros l Hl. destruct (Nat.ltb_spec l k); [now apply H8|lra].
  - intros l l' Hll Hl'.
    destruct (Nat.ltb_spec l' k), (Nat.ltb_spec l k); try lia.
    + now apply H9.
    + apply H8. lia.
    + lra.
  - rewrite Hr, Hc. intros i j Hi Hj. rewrite (HB i j Hi Hj).
    rewrite (rsum_split k (vlen s)) by exact Hk.
    rewrite (rsum_ext k
               (fun l => entry U i l * (if (l <? k)%nat then vget s l else 0)
                         * entry VT l j)
               (fun l => entry U i l * vget s l * entry VT l j)).
    + rewrite (rsum_zero (vlen s - k)); [ring|].
      intros l Hl. destruct (Nat.ltb_spec (k + l) k); [lia|ring].
    + intros l Hl. destruct (Nat.ltb_spec l k); [reflexivity|lia].
Qed.

End TruncationError.

Section TruncationFacts.
Import RealArrays.
Local Open Scope R_scope.

(** X6.  On real arrays, the squared Frobenius distance between a matrix
    and its truncation at rank [k] is the sum of the squares of the
    singular values that the truncation drops; hence a larger rank never
    increases the distance. *)
Theorem truncation_error
    (C U : RealArrays.matrix) (s : RealArrays.vector) (VT : RealArrays.matrix)
    (k : nat) :
  RealArrays.is_svd C U s VT -> (k <= Nat.min (nrows C) (ncols C))%nat ->
  exists B,
    RealArrays.bottleneck U s VT (Z.of_nat k) = Ok B /\
    RealArrays.sq_dist C B = RealArrays.tail_energy s k /\
    forall k' B',
      (k <= k')%nat -> (k' <= Nat.min (nrows C) (ncols C))%nat ->
      RealArrays.bottleneck U s VT (Z.of_nat k') = Ok B' ->
      RealArrays.sq_dist C B' <= RealArrays.sq_dist C B.
Proof.
  intros Hsvd Hk.
  assert (Hs : vlen s = Nat.min (nrows C) (ncols C))
    by (destruct Hsvd; assumption).
  destruct (bottleneck_truncates C U VT s Hsvd k ltac:(lia))
    as (B & HB & _ & _ & He).
  pose proof (truncation_residual C U VT s Hsvd B k ltac:(lia) He) as Herr.
  exists B. split; [exact HB|]. split; [exact Herr|].
  intros k' B' Hkk Hk' HB'.
  destruct (bottleneck_truncates C U VT s Hsvd k' ltac:(lia))
    as (B'' & HB'' & _ & _ & He').
  rewrite HB' in HB''. injection HB'' as <-.
  rewrite Herr, (truncation_residual C U VT s Hsvd B' k' ltac:(lia) He').
  now apply tail_energy_mono.
Qed.

Lemma truncation_error_witness :
  exists B,
    RealArrays.bottleneck symmetric_U symmetric_s symmetric_VT 1 = Ok B /\
    RealArrays.sq_dist symmetric_C B = RealArrays.tail_energy symmetric_s 1 /\
    forall k' B',
      (1 <= k')%nat ->
      (k' <= Nat.min (nrows symmetric_C) (ncols symmetric_C))%nat ->
      RealArrays.bottleneck symmetric_U symmetric_s symmetric_VT (Z.of_nat k')
      = Ok B' ->
      RealArrays.sq_dist symmetric_C B' <= RealArrays.sq_dist symmetric_C B.
Proof.
  apply (truncation_error symmetric_C symmetric_U symmetric_s symmetric_VT 1).
  - exact symmetric_svd.
  - simpl. lia.
Defined.

Example symmetric_tail_energy_example :
  tail_energy symmetric_s 0 = 5 / 4 /\
  tail_energy symmetric_s 1 = 1 / 4 /\
  tail_energy symmetric_s 2 = 0.
Proof. repeat split; cbn; lra. Qed.

(** The truncation of the symmetric table at rank 1 is the uniform
    table. *)
Example symmetric_truncation_example :
  exists B,
    bottleneck symmetric_U symmetric_s symmetric_VT 1 = Ok B /\
    mx_eq B uniform_C.
Proof.
  pose proof half_sqrt2_sq as Hh.
  eexists. split; [reflexivity|].
  split; [reflexivity|]. split; [reflexivity|].
  intros [|[|i]] [|[|j]] Hi Hj; cbn in Hi, Hj; try lia;
    cbn -[half_sqrt2]; change (Pos.to_nat 1) with 1%nat;
    cbn -[half_sqrt2]; nra.
Qed.

(** X7.  On real arrays, the truncation at rank [k] is decomposed by the
    same factors [U] and [VT] with the [k] leading singular values kept
    and the others set to zero. *)
Theorem truncation_keeps_leading
    (C U : RealArrays.matrix) (s : RealArrays.vector) (VT : RealArrays.matrix)
    (k : nat) :
  RealArrays.is_svd C U s VT -> (k <= Nat.min (nrows C) (ncols C))%nat ->
  exists B,
    RealArrays.bottleneck U s VT (Z.of_nat k) = Ok B /\
    RealArrays.is_svd B U (RealArrays.leading k s) VT.
Proof.
  intros Hsvd Hk.
  assert (Hs : vlen s = Nat.min (nrows C) (ncols C))
    by (destruct Hsvd; assumption).
  destruct (bottleneck_truncates C U VT s Hsvd k ltac:(lia))
    as (B & HB & Hr & Hc & He).
  exists B. split; [exact HB|].
  apply (truncation_svd C U VT s Hsvd B k Hr Hc He). lia.
Qed.

Lemma truncation_keeps_leading_witness :
  exists B,
    RealArrays.bottleneck symmetric_U symmetric_s symmetric_VT 1 = Ok B /\
    RealArrays.is_svd B symmetric_U (RealArrays.leading 1 symmetric_s)
      symmetric_VT.
Proof.
  apply (truncation_keeps_leading symmetric_C symmetric_U symmetric_s
           symmetric_VT 1).
  - exact symmetric_svd.
  - simpl. lia.
Defined.

End TruncationFacts.

Section NegativeRank.
Local Open Scope Q_scope.

(** X11.  A negative [n_components] is not refused: Python's slices count
    from the end.  For factors of the shapes of a full SVD of [C]: on a
    square matrix the product is the truncation at rank [max(0, rows + k)];
    on a non-square matrix, for every negative [k] above
    [- max(rows, cols)], the slices disagree in shape and numpy raises
    [ValueError]. *)
Theorem bottleneck_negative_rank
    (C U : matrix) (s : vector) (VT : matrix) (k : Z) :
  svd_shapes C U s VT -> (k < 0)%Z ->
  (nrows C = ncols C ->
   exists B, bottleneck U s VT k = Ok B /\
     mx_eq B (rank_k_sum U s VT
                (Z.to_nat (Z.max 0 (Z.of_nat (nrows C) + k))))) /\
  (nrows C <> ncols C ->
   (- Z.of_nat (Nat.max (nrows C) (ncols C)) < k)%Z ->
   bottleneck U s VT k = Raise ValueError).
Proof.
  intros (_ & HUc & HVr & _ & Hs) Hk.
  split.
  - intros Hsq.
    assert (HU : slice_stop (ncols U) k = slice_stop (vlen s) k)
      by (rewrite HUc, Hs, <- Hsq, Nat.min_id; reflexivity).
    assert (HV : slice_stop (nrows VT) k = slice_stop (vlen s) k)
      by (rewrite HVr, Hs, <- Hsq, Nat.min_id; reflexivity).
    destruct (bottleneck_Ok U s VT k HU HV) as (B & HB & Heq).
    exists B. split; [exact HB|].
    replace (Z.to_nat (Z.max 0 (Z.of_nat (nrows C) + k)))
      with (slice_stop (vlen s) k); [exact Heq|].
    rewrite Hs, <- Hsq, Nat.min_id. unfold slice_stop.
    destruct (Z.ltb_spec k 0); [reflexivity|lia].
  - intros Hns Hlow. apply bottleneck_Raise.
    rewrite HUc, HVr, Hs. unfold slice_stop.
    destruct (Z.ltb_spec k 0); lia.
Qed.

Lemma bottleneck_negative_rank_witness :
  (nrows rotated_C = ncols rotated_C ->
   exists B, bottleneck rotated_U rotated_s rotated_VT (-1) = Ok B /\
     mx_eq B (rank_k_sum rotated_U rotated_s rotated_VT
                (Z.to_nat (Z.max 0 (Z.of_nat (nrows rotated_C) + (-1)))))) /\
  (nrows rotated_C <> ncols rotated_C ->
   (- Z.of_nat (Nat.max (nrows rotated_C) (ncols rotated_C)) < -1)%Z ->
   bottleneck rotated_U rotated_s rotated_VT (-1) = Raise ValueError).
Proof.
  apply (bottleneck_negative_rank rotated_C rotated_U rotated_s rotated_VT (-1)).
  - repeat split.
  - lia.
Defined.

Example negative_rank_nonsquare_example :
  bottleneck (eye 2) (of_list [1]) (eye 1) (-1) = Raise ValueError /\
  result_map to_rows (bottleneck (eye 2) (of_list [1]) (eye 1) (-2)) =
  Ok [[0]; [0]].
Proof. split; vm_compute; reflexivity. Qed.

End NegativeRank.

(** ** Singular values and predictions of the fitted table *)

Section FittedTable.
Local Open Scope Q_scope.

Lemma conditional_frequency_row (P F : matrix) (i : nat) :
  nrows P = nrows F -> one_hot P -> one_hot F -> every_word_seen P ->
  (i < ncols P)%nat ->
  qsum (ncols F) (entry (conditional_frequency P F) i) == 1 /\
  forall j, (j < ncols F)%nat ->
    0 <= entry (conditional_frequency P F) i j <= 1.
Proof.
  intros Hn HP HF Hseen Hi.
  pose proof (marginal_count_pos P HP i Hseen Hi) as Hpos.
  pose proof (jcount_row_sum P F i Hn HF) as Hsum.
  assert (Hinv : 0 < / marginal_count P i) by (apply Qinv_lt_0_compat; lra).
  assert (E : / marginal_count P i * marginal_count P i == 1) by (field; lra).
  split.
  - rewrite (qsum_ext _ _ (fun j => jcount P F i j * / marginal_count P i))
      by (intros; reflexivity).
    rewrite qsum_scal_r, Hsum. lra.
  - intros j Hj. cbn [conditional_frequency entry]. unfold Qdiv.
    pose proof (jcount_nonneg P F i j Hn HP HF Hi Hj) as H0.
    assert (Hle : jcount P F i j <= marginal_count P i).
    { rewrite <- Hsum.
      apply (qsum_term_le (ncols F) (jcount P F i)); [|exact Hj].
      intros l Hl. now apply jcount_nonneg. }
    split.
    + apply Qmult_le_0_compat; lra.
    + rewrite <- E, (Qmult_comm (/ marginal_count P i)).
      apply Qmult_le_compat_r; lra.
Qed.

End FittedTable.

Section SingularValues.
Local Open Scope R_scope.

Lemma Q2R_zero : Q2R 0 = 0.
Proof. unfold Q2R. simpl. lra. Qed.

Lemma Q2R_one : Q2R 1 = 1.
Proof. unfold Q2R. simpl. lra. Qed.

Lemma Q2R_qsum (n : nat) (f : nat -> Q) :
  Q2R (qsum n f) = RealArrays.rsum n (fun i => Q2R (f i)).
Proof.
  induction n as [|n IH]; cbn [qsum RealArrays.rsum].
  - exact Q2R_zero.
  - rewrite Q2R_plus, IH. reflexivity.
Qed.

Lemma rsum_const (n : nat) (c : R) :
  RealArrays.rsum n (fun _ => c) = INR n * c.
Proof.
  induction n as [|n IH].
  - cbn. lra.
  - cbn [RealArrays.rsum]. rewrite IH, S_INR. lra.
Qed.

Lemma real_sq_le_self (x : R) : 0 <= x <= 1 -> x ^ 2 <= x.
Proof. intros [H0 H1]. nra. Qed.

(** A decomposition of a matrix decomposes every matrix with the same
    entries. *)
Lemma is_svd_ext (C C' U : RealArrays.matrix) (s : RealArrays.vector)
    (VT : RealArrays.matrix) :
  RealArrays.mx_eq C C' -> RealArrays.is_svd C' U s VT ->
  RealArrays.is_svd C U s VT.
Proof.
  intros (Hr & Hc & He) [H1 H2 H3 H4 H5 H6 H7 H8 H9 H10].
  constructor; try assumption; try congruence.
  intros i j Hi Hj. rewrite (He i j Hi Hj). apply H10; congruence.
Qed.

(** The table fitted on [symmetric_P] and [symmetric_F] is the symmetric
    table. *)
Lemma symmetric_table :
  RealArrays.mx_eq
    (to_real (transpose (transpose
       (conditional_frequency symmetric_P symmetric_F))))
    RealArrays.symmetric_C.
Proof.
  split; [reflexivity|]. split; [reflexivity|].
  intros [|[|i]] [|[|j]] Hi Hj; cbn in Hi, Hj; try lia;
    cbn [to_real RealArrays.entry];
    match goal with
    | |- Q2R ?q = _ =>
        let v := eval vm_compute in (Qred q) in
        rewrite (Qeq_eqR q v) by (vm_compute; reflexivity)
    end;
    unfold Q2R; cbn; lra.
Qed.

(** X8.  The singular values of the fitted conditional table, which the
    notebook plots to judge the dimension, have squares that add up to at
    most the number of past words (the table taken as a real matrix, with
    any decomposition of it). *)
Theorem singular_values_bounded
    (LinearRegression_fit : matrix -> matrix -> result matrix)
    (P F A : matrix)
    (U : RealArrays.matrix) (s : RealArrays.vector) (VT : RealArrays.matrix) :
  nrows P = nrows F -> one_hot P -> one_hot F -> every_word_seen P ->
  lstsq_contract LinearRegression_fit P F ->
  conditional LinearRegression_fit P F = Ok A ->
  RealArrays.is_svd (to_real A) U s VT ->
  RealArrays.rsum (RealArrays.vlen s) (fun l => RealArrays.vget s l ^ 2)
  <= INR (ncols P).
Proof.
  intros Hn HP HF Hseen (coef_ & Hfit & Hls) Hcond Hsvd.
  unfold conditional in Hcond. rewrite Hfit in Hcond.
  cbn [bind] in Hcond. injection Hcond as <-.
  destruct (least_squares_unique P F Hn HP Hseen _ Hls) as (Hr & Hc & He).
  rewrite Hr, Hc in He.
  rewrite <- tail_energy_zero.
  rewrite <- (truncation_residual _ U VT s Hsvd
                (RealArrays.mkMat (ncols P) (ncols F) (fun _ _ => 0)) 0
                ltac:(lia))
    by (intros; reflexivity).
  unfold RealArrays.sq_dist.
  cbn [to_real RealArrays.nrows RealArrays.ncols RealArrays.entry].
  rewrite Hr, Hc.
  cbn [nrows ncols conditional_frequency].
  rewrite <- (Rmult_1_r (INR (ncols P))), <- rsum_const.
  apply rsum_le. intros i Hi.
  destruct (conditional_frequency_row P F i Hn HP HF Hseen Hi) as [Hsum Hent].
  apply Rle_trans
    with (RealArrays.rsum (ncols F)
            (fun j => Q2R (entry (conditional_frequency P F) i j))).
  - apply rsum_le. intros j Hj.
    rewrite (Qeq_eqR _ _ (He i j Hi Hj)).
    replace (Q2R (entry (conditional_frequency P F) i j) - 0)
      with (Q2R (entry (conditional_frequency P F) i j)) by ring.
    apply real_sq_le_self.
    destruct (Hent j Hj) as [H0 H1].
    apply Qle_Rle in H0, H1. rewrite Q2R_zero in H0. rewrite Q2R_one in H1.
    split; assumption.
  - rewrite <- (Q2R_qsum (ncols F) (entry (conditional_frequency P F) i)).
    rewrite (Qeq_eqR _ _ Hsum), Q2R_one. lra.
Qed.

Lemma singular_values_bounded_witness :
  RealArrays.rsum (RealArrays.vlen RealArrays.symmetric_s)
    (fun l => RealArrays.vget RealArrays.symmetric_s l ^ 2)
  <= INR (ncols symmetric_P).
Proof.
  assert (HP : one_hot symmetric_P)
    by (apply one_hotb_spec; vm_compute; reflexivity).
  assert (HF : one_hot symmetric_F)
    by (apply one_hotb_spec; vm_compute; reflexivity).
  assert (Hseen : every_word_seen symmetric_P)
    by (apply every_word_seenb_spec; vm_compute; reflexivity).
  apply (singular_values_bounded frequency_fit symmetric_P symmetric_F
           (transpose (transpose (conditional_frequency symmetric_P symmetric_F)))
           RealArrays.symmetric_U RealArrays.symmetric_s
           RealArrays.symmetric_VT eq_refl HP HF Hseen).
  - eexists. split; [reflexivity|].
    exact (conditional_frequency_least_squares symmetric_P symmetric_F
             eq_refl HP Hseen).
  - reflexivity.
  - exact (is_svd_ext _ _ _ _ _ symmetric_table symmetric_svd).
Defined.

End SingularValues.

Section Predictions.
Local Open Scope Q_scope.

Variable LinearRegression_fit : matrix -> matrix -> result matrix.
Variable svd : matrix -> result svd_result.
Variables X y coef_ U VT : matrix.
Variable s : vector.
Hypothesis fit_Ok : LinearRegression_fit X y = Ok coef_.
Hypothesis svd_Ok : svd (transpose coef_) = Ok (U, s, VT).
Hypothesis svd_shaped : svd_shapes (transpose coef_) U s VT.

Lemma fitted_bottleneck (k : nat) :
  (k <= Nat.min (ncols coef_) (nrows coef_))%nat ->
  exists self,
    SVDRegressor_fit LinearRegression_fit svd (Z.of_nat k) X y = Ok self /\
    nrows (bottleneck_ self) = ncols coef_ /\
    ncols (bottleneck_ self) = nrows coef_ /\
    forall l j, (l < ncols coef_)%nat -> (j < nrows coef_)%nat ->
      entry (bottleneck_ self) l j ==
      qsum k (fun m => entry U l m * vget s m * entry VT m j).
Proof.
  intros Hk.
  destruct (SVDRegressor_fit_Ok LinearRegression_fit svd X y coef_ U VT s
              fit_Ok svd_Ok svd_shaped (Z.of_nat k))
    as (self & Hself & _ & _ & HBr & HBc & HBe); [left; lia|].
  destruct (rank_k_sum_shape coef_ U VT s svd_shaped
              (slice_stop (vlen s) (Z.of_nat k))) as [Hr Hc].
  assert (Hs : vlen s = Nat.min (ncols coef_) (nrows coef_))
    by (destruct svd_shaped as (_ & _ & _ & _ & Hs); exact Hs).
  exists self. split; [exact Hself|].
  split; [congruence|]. split; [congruence|].
  intros l j Hl Hj. rewrite (HBe l j) by congruence.
  cbn [rank_k_sum entry].
  rewrite slice_stop_inside by lia. rewrite Nat2Z.id. reflexivity.
Qed.

(** X9.  After a fit with rank [k] (the regression has returned, and the
    decomposition has returned factors of the shapes of a full SVD), every
    predicted row is a linear combination of the [k] leading rows of [VT]:
    the predictions of any input pass through [k] dimensions. *)
Theorem predictions_pass_through_bottleneck (k : nat) (X' : matrix) :
  (k <= Nat.min (ncols coef_) (nrows coef_))%nat ->
  ncols X' = ncols coef_ ->
  exists self Yp W,
    SVDRegressor_fit LinearRegression_fit svd (Z.of_nat k) X y = Ok self /\
    SVDRegressor_predict self X' = Ok Yp /\
    nrows Yp = nrows X' /\ ncols Yp = nrows coef_ /\
    (forall t j, (t < nrows X')%nat -> (j < nrows coef_)%nat ->
       entry Yp t j == qsum k (fun m => entry W t m * entry VT m j)) /\
    low_rank Yp k.
Proof.
  intros Hk HX'.
  destruct (fitted_bottleneck k Hk) as (self & Hself & HBr & HBc & HBe).
  unfold SVDRegressor_predict.
  set (W := mkMat (nrows X') k (fun t m =>
              qsum (ncols X') (fun l => entry X' t l * (entry U l m * vget s m)))).
  assert (Hent : forall t j, (t < nrows X')%nat -> (j < nrows coef_)%nat ->
            qsum (ncols X') (fun l => entry X' t l * entry (bottleneck_ self) l j)
            == qsum k (fun m => entry W t m * entry VT m j)).
  { intros t j Ht Hj.
    rewrite (qsum_ext (ncols X') _ (fun l => qsum k (fun m =>
               entry X' t l * (entry U l m * vget s m) * entry VT m j))).
    - rewrite qsum_swap. apply qsum_ext. intros m Hm.
      unfold W. cbn [entry]. rewrite <- qsum_scal_r. reflexivity.
    - intros l Hl. rewrite (HBe l j) by lia.
      rewrite <- qsum_scal_l. apply qsum_ext. intros; ring. }
  exists self. rewrite matmul_Ok by congruence.
  eexists. exists W. split; [exact Hself|]. split; [reflexivity|].
  cbn [nrows ncols entry]. split; [reflexivity|]. split; [exact HBc|].
  split; [exact Hent|].
  exists W, VT. cbn [nrows ncols entry]. rewrite HBc. exact Hent.
Qed.

End Predictions.

Section PredictedFrequencies.
Local Open Scope Q_scope.

(** X10.  Fitted at full rank on one-hot features in which every past
    word occurs, with factors of the shapes of a full SVD that multiply
    back to the coefficient matrix, the regressor predicts for every
    one-hot input row the conditional frequencies of the past word that
    the row marks: joint count over marginal count. *)
Theorem full_rank_predicts_frequencies
    (LinearRegression_fit : matrix -> matrix -> result matrix)
    (svd : matrix -> result svd_result)
    (P F coef_ U VT : matrix) (s : vector) (X' : matrix) :
  nrows P = nrows F -> one_hot P -> every_word_seen P ->
  LinearRegression_fit P F = Ok coef_ ->
  is_least_squares P F (transpose coef_) ->
  svd (transpose coef_) = Ok (U, s, VT) ->
  svd_shapes (transpose coef_) U s VT ->
  svd_reconstructs (transpose coef_) U s VT ->
  one_hot X' -> ncols X' = ncols P ->
  exists self Yp,
    SVDRegressor_fit LinearRegression_fit svd
      (Z.of_nat (Nat.min (ncols P) (ncols F))) P F = Ok self /\
    SVDRegressor_predict self X' = Ok Yp /\
    nrows Yp = nrows X' /\ ncols Yp = ncols F /\
    forall t p j, (t < nrows X')%nat -> indicator_row X' t p ->
      (j < ncols F)%nat ->
      entry Yp t j == jcount P F p j / marginal_count P p.
Proof.
  intros Hn HP Hseen Hfit Hls Hsvd Hshapes Hrecon HX' HXc.
  destruct (least_squares_unique P F Hn HP Hseen _ Hls) as (Hr & Hc & He).
  cbn [nrows ncols transpose conditional_frequency] in Hr, Hc.
  destruct (fitted_bottleneck LinearRegression_fit svd P F coef_ U VT s
              Hfit Hsvd Hshapes (Nat.min (ncols P) (ncols F)))
    as (self & Hself & HBr & HBc & HBe); [lia|].
  assert (Hs : vlen s = Nat.min (ncols P) (ncols F))
    by (destruct Hshapes as (_ & _ & _ & _ & Hlen);
        cbn [nrows ncols transpose] in Hlen; congruence).
  exists self. unfold SVDRegressor_predict.
  rewrite matmul_Ok by congruence.
  eexists. split; [exact Hself|]. split; [reflexivity|].
  cbn [nrows ncols entry]. split; [reflexivity|]. split; [congruence|].
  intros t p j Ht Hp Hj.
  rewrite (one_hot_select X' t p (fun l => entry (bottleneck_ self) l j) Hp).
  destruct Hp as [Hp _].
  rewrite (HBe p j) by lia.
  rewrite <- Hs.
  rewrite <- (Hrecon p j) by (cbn [nrows ncols transpose]; lia).
  rewrite (He p j) by (cbn [nrows ncols transpose]; lia).
  reflexivity.
Qed.

Lemma full_rank_predicts_frequencies_witness :
  exists self Yp,
    SVDRegressor_fit frequency_fit orthogonal_svd
      (Z.of_nat (Nat.min (ncols example_P) (ncols example_F)))
      example_P example_F = Ok self /\
    SVDRegressor_predict self column_X = Ok Yp /\
    nrows Yp = nrows column_X /\ ncols Yp = ncols example_F /\
    forall t p j, (t < nrows column_X)%nat -> indicator_row column_X t p ->
      (j < ncols example_F)%nat ->
      entry Yp t j ==
      jcount example_P example_F p j / marginal_count example_P p.
Proof.
  assert (HP : one_hot example_P)
    by (apply one_hotb_spec; vm_compute; reflexivity).
  assert (Hseen : every_word_seen example_P)
    by (apply every_word_seenb_spec; vm_compute; reflexivity).
  apply (full_rank_predicts_frequencies frequency_fit orthogonal_svd
           example_P example_F
           (transpose (conditional_frequency example_P example_F))
           (eye 2)
           (transpose (transpose (conditional_frequency example_P example_F)))
           (mkVec 2 (fun _ => 1)) column_X).
  - reflexivity.
  - exact HP.
  - exact Hseen.
  - reflexivity.
  - exact (conditional_frequency_least_squares example_P example_F eq_refl
             HP Hseen).
  - reflexivity.
  - repeat split.
  - apply svd_reconstructsb_spec. vm_compute. reflexivity.
  - exact column_X_one_hot.
  - reflexivity.
Defined.

Lemma predictions_pass_through_bottleneck_witness :
  exists self Yp W,
    SVDRegressor_fit frequency_fit column_svd (Z.of_nat 1) column_X column_y
    = Ok self /\
    SVDRegressor_predict self column_X = Ok Yp /\
    nrows Yp = nrows column_X /\ ncols Yp = 1%nat /\
    (forall t j, (t < nrows column_X)%nat -> (j < 1)%nat ->
       entry Yp t j == qsum 1 (fun m => entry W t m * entry (eye 1) m j)) /\
    low_rank Yp 1.
Proof.
  apply (predictions_pass_through_bottleneck frequency_fit column_svd
           column_X column_y
           (transpose (conditional_frequency column_X column_y))
           (eye 2) (eye 1) (of_list [1])
           eq_refl eq_refl
           (conj eq_refl (conj eq_refl (conj eq_refl (conj eq_refl eq_refl))))
           1 column_X).
  - simpl. lia.
  - reflexivity.
Defined.

End PredictedFrequencies.

(** ** The tables of the notebook on any sequence *)

Section NotebookTables.
Local Open Scope Q_scope.

(** X12.  For every sequence longer than [2L], the feature matrices that
    the notebook builds (each encoder transforms the very sub-words it was
    fitted on) have one row per window and no past word with a zero count,
    so that the division by [p_counts] is a division by positive numbers,
    [morphs] holds the conditional frequencies, and the inversion of
    [past_squared] cannot meet a singular matrix and returns the same
    table. *)
Theorem notebook_tables_defined
    (inv : matrix -> result matrix) (X : list symbol) (L : nat) :
  (2 * L < length X)%nat ->
  exists P F M,
    feature_matrices X L = Ok (P, F) /\
    nrows P = (length X - 2 * L)%nat /\ nrows F = (length X - 2 * L)%nat /\
    morphs P F = Ok M /\
    (forall i, (i < ncols P)%nat -> 1 <= marginal_count P i) /\
    (forall i j, (i < ncols P)%nat -> (j < ncols F)%nat ->
       entry M i j == jcount P F i j / marginal_count P i) /\
    (inv_contract inv (gram P) ->
     exists M', new_morphs inv P F = Ok M' /\ mx_eq M' M).
Proof.
  intros HN.
  destruct (feature_matrices_spec X L HN)
    as (P & F & Hfm & HPr & Hn & HP & HF & Hseen).
  destruct (morphs_conditional_frequency P F Hn HF) as (M & HM & Hr & Hc & He).
  exists P, F, M. split; [exact Hfm|]. split; [exact HPr|].
  split; [congruence|]. split; [exact HM|].
  split; [intros i Hi; now apply marginal_count_pos|].
  split.
  - intros i j Hi Hj.
    apply (He i j); [rewrite Hr|rewrite Hc]; assumption.
  - intros Hinv.
    destruct (new_morphs_value P F Hn HP Hseen inv Hinv)
      as (M' & HM' & Hr' & Hc' & He').
    exists M'. split; [exact HM'|].
    split; [congruence|]. split; [congruence|].
    intros i j Hi Hj. rewrite (He' i j Hi Hj).
    symmetry. apply He; [rewrite Hr, <- Hr'|rewrite Hc, <- Hc']; assumption.
Qed.

Lemma notebook_tables_defined_witness :
  exists P F M,
    feature_matrices [0; 1; 1; 0; 1; 1; 1]%nat 1 = Ok (P, F) /\
    nrows P = (length [0; 1; 1; 0; 1; 1; 1]%nat - 2 * 1)%nat /\
    nrows F = (length [0; 1; 1; 0; 1; 1; 1]%nat - 2 * 1)%nat /\
    morphs P F = Ok M /\
    (forall i, (i < ncols P)%nat -> 1 <= marginal_count P i) /\
    (forall i j, (i < ncols P)%nat -> (j < ncols F)%nat ->
       entry M i j == jcount P F i j / marginal_count P i) /\
    (inv_contract diagonal_inv (gram P) ->
     exists M', new_morphs diagonal_inv P F = Ok M' /\ mx_eq M' M).
Proof.
  apply (notebook_tables_defined diagonal_inv [0; 1; 1; 0; 1; 1; 1]%nat 1).
  simpl. lia.
Defined.

Example notebook_morphs_example :
  result_map (fun PF => result_map to_rows (morphs (fst PF) (snd PF)))
    (feature_matrices [0; 1; 1; 0; 1; 1; 1]%nat 1) =
  Ok (Ok [[1; 0]; [1 # 2; 1 # 2]; [1; 0]]).
Proof. vm_compute. reflexivity. Qed.

End NotebookTables.

(** ** The training loss of a bottleneck *)

Section TrainingLoss.
Local Open Scope R_scope.

Lemma Q2R_delta (i j : nat) : Q2R (delta i j) = RealArrays.delta i j.
Proof.
  unfold delta, RealArrays.delta.
  destruct (Nat.eqb i j); [exact Q2R_one|exact Q2R_zero].
Qed.

Lemma Q2R_inject_nat (n : nat) : Q2R (inject_nat n) = INR n.
Proof.
  unfold inject_nat, Q2R. cbn [Qnum Qden inject_Z].
  rewrite INR_IZR_INZ. change (IZR (Z.pos 1)) with 1. field.
Qed.

Lemma marginal_count_le_rows (P : matrix) (l : nat) :
  one_hot P -> (l < ncols P)%nat ->
  (marginal_count P l <= inject_nat (nrows P))%Q.
Proof.
  intros HP Hl. unfold marginal_count.
  rewrite <- (Qmult_1_r (inject_nat (nrows P))), <- qsum_const.
  apply qsum_le. intros t Ht.
  now apply (one_hot_entry_01 P HP t l Ht Hl).
Qed.

Variables P F : matrix.
Hypothesis same_windows : nrows P = nrows F.
Hypothesis P_one_hot : one_hot P.

Lemma real_one_hot_select (t p : nat) (g : nat -> R) :
  indicator_row P t p ->
  RealArrays.rsum (ncols P) (fun l => Q2R (entry P t l) * g l) = g p.
Proof.
  intros [Hp H].
  rewrite <- (rsum_delta_r (ncols P) p g Hp).
  apply rsum_ext. intros l Hl.
  rewrite (Qeq_eqR _ _ (H l Hl)), Q2R_delta. ring.
Qed.

Lemma real_residual_one_hot (B : RealArrays.matrix) (t j : nat) :
  (t < nrows P)%nat ->
  (Q2R (entry F t j)
   - RealArrays.rsum (ncols P) (fun l => Q2R (entry P t l) * RealArrays.entry B l j)) ^ 2 =
  Q2R (entry F t j) ^ 2 +
  RealArrays.rsum (ncols P) (fun l =>
    Q2R (entry P t l) *
    (RealArrays.entry B l j ^ 2 - 2 * Q2R (entry F t j) * RealArrays.entry B l j)).
Proof.
  intros Ht. destruct (P_one_hot t Ht) as [p Hp].
  rewrite (real_one_hot_select t p (fun l => RealArrays.entry B l j) Hp).
  rewrite (real_one_hot_select t p
             (fun l => RealArrays.entry B l j ^ 2 - 2 * Q2R (entry F t j) * RealArrays.entry B l j)
             Hp).
  ring.
Qed.

(** Completing the square, past word by past word, for real
    coefficients. *)
Lemma real_sq_loss_diff (B C : RealArrays.matrix) :
  (forall l j, (l < ncols P)%nat -> (j < ncols F)%nat ->
     Q2R (marginal_count P l) * RealArrays.entry C l j = Q2R (jcount P F l j)) ->
  real_sq_loss P F B - real_sq_loss P F C =
  RealArrays.rsum (ncols P) (fun l => RealArrays.rsum (ncols F) (fun j =>
    Q2R (marginal_count P l) * (RealArrays.entry B l j - RealArrays.entry C l j) ^ 2)).
Proof.
  intros HC. unfold real_sq_loss.
  rewrite <- rsum_minus.
  rewrite (rsum_ext (nrows F) _ (fun t =>
     RealArrays.rsum (ncols F) (fun j => RealArrays.rsum (ncols P) (fun l =>
       Q2R (entry P t l) * (RealArrays.entry B l j ^ 2 - RealArrays.entry C l j ^ 2)
       - 2 * (Q2R (entry P t l) * Q2R (entry F t j))
         * (RealArrays.entry B l j - RealArrays.entry C l j))))).
  - rewrite rsum_swap3. apply rsum_ext. intros l Hl.
    apply rsum_ext. intros j Hj.
    rewrite rsum_minus, rsum_scal_r.
    rewrite (rsum_ext (nrows F)
               (fun t => 2 * (Q2R (entry P t l) * Q2R (entry F t j))
                         * (RealArrays.entry B l j - RealArrays.entry C l j))
               (fun t => Q2R (entry P t l * entry F t j)
                         * (2 * (RealArrays.entry B l j - RealArrays.entry C l j))))
      by (intros; rewrite Q2R_mult; ring).
    rewrite rsum_scal_r.
    rewrite <- same_windows.
    rewrite <- (Q2R_qsum (nrows P) (fun t => entry P t l)).
    rewrite <- (Q2R_qsum (nrows P) (fun t => (entry P t l * entry F t j)%Q)).
    fold (marginal_count P l). fold (jcount P F l j).
    rewrite <- (HC l j Hl Hj). ring.
  - intros t Ht. rewrite <- rsum_minus. apply rsum_ext. intros j Hj.
    rewrite !real_residual_one_hot by lia.
    match goal with
    | |- ?a + ?x - (?a + ?y) = _ =>
        replace (a + x - (a + y)) with (x - y) by ring
    end.
    rewrite <- rsum_minus. apply rsum_ext. intros l Hl. ring.
Qed.

End TrainingLoss.

Section TrainingLossBounds.
Local Open Scope R_scope.

(** X13.  On one-hot features in which every past word occurs, take any
    decomposition of the regression's coefficient table as a real matrix.
    The squared training loss [|| PhiF - PhiP @ B ||^2] of its rank-[k]
    bottleneck [B] exceeds the loss of the unconstrained table by at least
    the sum of the squares of the dropped singular values, and by at most
    that sum times the number of windows. *)
Theorem bottleneck_training_loss
    (LinearRegression_fit : matrix -> matrix -> result matrix)
    (P F coef_ : matrix)
    (U : RealArrays.matrix) (s : RealArrays.vector) (VT : RealArrays.matrix)
    (k : nat) :
  nrows P = nrows F -> one_hot P -> every_word_seen P ->
  LinearRegression_fit P F = Ok coef_ ->
  is_least_squares P F (transpose coef_) ->
  RealArrays.is_svd (to_real (transpose coef_)) U s VT ->
  (k <= Nat.min (ncols P) (ncols F))%nat ->
  exists B,
    RealArrays.bottleneck U s VT (Z.of_nat k) = Ok B /\
    RealArrays.tail_energy s k <=
      real_sq_loss P F B - real_sq_loss P F (to_real (transpose coef_)) /\
    real_sq_loss P F B - real_sq_loss P F (to_real (transpose coef_)) <=
      INR (nrows P) * RealArrays.tail_energy s k.
Proof.
  intros Hn HP Hseen Hfit Hls Hsvd Hk.
  destruct (least_squares_unique P F Hn HP Hseen _ Hls) as (Hr & Hc & He).
  cbn [nrows ncols conditional_frequency] in Hr, Hc.
  rewrite Hr, Hc in He.
  assert (Hs : (k <= RealArrays.vlen s)%nat).
  { destruct Hsvd as [_ _ _ _ Hlen _ _ _ _ _].
    cbn [to_real RealArrays.nrows RealArrays.ncols] in Hlen. lia. }
  destruct (bottleneck_truncates _ U VT s Hsvd k Hs)
    as (B & HB & HBr & HBc & HBe).
  cbn [to_real RealArrays.nrows RealArrays.ncols] in HBr, HBc, HBe.
  rewrite Hr, Hc in HBe.
  exists B. split; [exact HB|].
  set (A := to_real (transpose coef_)).
  assert (Hnormal : forall l j, (l < ncols P)%nat -> (j < ncols F)%nat ->
            Q2R (marginal_count P l) * RealArrays.entry A l j = Q2R (jcount P F l j)).
  { intros l j Hl Hj. unfold A. cbn [to_real RealArrays.entry].
    rewrite <- Q2R_mult. apply Qeq_eqR.
    rewrite (He l j Hl Hj).
    exact (conditional_frequency_normal P F HP Hseen l j Hl Hj). }
  rewrite (real_sq_loss_diff P F Hn HP B A Hnormal).
  assert (Hdist : RealArrays.sq_dist A B = RealArrays.tail_energy s k).
  { apply (truncation_residual A U VT s Hsvd B k Hs).
    unfold A. cbn [to_real RealArrays.nrows RealArrays.ncols].
    rewrite Hr, Hc. exact HBe. }
  assert (Hsum : RealArrays.sq_dist A B =
            RealArrays.rsum (ncols P) (fun l => RealArrays.rsum (ncols F) (fun j =>
              (RealArrays.entry B l j - RealArrays.entry A l j) ^ 2))).
  { unfold RealArrays.sq_dist, A.
    cbn [to_real RealArrays.nrows RealArrays.ncols]. rewrite Hr, Hc.
    apply rsum_ext. intros l Hl. apply rsum_ext. intros j Hj. ring. }
  rewrite <- Hdist, Hsum.
  assert (Hm : forall l, (l < ncols P)%nat ->
            1 <= Q2R (marginal_count P l) <= INR (nrows P)).
  { intros l Hl. split.
    - rewrite <- Q2R_one. apply Qle_Rle. now apply marginal_count_pos.
    - rewrite <- Q2R_inject_nat. apply Qle_Rle.
      now apply marginal_count_le_rows. }
  split.
  - apply rsum_le. intros l Hl. apply rsum_le. intros j Hj.
    destruct (Hm l Hl) as [H1 _].
    pose proof (pow2_ge_0 (RealArrays.entry B l j - RealArrays.entry A l j)). nra.
  - rewrite <- rsum_scal_l. apply rsum_le. intros l Hl.
    rewrite <- rsum_scal_l. apply rsum_le. intros j Hj.
    destruct (Hm l Hl) as [_ Hn'].
    pose proof (pow2_ge_0 (RealArrays.entry B l j - RealArrays.entry A l j)). nra.
Qed.

Lemma bottleneck_training_loss_witness :
  exists B,
    RealArrays.bottleneck RealArrays.symmetric_U RealArrays.symmetric_s
      RealArrays.symmetric_VT (Z.of_nat 1) = Ok B /\
    RealArrays.tail_energy RealArrays.symmetric_s 1 <=
      real_sq_loss symmetric_P symmetric_F B
      - real_sq_loss symmetric_P symmetric_F
          (to_real (transpose (transpose
             (conditional_frequency symmetric_P symmetric_F)))) /\
    real_sq_loss symmetric_P symmetric_F B
      - real_sq_loss symmetric_P symmetric_F
          (to_real (transpose (transpose
             (conditional_frequency symmetric_P symmetric_F)))) <=
      INR (nrows symmetric_P) * RealArrays.tail_energy RealArrays.symmetric_s 1.
Proof.
  assert (HP : one_hot symmetric_P)
    by (apply one_hotb_spec; vm_compute; reflexivity).
  assert (Hseen : every_word_seen symmetric_P)
    by (apply every_word_seenb_spec; vm_compute; reflexivity).
  apply (bottleneck_training_loss frequency_fit symmetric_P symmetric_F
           (transpose (conditional_frequency symmetric_P symmetric_F))
           RealArrays.symmetric_U RealArrays.symmetric_s
           RealArrays.symmetric_VT 1 eq_refl HP Hseen).
  - reflexivity.
  - exact (conditional_frequency_least_squares symmetric_P symmetric_F
             eq_refl HP Hseen).
  - exact (is_svd_ext _ _ _ _ _ symmetric_table symmetric_svd).
  - simpl. lia.
Defined.

End TrainingLossBounds.

(** ** Regression coefficients and the shape of inputs *)

Section RegressionTable.
Local Open Scope Q_scope.

(** X14.  On one-hot features in which every past word occurs, the
    coefficient matrix [regressor.coef_.T] of the regression route has one
    row per past word and one column per future word, and every row is a
    probability distribution: its entries lie in [[0, 1]] and sum to 1. *)
Theorem regression_rows_are_distributions
    (LinearRegression_fit : matrix -> matrix -> result matrix)
    (P F A : matrix) :
  nrows P = nrows F -> one_hot P -> one_hot F -> every_word_seen P ->
  lstsq_contract LinearRegression_fit P F ->
  conditional LinearRegression_fit P F = Ok A ->
  nrows A = ncols P /\ ncols A = ncols F /\
  forall i, (i < ncols P)%nat ->
    qsum (ncols F) (entry A i) == 1 /\
    forall j, (j < ncols F)%nat -> 0 <= entry A i j <= 1.
Proof.
  intros Hn HP HF Hseen (coef_ & Hfit & Hls) Hcond.
  unfold conditional in Hcond. rewrite Hfit in Hcond.
  cbn [bind] in Hcond. injection Hcond as <-.
  destruct (least_squares_unique P F Hn HP Hseen _ Hls) as (Hr & Hc & He).
  split; [exact Hr|]. split; [exact Hc|].
  rewrite Hr, Hc in He. intros i Hi.
  destruct (conditional_frequency_row P F i Hn HP HF Hseen Hi) as [Hsum Hent].
  split.
  - rewrite <- Hsum. apply qsum_ext. intros j Hj. now apply He.
  - intros j Hj. rewrite (He i j Hi Hj). now apply Hent.
Qed.

Lemma regression_rows_are_distributions_witness :
  nrows (transpose (transpose (conditional_frequency example_P example_F)))
    = ncols example_P /\
  ncols (transpose (transpose (conditional_frequency example_P example_F)))
    = ncols example_F /\
  forall i, (i < ncols example_P)%nat ->
    qsum (ncols example_F)
      (entry (transpose (transpose (conditional_frequency example_P example_F))) i)
    == 1 /\
    forall j, (j < ncols example_F)%nat ->
      0 <= entry (transpose (transpose
                    (conditional_frequency example_P example_F))) i j <= 1.
Proof.
  assert (HP : one_hot example_P)
    by (apply one_hotb_spec; vm_compute; reflexivity).
  assert (HF : one_hot example_F)
    by (apply one_hotb_spec; vm_compute; reflexivity).
  assert (Hseen : every_word_seen example_P)
    by (apply every_word_seenb_spec; vm_compute; reflexivity).
  apply (regression_rows_are_distributions frequency_fit example_P example_F _
           eq_refl HP HF Hseen).
  - eexists. split; [reflexivity|].
    exact (conditional_frequency_least_squares example_P example_F
             eq_refl HP Hseen).
  - reflexivity.
Defined.



Example predict_shape_example :
  result_map
    (fun self => SVDRegressor_predict self (of_rows 1 3 [[1; 0; 0]]))
    (SVDRegressor_fit frequency_fit column_svd 1 column_X column_y) =
  Ok (Raise ValueError).
Proof. reflexivity. Qed.

End RegressionTable.
